(** * SumStack (Sum-Game): the grid state machine of [src/App.tsx]

    A shallow embedding of the game logic of the React component [App]:
    the block grid, row injection ([addRow]), gravity ([applyGravity]),
    the selection/sum effect, the timer of the time mode and game over.

    Conventions of the embedding.
    - JavaScript numbers that the program only uses as small integers
      ([value], [score], [target], [timeLeft]) are [Z]; array indices and
      the [row]/[col] fields are [nat].
    - [grid] is a list of rows, each a list of cells; a cell is
      [option BlockData] ([None] is the source's [null]).
    - An array access outside the arrays (where JavaScript raises a
      [TypeError] or yields [undefined], which is no [BlockData | null]) makes
      the operation return [None]; so does a loop that exhausts its budget.
      The totality lemmas show that neither happens on a 10 x 6 grid.
    - [Math.random()] is an input of the program: the n-th call returns
      [random n], a multiple of 2^-53 in [0,1) kept as its numerator.  A
      product of it is a double: the exact product rounded to 53 significant
      bits ([roundDouble]); the product by 16, a power of two, needs no
      rounding.  The number of calls made so far is threaded through the
      operations ([drawn]).
    - React state is a record; every [setX] is a field update, the updates
      of one handler are applied in order, and an updater function runs
      once.  Of the rendering only the colour of a block is modelled;
      animation and confetti are left out.
    - The [highScore] state and its [localStorage] item are kept apart from
      the game state, in the record [HighScore]: the game never reads
      them.  [parseInt] and [toString] are modelled on strings of code
      units below 256 and on integers below 2^53 in absolute value, which
      JavaScript reads and writes exactly, digit by digit. *)

From Stdlib Require Import ZArith Lia String Ascii.
From stdpp Require Import base decidable option list numbers strings gmap.

Local Open Scope Z_scope.

(** ** types.ts *)

Inductive GameMode := CLASSIC | TIME.

#[global] Instance GameMode_eq_dec : EqDecision GameMode.
Proof. solve_decision. Defined.

Record BlockData := mkBlock {
  id : string;
  value : Z;
  row : nat;
  col : nat;
  isSelected : bool
}.

Abbreviation cell := (option BlockData) (only parsing).
Abbreviation Grid := (list (list (option BlockData))) (only parsing).

(** ** constants.ts *)

Definition GRID_ROWS : nat := 10.
Definition GRID_COLS : nat := 6.
Definition INITIAL_ROWS : nat := 4.
Definition TIME_LIMIT : Z := 10.
Definition TARGET_MIN : Z := 10.
Definition TARGET_MAX : Z := 25.

(** ** Utilities: the random source *)

Definition RANDOM_SCALE : Z := 2 ^ 53.

(** The n-th result of [Math.random()] as a numerator over 2^53, taken from
    the environment's sequence [entropy]; any integer is normalised into
    the range. *)
Definition random (entropy : nat → Z) (n : nat) : Z :=
  entropy n `mod` RANDOM_SCALE.

(** Digit characters of [Number.prototype.toString(36)]. *)
Definition digit36 (d : Z) : ascii :=
  ascii_of_nat (Z.to_nat (if d <? 10 then 48 + d else 87 + d)).

(** Base-36 digits of the fraction [u / 2^53], until it is exhausted. *)
Fixpoint fractionDigits (n : nat) (u : Z) : string :=
  match n with
  | O => EmptyString
  | S n' =>
      if u =? 0 then EmptyString
      else String (digit36 ((u * 36) `div` RANDOM_SCALE))
                  (fractionDigits n' ((u * 36) `mod` RANDOM_SCALE))
  end.

(** [u.toString(36)] for [0 <= u < 1]: the exact expansion, which ends
    within 27 digits (36^27 is a multiple of 2^53).  The language leaves
    the digits of a longer expansion to the engine, which may stop at the
    first digits that identify the number; an expansion of at most seven
    digits ([u] a multiple of 2^39, as 0.5 and the numbers of the sample
    source) is the shortest that identifies it, and is what is printed.
    The ids of other numbers are used for their identity only. *)
Definition toString36 (u : Z) : string :=
  if u =? 0 then "0"%string else ("0." ++ fractionDigits 27 u)%string.

(** [Math.random().toString(36).substring(2, 9)] *)
Definition generateId (u : Z) : string := substring 2 7 (toString36 u).

(** The double nearest to [p / 2^53] for an integer [p >= 0], as a
    numerator over 2^53: what a floating-point operation returns whose exact
    result is [p / 2^53].  The 53 leading bits of [p] are kept and the rest
    is rounded to nearest, ties to even. *)
Definition roundDouble (p : Z) : Z :=
  let e := Z.log2 p - 52 in
  if e <=? 0 then p
  else
    let q := p `div` 2 ^ e in
    let r := p `mod` 2 ^ e in
    if (2 ^ (e - 1) <? r) || ((r =? 2 ^ (e - 1)) && Z.odd q)
    then (q + 1) * 2 ^ e
    else q * 2 ^ e.

(** [Math.floor(Math.random() * 9) + 1]; the product is a double. *)
Definition getRandomValue (u : Z) : Z :=
  roundDouble (u * 9) `div` RANDOM_SCALE + 1.

(** [Math.floor(Math.random() * (TARGET_MAX - TARGET_MIN + 1)) + TARGET_MIN];
    the factor is 16, and a product by a power of two is exact. *)
Definition getRandomTarget (u : Z) : Z :=
  (u * (TARGET_MAX - TARGET_MIN + 1)) `div` RANDOM_SCALE + TARGET_MIN.

(** ** Arrays and loops *)

(** [g[r][c]] *)
Definition readCell (g : Grid) (r c : nat) : option cell :=
  g !! r ≫= λ line, line !! c.

(** [g[r][c] = v] *)
Definition writeCell (g : Grid) (r c : nat) (v : cell) : option Grid :=
  readCell g r c ≫= λ _, Some (alter (λ line, <[c := v]> line) r g).

(** [{ ...b, row: r }] *)
Definition withRow (b : BlockData) (r : nat) : BlockData :=
  {| id := id b; value := value b; row := r; col := col b;
     isSelected := isSelected b |}.

(** [for (const i of indices) body], the loop state passed explicitly. *)
Fixpoint forEach {S : Type} (indices : list nat) (body : nat → S → option S)
    (s : S) : option S :=
  match indices with
  | [] => Some s
  | i :: rest => body i s ≫= forEach rest body
  end.

(** A block made by the two draws [generateId()], [getRandomValue()]. *)
Definition freshBlock (entropy : nat → Z) (drawn r c : nat) : BlockData :=
  {| id := generateId (random entropy drawn);
     value := getRandomValue (random entropy (S drawn));
     row := r; col := c; isSelected := false |}.

(** ** applyGravity *)

(** One iteration of the inner loop of [applyGravity] for column [c] at loop
    variable [r]: the grid, the loop variable after the iteration's [r--],
    and [changed].  After a move the source sets [r = GRID_ROWS], which the
    [r--] turns into [GRID_ROWS - 1]. *)
Definition gravityStep (c r : nat) (newGrid : Grid) (changed : bool)
    : option (Grid * nat * bool) :=
  readCell newGrid r c ≫= λ below,
  match below with
  | Some _ => Some (newGrid, (r - 1)%nat, changed)
  | None =>
      readCell newGrid (r - 1) c ≫= λ above,
      match above with
      | None => Some (newGrid, (r - 1)%nat, changed)
      | Some b =>
          writeCell newGrid r c (Some (withRow b r)) ≫= λ g1,
          writeCell g1 (r - 1) c None ≫= λ g2,
          Some (g2, (GRID_ROWS - 1)%nat, true)
      end
  end.

(** The inner loop [for (...; r > 0; r--)], entered with loop variable
    [r]. *)
Fixpoint settleColumn (fuel : nat) (newGrid : Grid) (c r : nat)
    (changed : bool) : option (Grid * bool) :=
  match fuel with
  | O => None
  | S fuel' =>
      match r with
      | O => Some (newGrid, changed)
      | S _ =>
          gravityStep c r newGrid changed ≫= λ st : Grid * nat * bool,
          settleColumn fuel' (st.1).1 c (st.1).2 st.2
      end
  end.

(** Iterations granted to one column; [settleColumn_total] shows that a
    column of a 10 x 6 grid needs fewer. *)
Definition GRAVITY_FUEL : nat := 1000.

(** The body of the loop over the columns; the loop state is
    [(newGrid, changed)]. *)
Definition gravityColumn (c : nat) (st : Grid * bool) : option (Grid * bool) :=
  settleColumn GRAVITY_FUEL st.1 c (GRID_ROWS - 1) st.2.

Definition applyGravity (currentGrid : Grid) : option (Grid * bool) :=
  forEach (seq 0 GRID_COLS) gravityColumn (currentGrid, false).

(** ** initGame and addRow: the grid part *)

(** [Array.from({length: GRID_ROWS}, () => Array.from({length: GRID_COLS}, () => null))] *)
Definition emptyGrid : Grid := replicate GRID_ROWS (replicate GRID_COLS None).

(** [newGrid[r][c] = { id: generateId(), value: getRandomValue(), row: r, col: c, isSelected: false }];
    the loop state is the grid and the number of draws made. *)
Definition fillCell (entropy : nat → Z) (r c : nat) (st : Grid * nat)
    : option (Grid * nat) :=
  writeCell st.1 r c (Some (freshBlock entropy st.2 r c)) ≫= λ g',
  Some (g', (st.2 + 2)%nat).

(** [for (let c = 0; c < GRID_COLS; c++)] over [fillCell]. *)
Definition fillRow (entropy : nat → Z) (r : nat) (st : Grid * nat)
    : option (Grid * nat) :=
  forEach (seq 0 GRID_COLS) (fillCell entropy r) st.

(** The rows [GRID_ROWS - 1] down to [GRID_ROWS - INITIAL_ROWS]. *)
Definition initialRows : list nat :=
  rev (seq (GRID_ROWS - INITIAL_ROWS) INITIAL_ROWS).

(** The grid built by [initGame]. *)
Definition initGrid (entropy : nat → Z) (drawn : nat) : option (Grid * nat) :=
  forEach initialRows (fillRow entropy) (emptyGrid, drawn).

(** [prevGrid[0].some(cell => cell !== null)] *)
Definition topRowOccupied (prevGrid : Grid) : option bool :=
  prevGrid !! 0%nat ≫= λ top,
  Some (existsb (λ v : cell, bool_decide (v ≠ None)) top).

(** [newGrid[r][c] = newGrid[r + 1][c]; if (newGrid[r][c]) newGrid[r][c] = { ...newGrid[r][c], row: r }] *)
Definition shiftCell (r c : nat) (g : Grid) : option Grid :=
  readCell g (r + 1) c ≫= λ v,
  writeCell g r c v ≫= λ g1,
  match v with
  | Some b => writeCell g1 r c (Some (withRow b r))
  | None => Some g1
  end.

Definition shiftRow (r : nat) (g : Grid) : option Grid :=
  forEach (seq 0 GRID_COLS) (shiftCell r) g.

(** The "shift everything up" loops of [addRow]. *)
Definition shiftUp (g : Grid) : option Grid :=
  forEach (seq 0 (GRID_ROWS - 1)) shiftRow g.

(** The updater that [addRow] passes to [setGrid]: the next grid, whether
    [setIsGameOver(true)] was called, and the number of draws made. *)
Definition addRowUpdater (entropy : nat → Z) (drawn : nat) (prevGrid : Grid)
    : option (Grid * bool * nat) :=
  topRowOccupied prevGrid ≫= λ full,
  if full : bool then Some (prevGrid, true, drawn)
  else
    shiftUp prevGrid ≫= λ g1,
    fillRow entropy (GRID_ROWS - 1) (g1, drawn) ≫= λ st : Grid * nat,
    Some (st.1, false, st.2).

(** [block && selectedIds.includes(block.id) ? null : block] *)
Definition removeCell (selectedIds : list string) (block : cell) : cell :=
  match block with
  | Some b => if bool_decide (id b ∈ selectedIds) then None else Some b
  | None => None
  end.

(** Removal of the matched blocks: [prevGrid.map(row => row.map(...))]. *)
Definition removeSelected (selectedIds : list string) (g : Grid) : Grid :=
  map (map (removeCell selectedIds)) g.

(** ** The component state *)

(** [timeouts] holds the delays of the pending [setTimeout] callbacks of the
    overshoot branch, [drawn] counts the calls of [Math.random()], and
    [addRowCalls] is a ghost counter of the calls of [addRow]. *)
Record State := mkState {
  mode : option GameMode;
  grid : Grid;
  score : Z;
  target : Z;
  selectedIds : list string;
  isGameOver : bool;
  timeLeft : Z;
  isPaused : bool;
  isShaking : bool;
  currentSum : Z;
  timeouts : list Z;
  drawn : nat;
  addRowCalls : nat
}.

Definition setMode (v : option GameMode) (s : State) : State :=
  mkState v (grid s) (score s) (target s) (selectedIds s) (isGameOver s)
    (timeLeft s) (isPaused s) (isShaking s) (currentSum s) (timeouts s)
    (drawn s) (addRowCalls s).

Definition setGrid (v : Grid) (s : State) : State :=
  mkState (mode s) v (score s) (target s) (selectedIds s) (isGameOver s)
    (timeLeft s) (isPaused s) (isShaking s) (currentSum s) (timeouts s)
    (drawn s) (addRowCalls s).

Definition setScore (v : Z) (s : State) : State :=
  mkState (mode s) (grid s) v (target s) (selectedIds s) (isGameOver s)
    (timeLeft s) (isPaused s) (isShaking s) (currentSum s) (timeouts s)
    (drawn s) (addRowCalls s).

Definition setTarget (v : Z) (s : State) : State :=
  mkState (mode s) (grid s) (score s) v (selectedIds s) (isGameOver s)
    (timeLeft s) (isPaused s) (isShaking s) (currentSum s) (timeouts s)
    (drawn s) (addRowCalls s).

Definition setSelectedIds (v : list string) (s : State) : State :=
  mkState (mode s) (grid s) (score s) (target s) v (isGameOver s)
    (timeLeft s) (isPaused s) (isShaking s) (currentSum s) (timeouts s)
    (drawn s) (addRowCalls s).

Definition setIsGameOver (v : bool) (s : State) : State :=
  mkState (mode s) (grid s) (score s) (target s) (selectedIds s) v
    (timeLeft s) (isPaused s) (isShaking s) (currentSum s) (timeouts s)
    (drawn s) (addRowCalls s).

Definition setTimeLeft (v : Z) (s : State) : State :=
  mkState (mode s) (grid s) (score s) (target s) (selectedIds s) (isGameOver s)
    v (isPaused s) (isShaking s) (currentSum s) (timeouts s)
    (drawn s) (addRowCalls s).

Definition setIsPaused (v : bool) (s : State) : State :=
  mkState (mode s) (grid s) (score s) (target s) (selectedIds s) (isGameOver s)
    (timeLeft s) v (isShaking s) (currentSum s) (timeouts s)
    (drawn s) (addRowCalls s).

Definition setIsShaking (v : bool) (s : State) : State :=
  mkState (mode s) (grid s) (score s) (target s) (selectedIds s) (isGameOver s)
    (timeLeft s) (isPaused s) v (currentSum s) (timeouts s)
    (drawn s) (addRowCalls s).

Definition setCurrentSum (v : Z) (s : State) : State :=
  mkState (mode s) (grid s) (score s) (target s) (selectedIds s) (isGameOver s)
    (timeLeft s) (isPaused s) (isShaking s) v (timeouts s)
    (drawn s) (addRowCalls s).

Definition setTimeouts (v : list Z) (s : State) : State :=
  mkState (mode s) (grid s) (score s) (target s) (selectedIds s) (isGameOver s)
    (timeLeft s) (isPaused s) (isShaking s) (currentSum s) v
    (drawn s) (addRowCalls s).

Definition setDrawn (v : nat) (s : State) : State :=
  mkState (mode s) (grid s) (score s) (target s) (selectedIds s) (isGameOver s)
    (timeLeft s) (isPaused s) (isShaking s) (currentSum s) (timeouts s)
    v (addRowCalls s).

Definition setAddRowCalls (v : nat) (s : State) : State :=
  mkState (mode s) (grid s) (score s) (target s) (selectedIds s) (isGameOver s)
    (timeLeft s) (isPaused s) (isShaking s) (currentSum s) (timeouts s)
    (drawn s) v.

(** The [useState] initial values; [App] shows the menu ([mode] is null). *)
Definition initialState : State :=
  {| mode := None; grid := []; score := 0; target := 0; selectedIds := [];
     isGameOver := false; timeLeft := TIME_LIMIT; isPaused := false;
     isShaking := false; currentSum := 0; timeouts := []; drawn := 0;
     addRowCalls := 0 |}.

(** ** initGame *)

Definition initGame (entropy : nat → Z) (selectedMode : GameMode) (s : State)
    : option State :=
  initGrid entropy (drawn s) ≫= λ st : Grid * nat,
  Some (setIsPaused false
       (setTimeLeft TIME_LIMIT
       (setMode (Some selectedMode)
       (setIsGameOver false
       (setSelectedIds []
       (setDrawn (S st.2) (setTarget (getRandomTarget (random entropy st.2))
       (setScore 0
       (setGrid st.1 s))))))))).

(** ** addRow *)

(** [addRow], with the [mode] of the render that created the callback. *)
Definition addRow (entropy : nat → Z) (s : State) : option State :=
  addRowUpdater entropy (drawn s) (grid s) ≫= λ res : Grid * bool * nat,
  let s1 := setAddRowCalls (S (addRowCalls s))
              (setDrawn res.2 (setGrid (res.1).1 s)) in
  let s2 := if (res.1).2 then setIsGameOver true s1 else s1 in
  Some (if bool_decide (mode s = Some TIME) then setTimeLeft TIME_LIMIT s2
        else s2).

(** ** handleBlockClick *)

(** The updater of [setSelectedIds]. *)
Definition toggleId (i : string) (prev : list string) : list string :=
  if bool_decide (i ∈ prev) then filter (λ j, j ≠ i) prev else prev ++ [i].

Definition handleBlockClick (i : string) (s : State) : State :=
  if isGameOver s || isPaused s then s
  else setSelectedIds (toggleId i (selectedIds s)) s.

(** ** The sum effect *)

(** [if (block && selectedIds.includes(block.id)) selectedBlocks.push(block)] *)
Definition pickSelected (selectedIds : list string) (block : cell)
    : option BlockData :=
  block ≫= λ b, if bool_decide (id b ∈ selectedIds) then Some b else None.

(** The blocks collected by [grid.forEach(row => row.forEach(...))]. *)
Definition selectedBlocks (g : Grid) (selectedIds : list string)
    : list BlockData :=
  omap (pickSelected selectedIds) (concat g).

(** [selectedBlocks.reduce((acc, b) => acc + b.value, 0)] *)
Definition sumValues (blocks : list BlockData) : Z :=
  foldl (λ acc b, acc + value b) 0 blocks.

Definition selectedSum (s : State) : Z :=
  sumValues (selectedBlocks (grid s) (selectedIds s)).

(** The first two updates of the success branch:
    [setScore(prev => prev + selectedBlocks.length * 10)] and
    [setTarget(getRandomTarget())]. *)
Definition rewarded (entropy : nat → Z) (s : State) : State :=
  let n := length (selectedBlocks (grid s) (selectedIds s)) in
  setDrawn (S (drawn s))
    (setTarget (getRandomTarget (random entropy (drawn s)))
       (setScore (score s + Z.of_nat n * 10) s)).

(** The success branch: score and target, removal and gravity, cleared
    selection, and [addRow] in the classic mode. *)
Definition matchBranch (entropy : nat → Z) (s : State) : option State :=
  applyGravity (removeSelected (selectedIds s) (grid s)) ≫=
  λ res : Grid * bool,
  let s3 := setSelectedIds [] (setGrid res.1 (rewarded entropy s)) in
  if bool_decide (mode s = Some CLASSIC) then addRow entropy s3 else Some s3.

(** The over-the-limit branch: [setIsShaking(true)] and a [setTimeout] of
    400 ms. *)
Definition overshootBranch (s : State) : State :=
  setTimeouts (timeouts s ++ [400]) (setIsShaking true s).

(** One run of the effect; the flag tells whether it set one of its
    dependencies ([selectedIds], [target], [grid]), so that React runs it
    again after the next render. *)
Definition sumEffect (entropy : nat → Z) (s : State) : option (State * bool) :=
  let sum := selectedSum s in
  let s0 := setCurrentSum sum s in
  if sum =? 0 then Some (s0, false)
  else if sum =? target s then
    matchBranch entropy s0 ≫= λ s', Some (s', true)
  else if target s <? sum then Some (overshootBranch s0, false)
  else Some (s0, false).

(** The effect after a render in which a dependency changed, and once more
    if it changed one itself. *)
Definition runEffects (entropy : nat → Z) (s : State) : option State :=
  sumEffect entropy s ≫= λ r : State * bool,
  if r.2 then sumEffect entropy r.1 ≫= λ r' : State * bool, Some r'.1
  else Some r.1.

(** ** The timer of the time mode *)

(** The interval exists while [mode === GameMode.TIME && !isGameOver && !isPaused]. *)
Definition timerArmed (s : State) : bool :=
  bool_decide (mode s = Some TIME) && negb (isGameOver s) && negb (isPaused s).

(** The interval callback.  [addRow]'s updater returns [prevGrid] itself
    exactly when it calls [setIsGameOver(true)]; then no dependency of the
    sum effect changed. *)
Definition tick (entropy : nat → Z) (s : State) : option State :=
  if timeLeft s <=? 1 then
    addRow entropy s ≫= λ s1,
    let s2 := setTimeLeft TIME_LIMIT s1 in
    if isGameOver s1 then Some s2 else runEffects entropy s2
  else Some (setTimeLeft (timeLeft s - 1) s).

(** The callback of the overshoot branch's [setTimeout]. *)
Definition shakeTimeout (s : State) : State :=
  setSelectedIds [] (setIsShaking false s).

(** ** Events *)

(** [StartGame] is [initGame] (menu buttons, Retry, Reset), [Menu] is
    [setMode(null)], [BlockClick] is [handleBlockClick], [PauseToggle] is
    [setIsPaused(!isPaused)], [Resume] is [setIsPaused(false)], [Tick] is the
    interval firing and [ShakeTimeout] the oldest pending timeout firing. *)
Inductive Event :=
  | StartGame (selectedMode : GameMode)
  | Menu
  | BlockClick (i : string)
  | PauseToggle
  | Resume
  | Tick
  | ShakeTimeout.

Definition step (entropy : nat → Z) (s : State) (e : Event) : option State :=
  match e with
  | StartGame selectedMode =>
      initGame entropy selectedMode s ≫= runEffects entropy
  | Menu =>
      match mode s with
      | None => Some s
      | Some _ => runEffects entropy (setMode None s)
      end
  | BlockClick i =>
      if isGameOver s || isPaused s then Some s
      else runEffects entropy (handleBlockClick i s)
  | PauseToggle => Some (setIsPaused (negb (isPaused s)) s)
  | Resume => Some (setIsPaused false s)
  | Tick => if timerArmed s then tick entropy s else Some s
  | ShakeTimeout =>
      match timeouts s with
      | [] => Some s
      | _ :: rest => runEffects entropy (shakeTimeout (setTimeouts rest s))
      end
  end.

Fixpoint run (entropy : nat → Z) (s : State) (events : list Event)
    : option State :=
  match events with
  | [] => Some s
  | e :: rest => step entropy s e ≫= λ s', run entropy s' rest
  end.

(** ** Rendering: the colour of a block *)

(** [VALUE_COLORS] of constants.ts. *)
Definition VALUE_COLORS : gmap Z string :=
  list_to_map
    [(1, "#FFADAD"); (2, "#FFD6A5"); (3, "#FDFFB6"); (4, "#CAFFBF");
     (5, "#9BF6FF"); (6, "#A0C4FF"); (7, "#BDB2FF"); (8, "#FFC6FF");
     (9, "#FFFFFC")]%string.

(** [selectedIds.includes(block.id) ? '#FF3366' : VALUE_COLORS[block.value] || '#FFFFFF'];
    a missing entry is [undefined], and no entry is the empty string. *)
Definition backgroundColor (selectedIds : list string) (block : BlockData)
    : string :=
  if bool_decide (id block ∈ selectedIds) then "#FF3366"%string
  else default "#FFFFFF"%string (VALUE_COLORS !! value block).

(** ** The high score and its storage *)

(** The white space that [parseInt] skips, among the code units below 256:
    tab, line feed, vertical tab, form feed, carriage return, space and
    no-break space. *)
Definition isWhiteSpace (a : ascii) : bool :=
  let n := nat_of_ascii a in
  ((9 <=? n) && (n <=? 13) || (n =? 32) || (n =? 160))%nat.

Fixpoint trimStart (s : string) : string :=
  match s with
  | String a rest => if isWhiteSpace a then trimStart rest else s
  | EmptyString => s
  end.

Definition digitValue (a : ascii) : option Z :=
  let n := Z.of_nat (nat_of_ascii a) in
  if (48 <=? n) && (n <=? 57) then Some (n - 48) else None.

(** The number written by the longest prefix of decimal digits; [acc] is
    the number read so far, [None] before the first digit. *)
Fixpoint parseDigits (s : string) (acc : option Z) : option Z :=
  match s with
  | String a rest =>
      match digitValue a with
      | Some d => parseDigits rest (Some (10 * default 0 acc + d))
      | None => acc
      end
  | EmptyString => acc
  end.

(** [parseInt(s, 10)] on a string of code units below 256: leading white
    space, a sign, then the longest prefix of digits; [None] is [NaN].  The
    number read is JavaScript's when it is below 2^53 in absolute value;
    JavaScript rounds a larger one to a double, which is outside the
    model. *)
Definition parseInt (s : string) : option Z :=
  match trimStart s with
  | String "-" rest => Z.opp <$> parseDigits rest None
  | String "+" rest => parseDigits rest None
  | rest => parseDigits rest None
  end.

Definition digitChar (d : Z) : ascii := ascii_of_nat (Z.to_nat (48 + d)).

(** The decimal digits of [n >= 0], at most [fuel] of them. *)
Fixpoint decimalDigits (fuel : nat) (n : Z) : string :=
  match fuel with
  | O => EmptyString
  | S fuel' =>
      if n <? 10 then String (digitChar n) EmptyString
      else (decimalDigits fuel' (n `div` 10)
            +:+ String (digitChar (n `mod` 10)) EmptyString)
  end.

(** [n.toString()] for an integer [n] below 2^53 in absolute value: all
    its decimal digits.  JavaScript prints a larger number with the fewest
    digits that identify the double, which is outside the model. *)
Definition numberToString (n : Z) : string :=
  if n <? 0 then String "-" (decimalDigits 21 (- n)) else decimalDigits 21 n.

(** The [highScore] state ([None] is [NaN]) and the item
    ['sumstack-highscore'] of [localStorage] ([None] is [null]);
    [localStorage] is taken to be available. *)
Record HighScore := mkHighScore {
  highScore : option Z;
  saved : option string
}.

(** The effect of the first render:
    [const saved = localStorage.getItem(...); if (saved) setHighScore(parseInt(saved, 10))];
    the empty string is falsy. *)
Definition loadHighScore (p : HighScore) : HighScore :=
  match saved p with
  | Some s =>
      if bool_decide (s = EmptyString) then p
      else mkHighScore (parseInt s) (saved p)
  | None => p
  end.

(** [score > highScore]; a comparison with [NaN] is false. *)
Definition exceeds (score : Z) (best : option Z) : bool :=
  match best with
  | Some h => h <? score
  | None => false
  end.

(** The effect on [score] and [highScore]:
    [if (score > highScore) { setHighScore(score); localStorage.setItem(..., score.toString()) }] *)
Definition saveHighScore (score : Z) (p : HighScore) : HighScore :=
  if exceeds score (highScore p)
  then mkHighScore (Some score) (Some (numberToString score))
  else p.

(** Mounting the component on a [localStorage] that holds [stored]:
    [highScore] starts at 0, the first effect loads, and the second runs
    with the score of the initial state, 0. *)
Definition mountHighScore (stored : option string) : HighScore :=
  saveHighScore 0 (loadHighScore (mkHighScore (Some 0) stored)).

(** The second effect, run for each score of a sequence of renders in
    turn. *)
Definition trackHighScore (p : HighScore) (scores : list Z) : HighScore :=
  foldl (λ q score, saveHighScore score q) p scores.

(** The game and the high score together: after the renders of each event
    the second effect runs with the score that the event led to. *)
Fixpoint runTracked (entropy : nat → Z) (s : State) (p : HighScore)
    (events : list Event) : option (State * HighScore) :=
  match events with
  | [] => Some (s, p)
  | e :: rest =>
      step entropy s e ≫= λ s',
      runTracked entropy s' (saveHighScore (score s') p) rest
  end.

(** ** Properties of grids *)

(** The shape every grid of a started game has. *)
Definition shape (g : Grid) : Prop :=
  length g = GRID_ROWS ∧ Forall (λ line, length line = GRID_COLS) g.

(** Every block's [row] and [col] fields are its cell's position. *)
Definition positionsOK (g : Grid) : Prop :=
  ∀ r c b, readCell g r c = Some (Some b) → row b = r ∧ col b = c.

(** No two occupied cells hold blocks with the same id. *)
Definition uniqueIds (g : Grid) : Prop :=
  ∀ r c b r' c' b',
    readCell g r c = Some (Some b) → readCell g r' c' = Some (Some b') →
    id b = id b' → r = r' ∧ c = c'.

(** The ids of the blocks of the grid, row by row. *)
Definition gridIds (g : Grid) : list string :=
  omap (λ v : cell, id <$> v) (concat g).

(** The move of [applyGravity]'s loop body: the block at [(r, c)] goes to the
    empty cell [(S r, c)] beneath it. *)
Definition dropOne (g : Grid) (c r : nat) (b : BlockData) (g2 : Grid) : Prop :=
  readCell g (S r) c = Some None ∧
  readCell g r c = Some (Some b) ∧
  ∃ g1, writeCell g (S r) c (Some (withRow b (S r))) = Some g1 ∧
        writeCell g1 r c None = Some g2.

(** A block at [(r, c)] with an empty cell directly beneath it. *)
Definition unsupported (g : Grid) (c r : nat) : Prop :=
  readCell g (S r) c = Some None ∧ ∃ b, readCell g r c = Some (Some b).

(** Column [c] has no unsupported block at row [r] or below it. *)
Definition settledFrom (g : Grid) (c r : nat) : Prop :=
  ∀ r', (r ≤ r')%nat → (S r' < GRID_ROWS)%nat → ¬ unsupported g c r'.

(** No block has an empty cell directly beneath it. *)
Definition settled (g : Grid) : Prop :=
  ∀ r c b, readCell g r c = Some (Some b) → readCell g (S r) c ≠ Some None.

(** Height left to fall: an occupied cell of row [r] weighs
    [GRID_ROWS - r]; every move lowers the column's weight by one. *)
Definition cellWeight (g : Grid) (c r : nat) : nat :=
  match readCell g r c with
  | Some (Some _) => GRID_ROWS - r
  | _ => 0
  end.

Definition columnWeight (g : Grid) (c : nat) : nat :=
  sum_list_with (cellWeight g c) (seq 0 GRID_ROWS).

(** Two blocks that differ at most in their [row] field. *)
Definition sameBlock (b b' : BlockData) : Prop := withRow b 0 = withRow b' 0.

(** Column [c] of [g] holds the block [b] at some row. *)
Definition holds (g : Grid) (c : nat) (b : BlockData) : Prop :=
  ∃ r b', readCell g r c = Some (Some b') ∧ sameBlock b b'.

(** A cell moved to row [r]. *)
Definition moveUp (r : nat) (v : cell) : cell := (λ b, withRow b r) <$> v.

(** The block generated for column [c] of a row whose first draw is [d]. *)
Definition generatedBlock (entropy : nat → Z) (d r c : nat) : BlockData :=
  freshBlock entropy (d + 2 * c) r c.

(** Whether a cell read holds a block. *)
Definition occupied (v : option cell) : nat :=
  match v with Some (Some _) => 1 | _ => 0 end.

(** The number of blocks in column [c]. *)
Definition blockCount (g : Grid) (c : nat) : nat :=
  sum_list_with (λ r, occupied (readCell g r c)) (seq 0 GRID_ROWS).

(** The ids produced by [n] consecutive block generations from draw [d]. *)
Definition generatedIds (entropy : nat → Z) (d n : nat) : list string :=
  map (λ k, generateId (random entropy (d + 2 * k))) (seq 0 n).

(** The generated ids are new: pairwise different and not in [known]. *)
Definition freshIds (entropy : nat → Z) (d n : nat) (known : list string)
    : Prop :=
  NoDup (generatedIds entropy d n) ∧
  ∀ i, i ∈ generatedIds entropy d n → i ∉ known.

(** No condition on the generated ids. *)
Definition anyIds (entropy : nat → Z) (d n : nat) (known : list string)
    : Prop := True.

(** The grids that the four grid operations produce, starting from
    [initGame]'s grid; [ok entropy d n known] is a condition on the [n] ids
    generated from draw [d] on, given the ids [known] already in the grid
    (an [addRow] that overflows generates none). *)
Inductive reachableGrid
    (ok : (nat → Z) → nat → nat → list string → Prop) : Grid → Prop :=
  | reach_init entropy d g d' :
      initGrid entropy d = Some (g, d') →
      ok entropy d (GRID_COLS * INITIAL_ROWS)%nat [] →
      reachableGrid ok g
  | reach_addRow entropy d g g' over d' :
      reachableGrid ok g →
      addRowUpdater entropy d g = Some (g', over, d') →
      ok entropy d (if over : bool then 0 else GRID_COLS)%nat (gridIds g) →
      reachableGrid ok g'
  | reach_remove sel g :
      reachableGrid ok g → reachableGrid ok (removeSelected sel g)
  | reach_gravity g g' changed :
      reachableGrid ok g →
      applyGravity g = Some (g', changed) →
      reachableGrid ok g'.

(** ** Properties of states *)

(** The grid is the empty array of the initial render or a 10 x 6 grid, and
    it is 10 x 6 once a mode was chosen. *)
Definition wellFormed (s : State) : Prop :=
  (grid s = [] ∨ shape (grid s)) ∧ (mode s ≠ None → shape (grid s)).

(** The states of the component: those that events lead to. *)
Definition reachable (entropy : nat → Z) (s : State) : Prop :=
  ∃ events, run entropy initialState events = Some s.

(** Everything but the selection. *)
Definition sameButSelection (s s' : State) : Prop :=
  setSelectedIds [] s = setSelectedIds [] s'.

(** What the sum effect leaves alone, and what it changes in one way
    only. *)
Definition effectFrame (s s' : State) : Prop :=
  timeLeft s' = timeLeft s ∧ mode s' = mode s ∧ isPaused s' = isPaused s ∧
  (isGameOver s = true → isGameOver s' = true) ∧
  (target s' = target s ∨ TARGET_MIN ≤ target s' ≤ TARGET_MAX) ∧
  (∃ n : nat, score s' = score s + Z.of_nat n * 10) ∧
  (mode s ≠ Some CLASSIC → addRowCalls s' = addRowCalls s).

(** A result of the sum effect with its selection forgotten. *)
Definition eraseSelection (r : State * bool) : State * bool :=
  (setSelectedIds [] r.1, r.2).

(** ** Further properties *)

(** Every character of the string satisfies [p]. *)
Fixpoint allChars (p : ascii → bool) (s : string) : bool :=
  match s with
  | EmptyString => true
  | String a rest => p a && allChars p rest
  end.

Definition isDigit (a : ascii) : bool := bool_decide (is_Some (digitValue a)).

(** Every block carries a value that [getRandomValue] can draw and is not
    marked as selected. *)
Definition blocksOK (g : Grid) : Prop :=
  ∀ r c b, readCell g r c = Some (Some b) →
           1 ≤ value b ≤ 9 ∧ isSelected b = false.

(** The block of cell [(r, c)], if the cell holds one. *)
Definition blockAt (g : Grid) (r c : nat) : option BlockData :=
  readCell g r c ≫= λ v : cell, v.

(** The blocks of column [c], from the top row to the bottom row. *)
Definition columnBlocks (g : Grid) (c : nat) : list BlockData :=
  omap (λ r, blockAt g r c) (seq 0 GRID_ROWS).

(** The cell of row [r] in a column that holds [blocks] stacked on the
    bottom row, in this order from the top, each with its [row] field set to
    its row. *)
Definition stackedCell (blocks : list BlockData) (r : nat) : cell :=
  if decide (GRID_ROWS - length blocks ≤ r)%nat
  then (λ b, withRow b r) <$> blocks !! (r - (GRID_ROWS - length blocks))%nat
  else None.

(** A running, unpaused game of the time mode with nothing selected and a
    full countdown ahead. *)
Definition idleTimed (s : State) : Prop :=
  mode s = Some TIME ∧ isGameOver s = false ∧ isPaused s = false ∧
  timeLeft s = TIME_LIMIT ∧ selectedIds s = [] ∧ shape (grid s).

(** ** Sample inputs *)

(** A random source whose results are all different:
    1/128, 2/128, 3/128, ... *)
Definition sampleEntropy (n : nat) : Z := (Z.of_nat n + 1) * 2 ^ 46.

(** A random source that returns 0.5 at every call. *)
Definition collidingEntropy (n : nat) : Z := 2 ^ 52.

(** The grid of [initGame] under a random source, [[]] if it faulted. *)
Definition initialGridOf (entropy : nat → Z) : Grid :=
  match initGrid entropy 0 with
  | Some st => st.1
  | None => []
  end.

Definition sampleGrid : Grid := initialGridOf sampleEntropy.

Definition collidingGrid : Grid := initialGridOf collidingEntropy.

(** The state after [initGame(mode)] and its effects, [initialState] if it
    faulted. *)
Definition startedState (entropy : nat → Z) (m : GameMode) : State :=
  match step entropy initialState (StartGame m) with
  | Some s => s
  | None => initialState
  end.

(** The started sample game with blocks of values 4, 4, 4, 3 and 1
    selected: their sum is the target, 16. *)
Definition matchingState (m : GameMode) : State :=
  setSelectedIds ["c3di"; "cnmi"; "d7vi"; "aemi"; "0a4i"]%string
    (startedState sampleEntropy m).

(** The started sample game with blocks of values 4, 4, 4, 3 and 2
    selected: their sum, 17, exceeds the target. *)
Definition overshootState : State :=
  setSelectedIds ["c3di"; "cnmi"; "d7vi"; "aemi"; "714i"]%string
    (startedState sampleEntropy TIME).

(** A state whose game is over. *)
Definition finishedState : State :=
  setIsGameOver true (startedState sampleEntropy TIME).

(** The classic sample game with the matching selection and column 1
    stacked up to the top row by six more blocks. *)
Definition crowdedGrid : Grid :=
  foldr (λ (p : nat * string) (g : Grid),
           match writeCell g p.1 1 (Some (mkBlock p.2 1 p.1 1 false)) with
           | Some g' => g'
           | None => g
           end)
        (grid (matchingState CLASSIC))
        [(0, "t0"); (1, "t1"); (2, "t2"); (3, "t3"); (4, "t4"); (5, "t5")]%nat%string.

Definition crowdedState : State := setGrid crowdedGrid (matchingState CLASSIC).

(** The state that a sequence of events leads to from the initial one,
    [initialState] if it faulted. *)
Definition stateAfter (entropy : nat → Z) (events : list Event) : State :=
  match run entropy initialState events with
  | Some s => s
  | None => initialState
  end.

(** The sample game after clicks on the blocks of values 4 and 1. *)
Definition twoClicks : list Event :=
  [StartGame TIME; BlockClick "c3di"; BlockClick "0a4i"]%string.

(** The sample game after clicks on blocks of values 4, 4, 4 and 3, whose
    sum is 15, one below the target. *)
Definition fourClicks : list Event :=
  [StartGame TIME; BlockClick "c3di"; BlockClick "cnmi"; BlockClick "d7vi";
   BlockClick "aemi"]%string.

(** The sample game after clicks on blocks of values 4, 4, 4, 3 and 2: the
    last click takes the sum to 17, over the target 16. *)
Definition overshootClicks : list Event := fourClicks ++ [BlockClick "714i"].

(** The sample game after clicks on blocks of values 4, 4, 4, 3 and 1: the
    last click takes the sum to the target 16. *)
Definition matchClicks : list Event := fourClicks ++ [BlockClick "0a4i"].

(** The grid of the sample game without the blocks ["0a4i"] and ["0udi"] of
    its bottom row. *)
Definition gappedGrid : Grid :=
  removeSelected ["0a4i"; "0udi"]%string sampleGrid.

(** * Examples *)

(** [Math.random()] returning 0.5: [(0.5).toString(36)] is ["0.i"]. *)
Example generateId_half : generateId (2 ^ 52) = "i"%string.
Proof. reflexivity. Qed.

Example generateId_zero : generateId 0 = ""%string.
Proof. reflexivity. Qed.

Example getRandomValue_half : getRandomValue (2 ^ 52) = 5.
Proof. reflexivity. Qed.

(** A product that is no double: 9 * 8006399337547548 = 2^56 - 4 lies
    halfway between two doubles and is rounded to 2^56, that is to 8.0, so
    that the value is 9 where the exact product would give 8. *)
Example getRandomValue_rounded :
  roundDouble (8006399337547548 * 9) = 2 ^ 56 ∧
  (8006399337547548 * 9) `div` RANDOM_SCALE + 1 = 8 ∧
  getRandomValue 8006399337547548 = 9.
Proof. repeat split. Qed.

Example getRandomTarget_bounds :
  getRandomTarget 0 = 10 ∧ getRandomTarget (2 ^ 52) = 18 ∧
  getRandomTarget (2 ^ 53 - 1) = 25.
Proof. repeat split. Qed.

Example toggleId_twice :
  toggleId "a" ["b"]%string = ["b"; "a"]%string ∧
  toggleId "a" ["b"; "a"]%string = ["b"]%string.
Proof. split; reflexivity. Qed.

(** The sample game: its first target and the ids and values of its bottom
    row. *)
Example startedState_sample :
  target (startedState sampleEntropy TIME) = 16 ∧
  (λ v : cell, (λ b, (id b, value b)) <$> v) <$>
    grid (startedState sampleEntropy TIME) !!! 9%nat
  = [Some ("0a4i", 1); Some ("0udi", 1); Some ("1emi", 1);
     Some ("1yvi", 1); Some ("2j4i", 1); Some ("33di", 1)]%string.
Proof. split; vm_compute; reflexivity. Qed.

(** Gravity after the removal of the two leftmost bottom blocks: the blocks
    above drop by one row and take the new [row]. *)
Example applyGravity_sample :
  (λ r : Grid * bool, (readCell r.1 9 0, readCell r.1 6 0, readCell r.1 9 2, r.2))
    <$> applyGravity (removeSelected ["0a4i"; "0udi"]%string sampleGrid)
  = Some (Some (Some (mkBlock "3nmi" 1 9 0 false)), Some None,
          Some (Some (mkBlock "1emi" 1 9 2 false)), true).
Proof. vm_compute. reflexivity. Qed.

(** Five clicks whose values sum to 17, one more than the target. *)
Example overshoot_sample :
  (λ s, (selectedIds s, currentSum s, isShaking s, timeouts s)) <$>
    run sampleEntropy (startedState sampleEntropy TIME)
      (BlockClick "c3di" :: BlockClick "cnmi" :: BlockClick "d7vi" ::
       BlockClick "aemi" :: BlockClick "714i" :: [])
  = Some (["c3di"; "cnmi"; "d7vi"; "aemi"; "714i"]%string, 17, true, [400]).
Proof. vm_compute. reflexivity. Qed.
(** ** Properties of cells, rows and loops *)

Lemma readCell_Some (g : Grid) r c v :
  readCell g r c = Some v ↔ ∃ line, g !! r = Some line ∧ line !! c = Some v.
Proof.
  unfold readCell. destruct (g !! r) as [line|]; simpl; split.
  - eauto.
  - by intros (line' & [= <-] & ?).
  - done.
  - by intros (? & ? & ?).
Qed.

Lemma shape_lookup (g : Grid) r line :
  shape g → g !! r = Some line → length line = GRID_COLS.
Proof.
  intros [_ Hall] Hr. rewrite Forall_lookup in Hall. by eapply Hall.
Qed.

Lemma readCell_in_range (g : Grid) r c :
  shape g → (r < GRID_ROWS)%nat → (c < GRID_COLS)%nat →
  is_Some (readCell g r c).
Proof.
  intros Hs Hr Hc.
  destruct (lookup_lt_is_Some_2 g r) as [line Hline].
  { destruct Hs as [-> _]. done. }
  destruct (lookup_lt_is_Some_2 line c) as [v Hv].
  { by rewrite (shape_lookup g r line). }
  exists v. apply readCell_Some. eauto.
Qed.

Lemma readCell_range (g : Grid) r c v :
  shape g → readCell g r c = Some v →
  (r < GRID_ROWS)%nat ∧ (c < GRID_COLS)%nat.
Proof.
  intros Hs (line & Hr & Hc)%readCell_Some. split.
  - destruct Hs as [<- _]. by eapply lookup_lt_Some.
  - rewrite <- (shape_lookup g r line) by done. by eapply lookup_lt_Some.
Qed.

Lemma writeCell_is_Some (g : Grid) r c v :
  is_Some (readCell g r c) → is_Some (writeCell g r c v).
Proof. intros [w Hw]. unfold writeCell. rewrite Hw. simpl. eauto. Qed.

Lemma writeCell_read (g g' : Grid) r c v r' c' :
  writeCell g r c v = Some g' →
  readCell g' r' c' =
    if decide (r' = r ∧ c' = c) then Some v else readCell g r' c'.
Proof.
  unfold writeCell. destruct (readCell g r c) as [w|] eqn:Hw; [|done].
  simpl. intros [= <-].
  apply readCell_Some in Hw as (line & Hr & Hc).
  unfold readCell. destruct (decide (r' = r)) as [->|Hne].
  - rewrite list_lookup_alter_eq, Hr. simpl.
    destruct (decide (c' = c)) as [->|Hnc].
    + rewrite decide_True by done.
      apply list_lookup_insert_eq. by eapply lookup_lt_Some.
    + rewrite decide_False by lia.
      by rewrite list_lookup_insert_ne.
  - rewrite list_lookup_alter_ne by done.
    by rewrite decide_False by lia.
Qed.

Lemma writeCell_shape (g g' : Grid) r c v :
  writeCell g r c v = Some g' → shape g → shape g'.
Proof.
  unfold writeCell. destruct (readCell g r c) as [w|]; [|done].
  simpl. intros [= <-] [Hlen Hall]. split.
  - by rewrite length_alter.
  - rewrite Forall_lookup in Hall. apply Forall_lookup. intros i line.
    destruct (decide (i = r)) as [->|Hne].
    + rewrite list_lookup_alter_eq.
      destruct (g !! r) as [l0|] eqn:Hl0; [|done].
      simpl. intros [= <-]. rewrite length_insert. by eapply Hall.
    + rewrite list_lookup_alter_ne by done. apply Hall.
Qed.

Lemma grid_ext (g g' : Grid) :
  shape g → shape g' →
  (∀ r c, (r < GRID_ROWS)%nat → (c < GRID_COLS)%nat →
          readCell g r c = readCell g' r c) →
  g = g'.
Proof.
  intros Hs Hs' Heq. apply list_eq. intros r.
  destruct (decide (r < GRID_ROWS)%nat) as [Hr|Hr].
  - destruct (lookup_lt_is_Some_2 g r) as [l1 H1]; [by destruct Hs as [-> _]|].
    destruct (lookup_lt_is_Some_2 g' r) as [l2 H2]; [by destruct Hs' as [-> _]|].
    rewrite H1, H2. f_equal. apply list_eq. intros c.
    destruct (decide (c < GRID_COLS)%nat) as [Hc|Hc].
    + specialize (Heq r c Hr Hc). unfold readCell in Heq.
      by rewrite H1, H2 in Heq.
    + rewrite !lookup_ge_None_2; [done| |].
      * rewrite (shape_lookup g' r l2) by done. lia.
      * rewrite (shape_lookup g r l1) by done. lia.
  - rewrite !lookup_ge_None_2; [done| |].
    + destruct Hs' as [-> _]. lia.
    + destruct Hs as [-> _]. lia.
Qed.

(** Loop rules for [forEach] over a range. *)
Lemma forEach_seq_inv {S : Type} (P : nat → S → Prop)
    (body : nat → S → option S) n a s s' :
  forEach (seq a n) body s = Some s' →
  P a s →
  (∀ i t t', (a ≤ i < a + n)%nat → P i t → body i t = Some t' → P (Datatypes.S i) t') →
  P (a + n)%nat s'.
Proof.
  revert a s. induction n as [|n IH]; intros a s Hrun Hs Hstep; simpl in *.
  - injection Hrun as <-. by rewrite Nat.add_0_r.
  - destruct (body a s) as [t|] eqn:Hb; [|done]. simpl in Hrun.
    replace (a + Datatypes.S n)%nat with (Datatypes.S a + n)%nat by lia.
    eapply IH; [done| |].
    + eapply Hstep; [|done..]. lia.
    + intros i t0 t1 Hi. apply Hstep. lia.
Qed.

Lemma forEach_seq_total {S : Type} (P : nat → S → Prop)
    (body : nat → S → option S) n a s :
  P a s →
  (∀ i t, (a ≤ i < a + n)%nat → P i t →
          ∃ t', body i t = Some t' ∧ P (Datatypes.S i) t') →
  ∃ s', forEach (seq a n) body s = Some s' ∧ P (a + n)%nat s'.
Proof.
  revert a s. induction n as [|n IH]; intros a s Hs Hstep; simpl.
  - exists s. by rewrite Nat.add_0_r.
  - destruct (Hstep a s) as (t & Hb & Ht); [lia|done|].
    rewrite Hb. simpl.
    replace (a + Datatypes.S n)%nat with (Datatypes.S a + n)%nat by lia.
    apply IH; [done|]. intros i t0 Hi. apply Hstep. lia.
Qed.

(** ** Gravity: one block dropping by one cell *)

Lemma dropOne_read g c r b g2 x y :
  dropOne g c r b g2 →
  readCell g2 x y =
    if decide (x = r ∧ y = c) then Some None
    else if decide (x = S r ∧ y = c) then Some (Some (withRow b (S r)))
    else readCell g x y.
Proof.
  intros (_ & _ & g1 & H1 & H2).
  rewrite (writeCell_read _ _ _ _ _ _ _ H2).
  case_decide; [done|]. apply (writeCell_read _ _ _ _ _ _ _ H1).
Qed.

Lemma dropOne_shape g c r b g2 : dropOne g c r b g2 → shape g → shape g2.
Proof.
  intros (_ & _ & g1 & H1 & H2) Hs.
  eapply writeCell_shape; [done|]. by eapply writeCell_shape.
Qed.

(** What one iteration does: it moves on, or it drops one block and
    restarts the scan. *)
Lemma gravityStep_inv c r g ch g' r' ch' :
  gravityStep c (S r) g ch = Some (g', r', ch') →
  (g' = g ∧ r' = r ∧ ch' = ch ∧ ¬ unsupported g c r) ∨
  (∃ b, dropOne g c r b g' ∧ r' = (GRID_ROWS - 1)%nat ∧ ch' = true).
Proof.
  unfold gravityStep. replace (S r - 1)%nat with r by lia.
  destruct (readCell g (S r) c) as [[below|]|] eqn:Hb; simpl; [| |done].
  { intros [= <- <- <-]. left. repeat split. intros [Hnull _]. congruence. }
  destruct (readCell g r c) as [[b|]|] eqn:Ha; simpl; [| |done].
  - destruct (writeCell g (S r) c _) as [g1|] eqn:H1; simpl; [|done].
    destruct (writeCell g1 r c None) as [g2|] eqn:H2; simpl; [|done].
    intros [= <- <- <-]. right. exists b. repeat split; eauto.
  - intros [= <- <- <-]. left. repeat split. intros [_ [b Hb']]. congruence.
Qed.

Lemma gravityStep_total c r g ch :
  shape g → (c < GRID_COLS)%nat → (S r < GRID_ROWS)%nat →
  ∃ g' r' ch', gravityStep c (S r) g ch = Some (g', r', ch').
Proof.
  intros Hs Hc Hr. unfold gravityStep. replace (S r - 1)%nat with r by lia.
  destruct (readCell_in_range g (S r) c Hs Hr Hc) as [below Hb].
  destruct (readCell_in_range g r c Hs ltac:(lia) Hc) as [above Ha].
  rewrite Hb. simpl. destruct below as [?|]; [by eauto|].
  rewrite Ha. simpl. destruct above as [b|]; [|by eauto].
  destruct (writeCell_is_Some g (S r) c (Some (withRow b (S r))))
    as [g1 H1]; [by eauto|].
  assert (is_Some (readCell g1 r c)) as Hr1.
  { rewrite (writeCell_read _ _ _ _ _ r c H1).
    rewrite decide_False by lia. eauto. }
  destruct (writeCell_is_Some g1 r c None Hr1) as [g2 H2].
  rewrite H1. simpl. rewrite H2. simpl. eauto.
Qed.

(** The loop unrolled once. *)
Lemma settleColumn_S fuel g c r ch :
  settleColumn (S fuel) g c (S r) ch =
    gravityStep c (S r) g ch ≫= λ st : Grid * nat * bool,
    settleColumn fuel (st.1).1 c (st.1).2 st.2.
Proof. reflexivity. Qed.

Lemma settleColumn_inv fuel g c r ch res :
  settleColumn (S fuel) g c (S r) ch = Some res →
  ∃ g' r' ch', gravityStep c (S r) g ch = Some (g', r', ch') ∧
               settleColumn fuel g' c r' ch' = Some res.
Proof.
  rewrite settleColumn_S.
  destruct (gravityStep c (S r) g ch) as [[[g' r'] ch']|]; [|done].
  simpl. eauto.
Qed.

(** Induction along the moves of [settleColumn]. *)
Lemma settleColumn_moves (P : Grid → Prop) c :
  (∀ g r b g2, P g → dropOne g c r b g2 → P g2) →
  ∀ fuel g r ch g' ch',
    settleColumn fuel g c r ch = Some (g', ch') → P g → P g'.
Proof.
  intros Hdrop. induction fuel as [|fuel IH]; intros g r ch g' ch'; [done|].
  destruct r as [|r]; [by intros [= <- <-]|].
  intros (g1 & r1 & ch1 & Hstep & Hrun)%settleColumn_inv HP.
  refine (IH _ _ _ _ _ Hrun _).
  apply gravityStep_inv in Hstep as [(-> & _)|(b & Hd & _)]; [exact HP|].
  exact (Hdrop g r b g1 HP Hd).
Qed.

Lemma settleColumn_shape fuel g c r ch g' ch' :
  settleColumn fuel g c r ch = Some (g', ch') → shape g → shape g'.
Proof.
  apply (settleColumn_moves shape). intros h r0 b h2 Hh Hd.
  exact (dropOne_shape _ _ _ _ _ Hd Hh).
Qed.

Lemma settleColumn_other_columns fuel g c r ch g' ch' x y :
  settleColumn fuel g c r ch = Some (g', ch') → y ≠ c →
  readCell g' x y = readCell g x y.
Proof.
  intros Hrun Hy.
  refine (settleColumn_moves (λ h, readCell h x y = readCell g x y) c _
            fuel g r ch g' ch' Hrun eq_refl).
  intros h r0 b h2 Hh Hd. rewrite (dropOne_read _ _ _ _ _ x y Hd).
  rewrite !decide_False by lia. exact Hh.
Qed.

Lemma settleColumn_settles fuel g c r ch g' ch' :
  settleColumn fuel g c r ch = Some (g', ch') →
  settledFrom g c r → settledFrom g' c 0.
Proof.
  revert g r ch. induction fuel as [|fuel IH]; intros g r ch; [done|].
  destruct r as [|r]; [by intros [= <- <-]|].
  intros (g1 & r1 & ch1 & Hstep & Hrun)%settleColumn_inv Hset.
  refine (IH _ _ _ Hrun _).
  apply gravityStep_inv in Hstep as [(-> & -> & -> & Hsup)|(b & Hd & -> & _)].
  - intros r' Hle Hlt. destruct (decide (r' = r)) as [->|]; [done|].
    apply Hset; lia.
  - intros r' Hle Hlt. unfold GRID_ROWS in *. lia.
Qed.

(** On a settled column the loop only scans: nothing is written. *)
Lemma settleColumn_settled fuel g c r ch :
  shape g → (c < GRID_COLS)%nat → (r < GRID_ROWS)%nat → (r < fuel)%nat →
  settledFrom g c 0 →
  settleColumn fuel g c r ch = Some (g, ch).
Proof.
  intros Hs Hc. revert fuel. induction r as [|r IH]; intros fuel Hr Hf Hset.
  - destruct fuel; [lia|done].
  - destruct fuel as [|fuel]; [lia|]. rewrite settleColumn_S.
    destruct (gravityStep_total c r g ch Hs Hc Hr) as (g' & r' & ch' & Hstep).
    rewrite Hstep. simpl.
    apply gravityStep_inv in Hstep as [(-> & -> & -> & _)|(b & Hd & _)].
    + apply IH; [lia..|exact Hset].
    + exfalso. apply (Hset r); [lia|done|].
      destruct Hd as (? & ? & _). split; eauto.
Qed.

(** ** Gravity terminates *)

Lemma sum_list_with_le (f h : nat → nat) (l : list nat) :
  (∀ i, i ∈ l → (f i ≤ h i)%nat) →
  (sum_list_with f l ≤ sum_list_with h l)%nat.
Proof.
  induction l as [|i l IH]; intros Hle; simpl; [lia|].
  pose proof (Hle i ltac:(left)). 
  assert (sum_list_with f l ≤ sum_list_with h l)%nat.
  { apply IH. intros j Hj. apply Hle. by right. }
  lia.
Qed.

Lemma sum_list_with_ext (f h : nat → nat) (l : list nat) :
  (∀ i, i ∈ l → f i = h i) → sum_list_with f l = sum_list_with h l.
Proof.
  induction l as [|i l IH]; intros Heq; simpl; [done|].
  rewrite (Heq i) by left. rewrite IH; [done|].
  intros j Hj. apply Heq. by right.
Qed.

Lemma columnWeight_bound g c : (columnWeight g c ≤ 55)%nat.
Proof.
  unfold columnWeight.
  etransitivity;
    [apply (sum_list_with_le _ (λ r, GRID_ROWS - r)%nat)|by vm_compute].
  intros r _. unfold cellWeight. repeat case_match; lia.
Qed.

Lemma columnWeight_drop g c r b g2 :
  dropOne g c r b g2 → (S r < GRID_ROWS)%nat →
  (columnWeight g2 c + 1 = columnWeight g c)%nat.
Proof.
  intros Hd Hr. unfold columnWeight.
  assert (seq 0 GRID_ROWS
          = seq 0 r ++ [r; S r] ++ seq (S (S r)) (GRID_ROWS - S (S r)))
    as ->.
  { replace GRID_ROWS with (r + (2 + (GRID_ROWS - S (S r))))%nat at 1 by lia.
    rewrite seq_app. simpl. done. }
  rewrite !sum_list_with_app.
  rewrite (sum_list_with_ext (cellWeight g2 c) (cellWeight g c) (seq 0 r)).
  2:{ intros i [_ Hi]%elem_of_seq. unfold cellWeight.
      rewrite (dropOne_read _ _ _ _ _ i c Hd).
      rewrite !decide_False by lia. done. }
  rewrite (sum_list_with_ext (cellWeight g2 c) (cellWeight g c) (seq (S (S r)) _)).
  2:{ intros i [Hi _]%elem_of_seq. unfold cellWeight.
      rewrite (dropOne_read _ _ _ _ _ i c Hd).
      rewrite !decide_False by lia. done. }
  simpl. unfold cellWeight.
  rewrite (dropOne_read _ _ _ _ _ r c Hd), (dropOne_read _ _ _ _ _ (S r) c Hd).
  rewrite decide_True by done.
  rewrite decide_False by lia. rewrite decide_True by done.
  destruct Hd as (-> & -> & _). lia.
Qed.

Lemma settleColumn_total fuel g c r ch :
  shape g → (c < GRID_COLS)%nat → (r < GRID_ROWS)%nat →
  (GRID_ROWS * columnWeight g c + r < fuel)%nat →
  ∃ g' ch', settleColumn fuel g c r ch = Some (g', ch').
Proof.
  intros Hs Hc. revert g r ch Hs.
  induction fuel as [|fuel IH]; intros g r ch Hs Hr Hf; [lia|].
  destruct r as [|r]; [by eauto|]. rewrite settleColumn_S.
  destruct (gravityStep_total c r g ch Hs Hc Hr) as (g' & r' & ch' & Hstep).
  rewrite Hstep. simpl.
  apply gravityStep_inv in Hstep as [(-> & -> & -> & _)|(b & Hd & -> & _)].
  - apply IH; [exact Hs|lia..].
  - pose proof (columnWeight_drop _ _ _ _ _ Hd Hr).
    apply IH.
    + exact (dropOne_shape _ _ _ _ _ Hd Hs).
    + unfold GRID_ROWS. lia.
    + unfold GRID_ROWS in *. lia.
Qed.

(** ** applyGravity as a whole *)

Lemma applyGravity_total g :
  shape g → ∃ g' changed, applyGravity g = Some (g', changed) ∧ shape g'.
Proof.
  intros Hs. unfold applyGravity.
  destruct (forEach_seq_total (λ _ st, shape st.1) gravityColumn
              GRID_COLS 0 (g, false) Hs) as ([g' ch'] & Hrun & Hs').
  - intros c [h ch] [_ Hc] Hh. unfold gravityColumn. cbn [fst snd] in *.
    destruct (settleColumn_total GRAVITY_FUEL h c (GRID_ROWS - 1) ch)
      as (h' & ch' & Hrun); [exact Hh|lia|unfold GRID_ROWS; lia| |].
    { pose proof (columnWeight_bound h c).
      unfold GRID_ROWS, GRAVITY_FUEL. lia. }
    exists (h', ch'). split; [exact Hrun|].
    exact (settleColumn_shape _ _ _ _ _ _ _ Hrun Hh).
  - exists g', ch'. split; [exact Hrun|exact Hs'].
Qed.

(** Any property kept by single drops is kept by [applyGravity]. *)
Lemma applyGravity_moves (P : Grid → Prop) g g' changed :
  (∀ h c r b h2, P h → dropOne h c r b h2 → P h2) →
  applyGravity g = Some (g', changed) → P g → P g'.
Proof.
  intros Hdrop Hrun HP. unfold applyGravity in Hrun.
  refine (forEach_seq_inv (λ _ st, P st.1) gravityColumn _ _ _ _ Hrun HP _).
  intros c [h ch] [h' ch'] _ Hh Hstep. unfold gravityColumn in Hstep.
  exact (settleColumn_moves P c (λ k r b k2, Hdrop k c r b k2)
           _ _ _ _ _ _ Hstep Hh).
Qed.

Lemma applyGravity_shape g g' changed :
  applyGravity g = Some (g', changed) → shape g → shape g'.
Proof.
  apply applyGravity_moves. intros h c r b h2 Hh Hd.
  exact (dropOne_shape _ _ _ _ _ Hd Hh).
Qed.

Lemma settledFrom_settled g :
  shape g → (∀ c, (c < GRID_COLS)%nat → settledFrom g c 0) → settled g.
Proof.
  intros Hs Hall r c b Hb Hnull.
  destruct (readCell_range g _ _ _ Hs Hnull) as [Hr Hc].
  apply (Hall c Hc r); [lia|done|]. split; eauto.
Qed.

Lemma settled_settledFrom g c r : settled g → settledFrom g c r.
Proof. intros Hset r' _ _ [Hnull [b Hb]]. by eapply Hset. Qed.

Lemma applyGravity_settles g g' changed :
  shape g → applyGravity g = Some (g', changed) → settled g'.
Proof.
  intros Hs Hrun.
  assert (shape g' ∧ ∀ c, (c < 0 + GRID_COLS)%nat → settledFrom g' c 0)
    as [Hs' Hall].
  { unfold applyGravity in Hrun.
    refine (forEach_seq_inv
             (λ n st, shape st.1 ∧ ∀ c, (c < n)%nat → settledFrom st.1 c 0)
             gravityColumn _ _ _ _ Hrun _ _).
    - split; [exact Hs|]. intros c Hc. lia.
    - intros c [h ch] [h' ch'] _ [Hh Hdone] Hstep.
      unfold gravityColumn in Hstep. cbn [fst snd] in *. split.
      + exact (settleColumn_shape _ _ _ _ _ _ _ Hstep Hh).
      + intros c' Hc'. destruct (decide (c' = c)) as [->|Hne].
        * refine (settleColumn_settles _ _ _ _ _ _ _ Hstep _).
          intros r' Hle Hlt. unfold GRID_ROWS in *. lia.
        * intros r' Hle Hlt [Hnull [b Hb]].
          rewrite (settleColumn_other_columns _ _ _ _ _ _ _ _ _ Hstep Hne)
            in Hnull.
          rewrite (settleColumn_other_columns _ _ _ _ _ _ _ _ _ Hstep Hne)
            in Hb.
          apply (Hdone c' ltac:(lia) r' Hle Hlt). split; eauto. }
  by apply settledFrom_settled.
Qed.

(** On a settled grid [applyGravity] changes nothing. *)
Lemma applyGravity_settled g :
  shape g → settled g → applyGravity g = Some (g, false).
Proof.
  intros Hs Hset. unfold applyGravity.
  destruct (forEach_seq_total (λ _ st, st = (g, false)) gravityColumn
              GRID_COLS 0 (g, false) eq_refl) as (st & Hrun & ->);
    [|exact Hrun].
  intros c st [_ Hc] ->. exists (g, false). split; [|reflexivity].
  unfold gravityColumn. cbn [fst snd].
  apply settleColumn_settled; [exact Hs|lia|unfold GRID_ROWS; lia
                              |unfold GRID_ROWS, GRAVITY_FUEL; lia|].
  by apply settled_settledFrom.
Qed.

(** ** What a drop keeps *)

Lemma dropOne_positionsOK g c r b g2 :
  dropOne g c r b g2 → positionsOK g → positionsOK g2.
Proof.
  intros Hd Hok x y b'. rewrite (dropOne_read _ _ _ _ _ x y Hd).
  repeat case_decide.
  - done.
  - intros [= <-]. destruct Hd as (_ & Hb & _).
    destruct (Hok _ _ _ Hb) as [_ Hcol]. simpl. lia.
  - apply Hok.
Qed.

Lemma dropOne_uniqueIds g c r b g2 :
  dropOne g c r b g2 → uniqueIds g → uniqueIds g2.
Proof.
  intros Hd Hu x y b1 x' y' b2.
  rewrite (dropOne_read _ _ _ _ _ x y Hd), (dropOne_read _ _ _ _ _ x' y' Hd).
  destruct Hd as (_ & Hb & _).
  repeat case_decide; try done.
  - intros _ _ _. lia.
  - intros [= <-] Hx2 Hid. simpl in Hid.
    destruct (Hu _ _ _ _ _ _ Hb Hx2 Hid). lia.
  - intros Hx1 [= <-] Hid. simpl in Hid.
    destruct (Hu _ _ _ _ _ _ Hx1 Hb Hid). lia.
  - apply Hu.
Qed.

Lemma sameBlock_withRow b r : sameBlock b (withRow b r).
Proof. done. Qed.

Lemma dropOne_holds g c r b g2 y k :
  dropOne g c r b g2 → holds g2 y k ↔ holds g y k.
Proof.
  intros Hd. pose proof Hd as (Hnull & Hb & _). split.
  - intros (x & b' & Hx & Hsame).
    rewrite (dropOne_read _ _ _ _ _ x y Hd) in Hx.
    repeat case_decide; [done| |by exists x, b'].
    injection Hx as <-. exists r, b.
    split; [by replace y with c by lia|].
    unfold sameBlock in *. by rewrite Hsame.
  - intros (x & b' & Hx & Hsame).
    destruct (decide (x = r ∧ y = c)) as [[-> ->]|Hne].
    + exists (S r), (withRow b (S r)).
      rewrite (dropOne_read _ _ _ _ _ (S r) c Hd).
      rewrite decide_False by lia. rewrite decide_True by done.
      split; [done|]. unfold sameBlock in *. rewrite Hsame.
      assert (b' = b) as -> by congruence. done.
    + exists x, b'. rewrite (dropOne_read _ _ _ _ _ x y Hd).
      rewrite decide_False by done.
      rewrite decide_False; [done|]. intros [-> ->]. congruence.
Qed.

Lemma applyGravity_positionsOK g g' changed :
  applyGravity g = Some (g', changed) → positionsOK g → positionsOK g'.
Proof.
  apply applyGravity_moves. intros h c r b h2 Hh Hd.
  exact (dropOne_positionsOK _ _ _ _ _ Hd Hh).
Qed.

Lemma applyGravity_uniqueIds g g' changed :
  applyGravity g = Some (g', changed) → uniqueIds g → uniqueIds g'.
Proof.
  apply applyGravity_moves. intros h c r b h2 Hh Hd.
  exact (dropOne_uniqueIds _ _ _ _ _ Hd Hh).
Qed.

(** Gravity keeps every block in its column and brings in none. *)
Lemma applyGravity_holds g g' changed c k :
  applyGravity g = Some (g', changed) → holds g' c k ↔ holds g c k.
Proof.
  intros Hrun.
  refine (applyGravity_moves (λ h, holds h c k ↔ holds g c k) g g' changed
            _ Hrun _); [|reflexivity].
  intros h c0 r b h2 Hh Hd. by rewrite (dropOne_holds _ _ _ _ _ c k Hd).
Qed.

(** ** Removal of the matched blocks *)

Lemma removeSelected_read sel g r c :
  readCell (removeSelected sel g) r c = removeCell sel <$> readCell g r c.
Proof.
  unfold readCell, removeSelected.
  change (map (map ?f) g) with (fmap (M:=list) (fmap (M:=list) f) g).
  rewrite list_lookup_fmap. destruct (g !! r) as [line|]; [|done].
  simpl. by rewrite list_lookup_fmap.
Qed.

Lemma removeSelected_shape sel g : shape g → shape (removeSelected sel g).
Proof.
  intros [Hlen Hall]. unfold removeSelected. split.
  - by rewrite length_map.
  - rewrite Forall_lookup in Hall. apply Forall_lookup. intros i line.
    change (map (map ?f) g) with (fmap (M:=list) (fmap (M:=list) f) g).
    rewrite list_lookup_fmap. destruct (g !! i) as [l0|] eqn:Hl0; [|done].
    simpl. intros [= <-]. rewrite length_fmap. by eapply Hall.
Qed.

Lemma removeSelected_block sel g r c b :
  readCell (removeSelected sel g) r c = Some (Some b) ↔
  readCell g r c = Some (Some b) ∧ id b ∉ sel.
Proof.
  rewrite removeSelected_read.
  destruct (readCell g r c) as [[b'|]|]; simpl;
    [|split; [done|by intros [? _]]..].
  case_bool_decide; split.
  - done.
  - by intros [[= ->] ?].
  - intros [= ->]. by split.
  - by intros [[= ->] _].
Qed.

Lemma removeSelected_positionsOK sel g :
  positionsOK g → positionsOK (removeSelected sel g).
Proof.
  intros Hok r c b [Hb _]%removeSelected_block. by apply Hok.
Qed.

Lemma removeSelected_uniqueIds sel g :
  uniqueIds g → uniqueIds (removeSelected sel g).
Proof.
  intros Hu r c b r' c' b' [Hb _]%removeSelected_block
    [Hb' _]%removeSelected_block. by apply Hu.
Qed.

(** ** Row injection *)

Lemma fillRow_spec entropy r g d :
  shape g → (r < GRID_ROWS)%nat →
  ∃ g', fillRow entropy r (g, d) = Some (g', (d + 2 * GRID_COLS)%nat) ∧
        shape g' ∧
        ∀ x y, (y < GRID_COLS)%nat →
          readCell g' x y =
            if decide (x = r) then Some (Some (generatedBlock entropy d r y))
            else readCell g x y.
Proof.
  intros Hs Hr. unfold fillRow.
  destruct (forEach_seq_total
    (λ n st, st.2 = (d + 2 * n)%nat ∧ shape st.1 ∧
       ∀ x y, readCell st.1 x y =
         if decide (x = r ∧ y < n)%nat
         then Some (Some (generatedBlock entropy d r y))
         else readCell g x y)
    (fillCell entropy r)
    GRID_COLS 0 (g, d)) as ([g' d'] & Hrun & Hd & Hs' & Hread).
  - cbn [fst snd]. split; [lia|]. split; [done|]. intros x y.
    by rewrite decide_False by lia.
  - intros c [h dh] [_ Hc] (Hdh & Hh & Hread). cbn [fst snd] in *. subst dh.
    destruct (writeCell_is_Some h r c
                (Some (freshBlock entropy (d + 2 * c) r c))) as [h' Hw].
    { by apply readCell_in_range. }
    exists (h', (d + 2 * c + 2)%nat). unfold fillCell. cbn [fst snd].
    rewrite Hw. cbn [fst snd mbind option_bind].
    split; [done|]. split; [lia|]. split; [by eapply writeCell_shape|].
    intros x y. rewrite (writeCell_read _ _ _ _ _ x y Hw), Hread.
    destruct (decide (x = r ∧ y = c)) as [[-> ->]|Hne].
    + by rewrite decide_True by lia.
    + destruct (decide (x = r ∧ y < c)%nat);
        [rewrite decide_True by lia|rewrite decide_False by lia]; done.
  - exists g'. cbn [fst snd] in *. subst d'. rewrite Hrun.
    split; [done|]. split; [done|]. intros x y Hy. rewrite Hread.
    destruct (decide (x = r));
      [rewrite decide_True by lia|rewrite decide_False by lia]; done.
Qed.

Lemma shiftUp_spec g :
  shape g →
  ∃ g', shiftUp g = Some g' ∧ shape g' ∧
        ∀ x y, (y < GRID_COLS)%nat →
          readCell g' x y =
            if decide (x < GRID_ROWS - 1)%nat
            then moveUp x <$> readCell g (S x) y
            else readCell g x y.
Proof.
  intros Hs. unfold shiftUp.
  set (Inv := λ (r c : nat) (h : Grid),
    shape h ∧
    ∀ x y, (y < GRID_COLS)%nat →
      readCell h x y =
        if decide (x < r ∨ (x = r ∧ y < c))%nat
        then moveUp x <$> readCell g (S x) y
        else readCell g x y).
  destruct (forEach_seq_total (λ r h, Inv r 0%nat h) shiftRow
    (GRID_ROWS - 1) 0 g) as (g' & Hrun & Hs' & Hread).
  - split; [done|]. intros x y Hy. by rewrite decide_False by lia.
  - intros r h [_ Hr] Hinv.
    destruct (forEach_seq_total (λ c h, Inv r c h) (shiftCell r)
      GRID_COLS 0 h Hinv) as (h' & Hrow & Hh' & Hread').
    + intros c k [_ Hc] [Hk Hread].
      destruct (readCell_in_range k (r + 1) c Hk) as [v Hv];
        [unfold GRID_ROWS in *; lia|done|].
      destruct (writeCell_is_Some k r c v) as [k1 Hw1].
      { apply readCell_in_range; [done|unfold GRID_ROWS in *; lia|done]. }
      assert (∃ k2, (match v with
                     | Some b => writeCell k1 r c (Some (withRow b r))
                     | None => Some k1
                     end) = Some k2 ∧ shape k2 ∧
                    ∀ x y, readCell k2 x y =
                      if decide (x = r ∧ y = c) then Some (moveUp r v)
                      else readCell k x y) as (k2 & Hw2 & Hk2 & Hread2).
      { destruct v as [b|].
        - destruct (writeCell_is_Some k1 r c (Some (withRow b r)))
            as [k2 Hw2].
          { rewrite (writeCell_read _ _ _ _ _ r c Hw1).
            rewrite decide_True by done. eauto. }
          exists k2. split; [done|]. split.
          { eapply writeCell_shape; [done|]. by eapply writeCell_shape. }
          intros x y. rewrite (writeCell_read _ _ _ _ _ x y Hw2).
          rewrite (writeCell_read _ _ _ _ _ x y Hw1).
          by destruct (decide (x = r ∧ y = c)).
        - exists k1. split; [done|]. split; [by eapply writeCell_shape|].
          intros x y. apply (writeCell_read _ _ _ _ _ x y Hw1). }
      exists k2. unfold shiftCell. rewrite Hv. cbn [mbind option_bind].
      rewrite Hw1.
      cbn [mbind option_bind]. split; [done|]. split; [done|].
      intros x y Hy. rewrite Hread2.
      rewrite Hread in Hv by done. rewrite decide_False in Hv by lia.
      replace (r + 1)%nat with (S r) in Hv by lia.
      destruct (decide (x = r ∧ y = c)) as [[-> ->]|Hne].
      * rewrite decide_True by lia. by rewrite Hv.
      * rewrite Hread by done.
        destruct (decide (x < r ∨ x = r ∧ y < c)%nat);
          [rewrite decide_True by lia|rewrite decide_False by lia]; done.
    + exists h'. split; [done|]. split; [done|]. intros x y Hy.
      rewrite Hread' by done.
      destruct (decide (x < r ∨ x = r ∧ y < 0 + GRID_COLS)%nat);
        [rewrite decide_True by lia|rewrite decide_False by lia]; done.
  - exists g'. split; [done|]. split; [done|]. intros x y Hy.
    rewrite Hread by done.
    destruct (decide (x < GRID_ROWS - 1)%nat);
      [rewrite decide_True by lia|rewrite decide_False by lia]; done.
Qed.

Lemma emptyGrid_shape : shape emptyGrid.
Proof.
  split; [done|]. unfold emptyGrid. apply Forall_replicate. done.
Qed.

Lemma emptyGrid_read r c :
  (r < GRID_ROWS)%nat → (c < GRID_COLS)%nat →
  readCell emptyGrid r c = Some None.
Proof.
  intros Hr Hc. apply readCell_Some. exists (replicate GRID_COLS None).
  unfold emptyGrid. split; by apply lookup_replicate_2.
Qed.

Lemma generatedBlock_cursor entropy d d' r c :
  d = d' → generatedBlock entropy d r c = generatedBlock entropy d' r c.
Proof. by intros ->. Qed.

(** [initGame] fills the four bottom rows, the bottom one first. *)
Lemma initGrid_spec entropy d :
  ∃ g, initGrid entropy d = Some (g, (d + 2 * GRID_COLS * INITIAL_ROWS)%nat) ∧
       shape g ∧
       ∀ x y, (x < GRID_ROWS)%nat → (y < GRID_COLS)%nat →
         readCell g x y =
           if decide (GRID_ROWS - INITIAL_ROWS ≤ x)%nat
           then Some (Some (generatedBlock entropy
                              (d + 2 * GRID_COLS * (GRID_ROWS - 1 - x)) x y))
           else Some None.
Proof.
  unfold initGrid, initialRows. simpl rev. cbn [forEach].
  destruct (fillRow_spec entropy 9 emptyGrid d emptyGrid_shape)
    as (g1 & -> & Hs1 & H1); [unfold GRID_ROWS; lia|].
  cbn [mbind option_bind].
  destruct (fillRow_spec entropy 8 g1 (d + 2 * GRID_COLS) Hs1)
    as (g2 & -> & Hs2 & H2); [unfold GRID_ROWS; lia|].
  cbn [mbind option_bind].
  destruct (fillRow_spec entropy 7 g2 (d + 2 * GRID_COLS + 2 * GRID_COLS) Hs2)
    as (g3 & -> & Hs3 & H3); [unfold GRID_ROWS; lia|].
  cbn [mbind option_bind].
  destruct (fillRow_spec entropy 6 g3
              (d + 2 * GRID_COLS + 2 * GRID_COLS + 2 * GRID_COLS) Hs3)
    as (g4 & -> & Hs4 & H4); [unfold GRID_ROWS; lia|].
  cbn [mbind option_bind].
  exists g4.
  split; [apply (f_equal Some), (f_equal (pair g4));
          unfold GRID_COLS, INITIAL_ROWS; lia|].
  split; [done|]. intros x y Hx Hy.
  rewrite H4, H3, H2, H1 by done. rewrite emptyGrid_read by done.
  unfold GRID_ROWS, GRID_COLS, INITIAL_ROWS in *.
  repeat case_decide; try lia; subst; try done;
    do 2 f_equal; apply generatedBlock_cursor; lia.
Qed.

Lemma topRowOccupied_true g :
  topRowOccupied g = Some true ↔ ∃ c b, readCell g 0 c = Some (Some b).
Proof.
  unfold topRowOccupied, readCell. destruct (g !! 0%nat) as [top|]; simpl.
  - split.
    + intros [= Hex]. apply existsb_exists in Hex as (v & Hin & Hv).
      apply bool_decide_eq_true in Hv. destruct v as [b|]; [|done].
      apply list_elem_of_In, list_elem_of_lookup in Hin as [c Hc]. eauto.
    + intros (c & b & Hc). f_equal. apply existsb_exists.
      exists (Some b). split; [|by apply bool_decide_eq_true].
      apply list_elem_of_In, list_elem_of_lookup. eauto.
  - split; [done|]. by intros (? & ? & ?).
Qed.

Lemma topRowOccupied_total g : shape g → is_Some (topRowOccupied g).
Proof.
  intros [Hlen _]. unfold topRowOccupied.
  destruct (lookup_lt_is_Some_2 g 0) as [top ->];
    [rewrite Hlen; unfold GRID_ROWS; lia|].
  simpl. eauto.
Qed.

Lemma topRowOccupied_false g :
  shape g →
  topRowOccupied g = Some false ↔
  ∀ c, (c < GRID_COLS)%nat → readCell g 0 c = Some None.
Proof.
  intros Hs. split.
  - intros Hf c Hc.
    assert (0 < GRID_ROWS)%nat as H0 by (unfold GRID_ROWS; lia).
    destruct (readCell_in_range g 0 c Hs H0 Hc) as [[b|] Hv]; [|done].
    assert (topRowOccupied g = Some true) by (apply topRowOccupied_true; eauto).
    congruence.
  - intros Hall. destruct (topRowOccupied_total g Hs) as [[|] Hb]; [|done].
    apply topRowOccupied_true in Hb as (c & b & Hc).
    destruct (readCell_range g _ _ _ Hs Hc) as [_ Hlt].
    rewrite Hall in Hc by done. done.
Qed.

(** On the empty array of the first render both operations fault. *)
Lemma addRowUpdater_nil entropy d : addRowUpdater entropy d [] = None.
Proof. reflexivity. Qed.

Lemma applyGravity_nil : applyGravity [] = None.
Proof. vm_compute. reflexivity. Qed.

Lemma addRowUpdater_overflow entropy d g :
  topRowOccupied g = Some true →
  addRowUpdater entropy d g = Some (g, true, d).
Proof. intros H. unfold addRowUpdater. by rewrite H. Qed.

Lemma addRowUpdater_shift entropy d g :
  shape g → topRowOccupied g = Some false →
  ∃ g', addRowUpdater entropy d g = Some (g', false, (d + 2 * GRID_COLS)%nat) ∧
        shape g' ∧
        ∀ x y, (x < GRID_ROWS)%nat → (y < GRID_COLS)%nat →
          readCell g' x y =
            if decide (x < GRID_ROWS - 1)%nat
            then moveUp x <$> readCell g (S x) y
            else Some (Some (generatedBlock entropy d (GRID_ROWS - 1) y)).
Proof.
  intros Hs Htop. unfold addRowUpdater. rewrite Htop. cbn [mbind option_bind].
  destruct (shiftUp_spec g Hs) as (g1 & -> & Hs1 & H1). cbn [mbind option_bind].
  destruct (fillRow_spec entropy (GRID_ROWS - 1) g1 d Hs1)
    as (g2 & -> & Hs2 & H2); [unfold GRID_ROWS; lia|].
  cbn [mbind option_bind fst snd]. exists g2. split; [done|]. split; [done|].
  intros x y Hx Hy. rewrite H2, H1 by done.
  repeat case_decide; try done; lia.
Qed.

Lemma addRowUpdater_total entropy d g :
  shape g →
  ∃ g' over d', addRowUpdater entropy d g = Some (g', over, d') ∧ shape g' ∧
                (d ≤ d')%nat.
Proof.
  intros Hs. destruct (topRowOccupied_total g Hs) as [[|] Htop].
  - exists g, true, d. by rewrite addRowUpdater_overflow.
  - destruct (addRowUpdater_shift entropy d g Hs Htop) as (g' & -> & Hs' & _).
    exists g', false, (d + 2 * GRID_COLS)%nat. split; [done|]. split; [done|lia].
Qed.

Lemma addRowUpdater_inv entropy d g g' over d' :
  shape g → addRowUpdater entropy d g = Some (g', over, d') →
  (over = true ∧ g' = g ∧ d' = d ∧ topRowOccupied g = Some true) ∨
  (over = false ∧ d' = (d + 2 * GRID_COLS)%nat ∧
   topRowOccupied g = Some false ∧ shape g' ∧
   ∀ x y, (x < GRID_ROWS)%nat → (y < GRID_COLS)%nat →
     readCell g' x y =
       if decide (x < GRID_ROWS - 1)%nat
       then moveUp x <$> readCell g (S x) y
       else Some (Some (generatedBlock entropy d (GRID_ROWS - 1) y))).
Proof.
  intros Hs Hrun. destruct (topRowOccupied_total g Hs) as [[|] Htop].
  - left. rewrite addRowUpdater_overflow in Hrun by done. naive_solver.
  - right. destruct (addRowUpdater_shift entropy d g Hs Htop)
      as (g2 & Hrun2 & Hs2 & H2).
    rewrite Hrun2 in Hrun. injection Hrun as <- <- <-. done.
Qed.

(** ** The ids of a grid *)

(** From here on the operations are used through their specifications. *)
Opaque generateId initGrid addRowUpdater applyGravity shiftUp fillRow.

Lemma elem_of_concat {A} (ls : list (list A)) (x : A) :
  x ∈ concat ls ↔ ∃ l, l ∈ ls ∧ x ∈ l.
Proof.
  rewrite list_elem_of_In, in_concat. split.
  - intros (l & Hl & Hx). exists l. by rewrite !list_elem_of_In.
  - intros (l & Hl & Hx). exists l. by rewrite <- !list_elem_of_In.
Qed.

Lemma elem_of_gridIds (g : Grid) i :
  i ∈ gridIds g ↔ ∃ r c b, readCell g r c = Some (Some b) ∧ id b = i.
Proof.
  unfold gridIds. rewrite list_elem_of_omap. split.
  - intros ([b|] & Hin & Hid); [|done]. injection Hid as <-.
    apply elem_of_concat in Hin as (line & Hline & Hb).
    apply list_elem_of_lookup in Hline as [r Hr].
    apply list_elem_of_lookup in Hb as [c Hc].
    exists r, c, b. split; [|done]. apply readCell_Some. eauto.
  - intros (r & c & b & (line & Hr & Hc)%readCell_Some & <-).
    exists (Some b). split; [|done].
    apply elem_of_concat. exists line.
    split; eapply list_elem_of_lookup_2; eauto.
Qed.

(** ** What row injection keeps *)

Lemma moveUp_block r v b :
  moveUp r v = Some b ↔ ∃ b0, v = Some b0 ∧ b = withRow b0 r.
Proof.
  unfold moveUp. destruct v as [b0|]; simpl; split.
  - intros [= <-]. eauto.
  - by intros (? & [= <-] & ->).
  - done.
  - by intros (? & ? & ?).
Qed.

(** A block of the grid after a shift comes from the row beneath or is one
    of the generated blocks. *)
Lemma shifted_block entropy d g g' x y b :
  (∀ x y, (x < GRID_ROWS)%nat → (y < GRID_COLS)%nat →
     readCell g' x y =
       if decide (x < GRID_ROWS - 1)%nat
       then moveUp x <$> readCell g (S x) y
       else Some (Some (generatedBlock entropy d (GRID_ROWS - 1) y))) →
  shape g' →
  readCell g' x y = Some (Some b) →
  (y < GRID_COLS)%nat ∧
  (((x < GRID_ROWS - 1)%nat ∧
    ∃ b0, readCell g (S x) y = Some (Some b0) ∧ b = withRow b0 x) ∨
   (x = (GRID_ROWS - 1)%nat ∧ b = generatedBlock entropy d (GRID_ROWS - 1) y)).
Proof.
  intros Hread Hs Hb. destruct (readCell_range g' _ _ _ Hs Hb) as [Hx Hy].
  split; [done|]. rewrite Hread in Hb by done. case_decide.
  - left. split; [done|].
    destruct (readCell g (S x) y) as [v|]; [|done]. simpl in Hb.
    injection Hb as Hb. apply moveUp_block in Hb as (b0 & -> & ->). eauto.
  - right. injection Hb as <-. split; [lia|done].
Qed.

Lemma generatedIds_lookup entropy d n k :
  (k < n)%nat →
  generatedIds entropy d n !! k = Some (generateId (random entropy (d + 2 * k))).
Proof.
  intros Hk. unfold generatedIds.
  change (map ?f ?l) with (fmap (M:=list) f l).
  rewrite list_lookup_fmap, lookup_seq_lt by done. done.
Qed.

Lemma generatedBlock_id entropy d r c :
  id (generatedBlock entropy d r c) = generateId (random entropy (d + 2 * c)).
Proof. done. Qed.

Lemma addRowUpdater_positionsOK entropy d g g' over d' :
  shape g → addRowUpdater entropy d g = Some (g', over, d') →
  positionsOK g → positionsOK g'.
Proof.
  intros Hs Hrun Hok.
  destruct (addRowUpdater_inv _ _ _ _ _ _ Hs Hrun)
    as [(_ & -> & _)|(_ & _ & _ & Hs' & Hread)]; [done|].
  intros x y b Hb.
  destruct (shifted_block _ _ _ _ _ _ _ Hread Hs' Hb)
    as [Hy [(Hx & b0 & Hb0 & ->)|(-> & ->)]].
  - destruct (Hok _ _ _ Hb0) as [_ Hcol]. done.
  - done.
Qed.

Lemma addRowUpdater_uniqueIds entropy d g g' over d' :
  shape g → addRowUpdater entropy d g = Some (g', over, d') →
  freshIds entropy d (if over : bool then 0 else GRID_COLS) (gridIds g) →
  uniqueIds g → uniqueIds g'.
Proof.
  intros Hs Hrun Hfr Hu.
  destruct (addRowUpdater_inv _ _ _ _ _ _ Hs Hrun)
    as [(_ & -> & _)|(-> & _ & _ & Hs' & Hread)]; [done|].
  destruct Hfr as [Hnodup Hnew].
  assert (∀ y b0 x0 y0, (y < GRID_COLS)%nat →
            readCell g x0 y0 = Some (Some b0) →
            id (generatedBlock entropy d (GRID_ROWS - 1) y) ≠ id b0) as Hfresh.
  { intros y b0 x0 y0 Hy Hb0 Heq.
    apply (Hnew (id (generatedBlock entropy d (GRID_ROWS - 1) y))).
    - eapply list_elem_of_lookup_2. rewrite generatedBlock_id.
      by apply generatedIds_lookup.
    - apply elem_of_gridIds. exists x0, y0, b0. by rewrite Heq. }
  intros x1 y1 b1 x2 y2 b2 Hb1 Hb2 Hid.
  destruct (shifted_block _ _ _ _ _ _ _ Hread Hs' Hb1)
    as [Hy1 [(Hx1 & a1 & Ha1 & ->)|(-> & ->)]];
  destruct (shifted_block _ _ _ _ _ _ _ Hread Hs' Hb2)
    as [Hy2 [(Hx2 & a2 & Ha2 & ->)|(-> & ->)]].
  - destruct (Hu _ _ _ _ _ _ Ha1 Ha2 Hid). split; [lia|done].
  - exfalso. by eapply (Hfresh y2 a1).
  - exfalso. by eapply (Hfresh y1 a2).
  - split; [done|]. rewrite !generatedBlock_id in Hid.
    eapply NoDup_lookup; [exact Hnodup| |].
    + by apply generatedIds_lookup.
    + rewrite Hid. by apply generatedIds_lookup.
Qed.

(** The blocks of [initGame]'s grid: block [k] of the 24 generated ones is
    at row [9 - k / 6], column [k mod 6]. *)
Lemma initGrid_block entropy d g d' x y b :
  initGrid entropy d = Some (g, d') →
  readCell g x y = Some (Some b) →
  (x < GRID_ROWS)%nat ∧ (y < GRID_COLS)%nat ∧
  (GRID_ROWS - INITIAL_ROWS ≤ x)%nat ∧
  row b = x ∧ col b = y ∧
  id b = generateId
           (random entropy (d + 2 * (GRID_COLS * (GRID_ROWS - 1 - x) + y))).
Proof.
  destruct (initGrid_spec entropy d) as (g0 & -> & Hs & Hread).
  intros [= <- <-] Hb.
  destruct (readCell_range g0 _ _ _ Hs Hb) as [Hx Hy].
  rewrite Hread in Hb by done.
  destruct (decide (GRID_ROWS - INITIAL_ROWS ≤ x)%nat) as [Hle|]; [|done].
  assert (b = generatedBlock entropy
                (d + 2 * GRID_COLS * (GRID_ROWS - 1 - x)) x y) as ->
    by congruence.
  split; [exact Hx|]. split; [exact Hy|]. split; [exact Hle|].
  split; [reflexivity|]. split; [reflexivity|].
  rewrite generatedBlock_id.
  replace (d + 2 * GRID_COLS * (GRID_ROWS - 1 - x) + 2 * y)%nat
    with (d + 2 * (GRID_COLS * (GRID_ROWS - 1 - x) + y))%nat by lia.
  reflexivity.
Qed.

Lemma initGrid_positionsOK entropy d g d' :
  initGrid entropy d = Some (g, d') → positionsOK g.
Proof.
  intros Hinit x y b Hb.
  destruct (initGrid_block _ _ _ _ _ _ _ Hinit Hb)
    as (_ & _ & _ & Hrow & Hcol & _).
  split; [exact Hrow|exact Hcol].
Qed.

Lemma initGrid_uniqueIds entropy d g d' :
  initGrid entropy d = Some (g, d') →
  freshIds entropy d (GRID_COLS * INITIAL_ROWS) [] →
  uniqueIds g.
Proof.
  intros Hinit [Hnodup _] x1 y1 b1 x2 y2 b2 Hb1 Hb2 Hid.
  destruct (initGrid_block _ _ _ _ _ _ _ Hinit Hb1)
    as (Hx1 & Hy1 & Hl1 & _ & _ & Hid1).
  destruct (initGrid_block _ _ _ _ _ _ _ Hinit Hb2)
    as (Hx2 & Hy2 & Hl2 & _ & _ & Hid2).
  assert (GRID_COLS * (GRID_ROWS - 1 - x1) + y1
          = GRID_COLS * (GRID_ROWS - 1 - x2) + y2)%nat as Heq.
  { clear Hinit. apply (NoDup_lookup _ _ _ (id b1) Hnodup).
    - rewrite Hid1. apply generatedIds_lookup.
      unfold GRID_ROWS, GRID_COLS, INITIAL_ROWS in *. lia.
    - rewrite Hid, Hid2. apply generatedIds_lookup.
      unfold GRID_ROWS, GRID_COLS, INITIAL_ROWS in *. lia. }
  unfold GRID_ROWS, GRID_COLS, INITIAL_ROWS in *. lia.
Qed.

Lemma reachableGrid_shape ok g : reachableGrid ok g → shape g.
Proof.
  induction 1 as [entropy d g d' Hinit _|entropy d g g' over d' _ IH Hrun _
                 |sel g _ IH|g g' changed _ IH Hrun].
  - destruct (initGrid_spec entropy d) as (g0 & Hrun & Hs & _).
    rewrite Hrun in Hinit. by injection Hinit as <- <-.
  - destruct (addRowUpdater_inv _ _ _ _ _ _ IH Hrun)
      as [(_ & -> & _)|(_ & _ & _ & Hs' & _)]; done.
  - by apply removeSelected_shape.
  - exact (applyGravity_shape _ _ _ Hrun IH).
Qed.

(** ** Block counts under row injection *)

Lemma sum_list_with_S (f : nat → nat) a n :
  sum_list_with (λ k, f (S k)) (seq a n) = sum_list_with f (seq (S a) n).
Proof.
  revert a. induction n as [|n IH]; intros a; simpl; [done|].
  by rewrite IH.
Qed.

Lemma occupied_moveUp x v : occupied (moveUp x <$> v) = occupied v.
Proof. by destruct v as [[?|]|]. Qed.

Lemma addRow_blockCount entropy d g g' c :
  (∀ x y, (x < GRID_ROWS)%nat → (y < GRID_COLS)%nat →
     readCell g' x y =
       if decide (x < GRID_ROWS - 1)%nat
       then moveUp x <$> readCell g (S x) y
       else Some (Some (generatedBlock entropy d (GRID_ROWS - 1) y))) →
  (c < GRID_COLS)%nat →
  readCell g 0 c = Some None →
  blockCount g' c = S (blockCount g c).
Proof.
  intros Hread Hc Htop. unfold blockCount.
  change (seq 0 GRID_ROWS) with (seq 0 (GRID_ROWS - 1) ++ [GRID_ROWS - 1]%nat).
  rewrite sum_list_with_app.
  rewrite (sum_list_with_ext _ (λ k, occupied (readCell g (S k) c))).
  2:{ intros x [_ Hx]%elem_of_seq.
      rewrite Hread by (unfold GRID_ROWS in *; lia || done).
      rewrite decide_True by lia. apply occupied_moveUp. }
  rewrite (sum_list_with_S (λ k, occupied (readCell g k c))).
  simpl sum_list_with at 2.
  rewrite Hread by (unfold GRID_ROWS; lia || done).
  rewrite decide_False by (unfold GRID_ROWS; lia).
  change (seq 0 (GRID_ROWS - 1) ++ [(GRID_ROWS - 1)%nat])
    with (0%nat :: seq 1 (GRID_ROWS - 1)).
  simpl sum_list_with at 2. rewrite Htop. simpl. lia.
Qed.

(** ** The random source *)

(** Projections of updated states. *)
Ltac state_simpl :=
  cbn [mode grid score target selectedIds isGameOver timeLeft isPaused
       isShaking currentSum timeouts drawn addRowCalls
       setMode setGrid setScore setTarget setSelectedIds setIsGameOver
       setTimeLeft setIsPaused setIsShaking setCurrentSum setTimeouts
       setDrawn setAddRowCalls rewarded overshootBranch shakeTimeout] in *.

Lemma random_range entropy n : 0 ≤ random entropy n < RANDOM_SCALE.
Proof. unfold random. apply Z.mod_pos_bound. done. Qed.

Lemma getRandomTarget_range entropy n :
  TARGET_MIN ≤ getRandomTarget (random entropy n) ≤ TARGET_MAX.
Proof.
  pose proof (random_range entropy n) as [Hlo Hhi].
  unfold getRandomTarget, TARGET_MIN, TARGET_MAX, RANDOM_SCALE in *.
  assert (0 ≤ (random entropy n * (25 - 10 + 1)) `div` 2 ^ 53)
    by (apply Z.div_pos; lia).
  assert ((random entropy n * (25 - 10 + 1)) `div` 2 ^ 53 < 16)
    by (apply Z.div_lt_upper_bound; lia).
  lia.
Qed.

(** Rounding moves a number by at most half a unit of its last kept bit. *)
Lemma roundDouble_near p :
  0 ≤ p →
  ∃ e, e = Z.max 0 (Z.log2 p - 52) ∧
       p - 2 ^ e `div` 2 ≤ roundDouble p ≤ p + 2 ^ e `div` 2.
Proof.
  intros Hp. exists (Z.max 0 (Z.log2 p - 52)). split; [reflexivity|].
  unfold roundDouble. destruct (Z.leb_spec (Z.log2 p - 52) 0) as [Hle|Hgt].
  - rewrite Z.max_l by lia. change (2 ^ 0 `div` 2) with 0. lia.
  - rewrite Z.max_r by lia. set (e := Z.log2 p - 52) in *.
    assert (0 < 2 ^ (e - 1)) as Hhalf by (apply Z.pow_pos_nonneg; lia).
    assert (2 ^ e = 2 * 2 ^ (e - 1)) as He.
    { replace e with (1 + (e - 1)) at 1 by lia. rewrite Z.pow_add_r by lia.
      reflexivity. }
    assert (2 ^ e `div` 2 = 2 ^ (e - 1)) as ->.
    { rewrite He, Z.mul_comm. apply Z.div_mul. lia. }
    pose proof (Z.div_mod p (2 ^ e) ltac:(lia)) as Hdm.
    pose proof (Z.mod_pos_bound p (2 ^ e) ltac:(lia)) as Hm.
    destruct (Z.ltb_spec (2 ^ (e - 1)) (p `mod` 2 ^ e)) as [Hup|Hdown];
      cbn [orb].
    + nia.
    + destruct (Z.eqb_spec (p `mod` 2 ^ e) (2 ^ (e - 1))) as [Heq|Hne];
        cbn [andb].
      * destruct (Z.odd (p `div` 2 ^ e)); nia.
      * nia.
Qed.

Lemma roundDouble_range p :
  0 ≤ p < 2 ^ 57 → 0 ≤ roundDouble p ∧ p - 8 ≤ roundDouble p ≤ p + 8.
Proof.
  intros [Hlo Hhi]. destruct (roundDouble_near p Hlo) as (e & He & Hnear).
  assert (Z.log2 p < 57) as Hlog.
  { destruct (decide (p = 0)) as [->|Hne]; [reflexivity|].
    apply Z.log2_lt_pow2; [lia|exact Hhi]. }
  pose proof (Z.log2_nonneg p) as Hlog0.
  assert (e = 0 ∨ (53 ≤ Z.log2 p ∧ (e = 1 ∨ e = 2 ∨ e = 3 ∨ e = 4))) as Hc
    by lia.
  destruct Hc as [-> | [Hbig Hc]].
  - change (2 ^ 0 `div` 2) with 0 in Hnear. lia.
  - assert (2 ^ 53 ≤ p) as Hp.
    { assert (0 < p) as Hpos.
      { destruct (decide (p = 0)) as [->|Hne]; [|lia].
        change (Z.log2 0) with 0 in Hbig. lia. }
      apply Z.log2_le_pow2; [exact Hpos|exact Hbig]. }
    assert (2 ^ e `div` 2 ≤ 8) as Hhalf.
    { clear -Hc.
      destruct Hc as [->|[->|[->| ->]]]; apply Z.leb_le; reflexivity. }
    lia.
Qed.

Lemma getRandomValue_bounds u :
  0 ≤ u < RANDOM_SCALE → 1 ≤ getRandomValue u ≤ 9.
Proof.
  intros Hu. unfold getRandomValue, RANDOM_SCALE in *.
  pose proof (roundDouble_range (u * 9) ltac:(lia)) as [Hpos Hr].
  assert (0 ≤ roundDouble (u * 9) `div` 2 ^ 53) by (apply Z.div_pos; lia).
  assert (roundDouble (u * 9) `div` 2 ^ 53 < 9)
    by (apply Z.div_lt_upper_bound; lia).
  lia.
Qed.

Lemma getRandomValue_range entropy n :
  1 ≤ getRandomValue (random entropy n) ≤ 9.
Proof. apply getRandomValue_bounds, random_range. Qed.

(** ** addRow on states *)

Lemma addRow_inv entropy s s' :
  addRow entropy s = Some s' →
  ∃ g' over d',
    addRowUpdater entropy (drawn s) (grid s) = Some (g', over, d') ∧
    grid s' = g' ∧ drawn s' = d' ∧
    addRowCalls s' = S (addRowCalls s) ∧
    isGameOver s' = (over || isGameOver s) ∧
    timeLeft s' = (if bool_decide (mode s = Some TIME) then TIME_LIMIT
                   else timeLeft s) ∧
    mode s' = mode s ∧ score s' = score s ∧ target s' = target s ∧
    selectedIds s' = selectedIds s ∧ isPaused s' = isPaused s ∧
    isShaking s' = isShaking s ∧ currentSum s' = currentSum s ∧
    timeouts s' = timeouts s.
Proof.
  unfold addRow.
  destruct (addRowUpdater entropy (drawn s) (grid s))
    as [[[g' over] d']|]; [|done].
  cbn [mbind option_bind fst snd]. intros [= <-]. exists g', over, d'.
  split; [reflexivity|].
  destruct over; case_bool_decide; repeat split.
Qed.

Lemma addRow_total entropy s :
  shape (grid s) → ∃ s', addRow entropy s = Some s' ∧ shape (grid s').
Proof.
  intros Hs.
  destruct (addRowUpdater_total entropy (drawn s) (grid s) Hs)
    as (g' & over & d' & Hrun & Hs' & _).
  unfold addRow. rewrite Hrun. cbn [mbind option_bind fst snd].
  eexists. split; [reflexivity|].
  destruct over; case_bool_decide; exact Hs'.
Qed.

(** ** The selected blocks *)

Lemma elem_of_selectedBlocks (g : Grid) sel b :
  b ∈ selectedBlocks g sel ↔
  (∃ r c, readCell g r c = Some (Some b)) ∧ id b ∈ sel.
Proof.
  unfold selectedBlocks. rewrite list_elem_of_omap. split.
  - intros ([b'|] & Hin & Hpick); [|done]. unfold pickSelected in Hpick.
    simpl in Hpick.
    case_bool_decide; [|done]. injection Hpick as <-. split; [|done].
    apply elem_of_concat in Hin as (line & Hline & Hb).
    apply list_elem_of_lookup in Hline as [r Hr].
    apply list_elem_of_lookup in Hb as [c Hc].
    exists r, c. apply readCell_Some. eauto.
  - intros [(r & c & (line & Hr & Hc)%readCell_Some) Hsel].
    exists (Some b). split.
    + apply elem_of_concat. exists line.
      split; eapply list_elem_of_lookup_2; eauto.
    + unfold pickSelected. simpl. by rewrite bool_decide_eq_true_2.
Qed.

Lemma sumValues_nil : sumValues [] = 0.
Proof. done. Qed.

Lemma pickSelected_nil v : pickSelected [] v = None.
Proof.
  destruct v as [b|]; [|done]. unfold pickSelected.
  cbn [mbind option_bind].
  by rewrite bool_decide_eq_false_2 by apply not_elem_of_nil.
Qed.

Lemma selectedBlocks_nil (g : Grid) : selectedBlocks g [] = [].
Proof.
  unfold selectedBlocks. induction (concat g) as [|v l IH]; [done|].
  simpl. by rewrite pickSelected_nil.
Qed.

Lemma selectedBlocks_empty_grid sel : selectedBlocks [] sel = [].
Proof. done. Qed.

Lemma omap_ext_elem {A B} (f h : A → option B) (l : list A) :
  (∀ x, x ∈ l → f x = h x) → omap f l = omap h l.
Proof.
  induction l as [|x l IH]; intros Heq; [done|].
  change (omap f (x :: l))
    with (match f x with Some y => y :: omap f l | None => omap f l end).
  change (omap h (x :: l))
    with (match h x with Some y => y :: omap h l | None => omap h l end).
  rewrite (Heq x) by left. rewrite IH; [done|].
  intros y Hy. apply Heq. by right.
Qed.

(** Selected ids without a block in the grid pick nothing: two selections
    that agree on the ids of the grid select the same blocks. *)
Lemma selectedBlocks_ext (g : Grid) sel sel' :
  (∀ i, i ∈ gridIds g → (i ∈ sel ↔ i ∈ sel')) →
  selectedBlocks g sel = selectedBlocks g sel'.
Proof.
  intros Hagree. unfold selectedBlocks. apply omap_ext_elem.
  intros [b|] Hv; [|done]. unfold pickSelected. cbn [mbind option_bind].
  assert (id b ∈ sel ↔ id b ∈ sel') as Hb.
  { apply Hagree. apply list_elem_of_omap. by exists (Some b). }
  do 2 case_bool_decide; tauto.
Qed.

Lemma removeSelected_ext (g : Grid) sel sel' :
  (∀ i, i ∈ gridIds g → (i ∈ sel ↔ i ∈ sel')) →
  removeSelected sel g = removeSelected sel' g.
Proof.
  intros Hagree. unfold removeSelected.
  apply map_ext_in. intros line Hline. apply map_ext_in. intros v Hv.
  destruct v as [b|]; [|done]. simpl.
  assert (id b ∈ sel ↔ id b ∈ sel') as Hb.
  { apply Hagree. apply list_elem_of_omap. exists (Some b). split; [|done].
    apply elem_of_concat. exists line. by rewrite !list_elem_of_In. }
  do 2 case_bool_decide; tauto.
Qed.

Lemma elem_of_toggleId i j sel :
  j ≠ i → (j ∈ toggleId i sel ↔ j ∈ sel).
Proof.
  intros Hne. unfold toggleId. case_bool_decide.
  - rewrite list_elem_of_filter. tauto.
  - rewrite elem_of_app, list_elem_of_singleton. tauto.
Qed.

(** ** The sum effect *)

Lemma matchBranch_inv entropy s s' :
  matchBranch entropy s = Some s' →
  ∃ g1 ch,
    applyGravity (removeSelected (selectedIds s) (grid s)) = Some (g1, ch) ∧
    ((mode s = Some CLASSIC ∧
      addRow entropy (setSelectedIds [] (setGrid g1 (rewarded entropy s)))
        = Some s') ∨
     (mode s ≠ Some CLASSIC ∧
      s' = setSelectedIds [] (setGrid g1 (rewarded entropy s)))).
Proof.
  unfold matchBranch.
  destruct (applyGravity (removeSelected (selectedIds s) (grid s)))
    as [[g1 ch]|]; [|done].
  cbn [mbind option_bind fst snd]. intros Hrun. exists g1, ch.
  split; [reflexivity|]. case_bool_decide.
  - left. by split.
  - right. split; [done|]. by injection Hrun.
Qed.

Lemma matchBranch_total entropy s :
  shape (grid s) → ∃ s', matchBranch entropy s = Some s' ∧ shape (grid s').
Proof.
  intros Hs. unfold matchBranch.
  destruct (applyGravity_total (removeSelected (selectedIds s) (grid s)))
    as (g1 & ch & Hrun & Hs1); [by apply removeSelected_shape|].
  rewrite Hrun. cbn [mbind option_bind fst snd]. case_bool_decide.
  - apply addRow_total. exact Hs1.
  - eexists. split; [reflexivity|exact Hs1].
Qed.

(** The four outcomes of one run of the effect. *)
Lemma sumEffect_cases entropy s r :
  sumEffect entropy s = Some r →
  (selectedSum s = 0 ∧ r = (setCurrentSum 0 s, false)) ∨
  (selectedSum s ≠ 0 ∧ selectedSum s = target s ∧
   ∃ s', matchBranch entropy (setCurrentSum (selectedSum s) s) = Some s' ∧
         r = (s', true)) ∨
  (selectedSum s ≠ 0 ∧ target s < selectedSum s ∧
   r = (overshootBranch (setCurrentSum (selectedSum s) s), false)) ∨
  (selectedSum s ≠ 0 ∧ selectedSum s < target s ∧
   r = (setCurrentSum (selectedSum s) s, false)).
Proof.
  unfold sumEffect.
  destruct (Z.eqb_spec (selectedSum s) 0) as [H0|H0].
  { intros [= <-]. left. by rewrite H0. }
  destruct (Z.eqb_spec (selectedSum s) (target s)) as [Ht|Ht].
  { destruct (matchBranch entropy (setCurrentSum (selectedSum s) s))
      as [s'|]; [|done].
    cbn [mbind option_bind]. intros [= <-]. right. left. eauto. }
  destruct (Z.ltb_spec (target s) (selectedSum s)) as [Hlt|Hge].
  - intros [= <-]. right. right. left. done.
  - intros [= <-]. right. right. right. repeat split; [done|lia].
Qed.

Lemma effectFrame_same s s' :
  timeLeft s' = timeLeft s → mode s' = mode s → isPaused s' = isPaused s →
  isGameOver s' = isGameOver s → target s' = target s → score s' = score s →
  addRowCalls s' = addRowCalls s →
  effectFrame s s'.
Proof.
  intros Ht Hm Hp Hg Htg Hsc Hcalls.
  split; [done|]. split; [done|]. split; [done|]. split; [congruence|].
  split; [by left|]. split; [|done]. exists 0%nat. lia.
Qed.

Lemma effectFrame_refl s : effectFrame s s.
Proof. by apply effectFrame_same. Qed.

Lemma effectFrame_trans s1 s2 s3 :
  effectFrame s1 s2 → effectFrame s2 s3 → effectFrame s1 s3.
Proof.
  intros (Ht & Hm & Hp & Hg & Htg & [n Hn] & Hc)
         (Ht' & Hm' & Hp' & Hg' & Htg' & [n' Hn'] & Hc').
  split; [congruence|]. split; [congruence|]. split; [congruence|].
  split; [tauto|]. split; [|split].
  - destruct Htg' as [Heq|Hin]; [rewrite Heq; exact Htg|by right].
  - exists (n + n')%nat. lia.
  - intros Hmode. rewrite Hc' by congruence. by apply Hc.
Qed.

Lemma matchBranch_frame entropy s s' :
  matchBranch entropy s = Some s' → effectFrame s s' ∧ selectedIds s' = [].
Proof.
  intros (g1 & ch & _ & [[Hmode Hadd]|[Hmode ->]])%matchBranch_inv.
  - apply addRow_inv in Hadd
      as (g' & over & d' & Hup & Hg & Hd & _ & Hover & Htl & Hm & Hsc & Htg
          & Hsel & Hp & _).
    cbn in *. rewrite Hmode in Htl.
    rewrite bool_decide_eq_false_2 in Htl by done.
    split; [|done].
    split; [done|]. split; [done|]. split; [done|]. split.
    { rewrite Hover. intros ->. apply orb_true_r. }
    split; [|split].
    + right. rewrite Htg. apply getRandomTarget_range.
    + eexists. rewrite Hsc. reflexivity.
    + done.
  - split; [|done].
    split; [done|]. split; [done|]. split; [done|]. split; [done|].
    split; [|split].
    + right. apply getRandomTarget_range.
    + eexists. reflexivity.
    + done.
Qed.

Lemma sumEffect_frame entropy s s' again :
  sumEffect entropy s = Some (s', again) →
  effectFrame s s' ∧ (again = true → selectedIds s' = []).
Proof.
  intros [(_ & [= -> ->])|[(_ & _ & s1 & Hm & [= -> ->])
                          |[(_ & _ & [= -> ->])|(_ & _ & [= -> ->])]]]
    %sumEffect_cases.
  - split; [by apply effectFrame_same|done].
  - apply matchBranch_frame in Hm as [Hf Hsel]. split; [exact Hf|done].
  - split; [by apply effectFrame_same|done].
  - split; [by apply effectFrame_same|done].
Qed.

(** After a match the second run finds an empty selection. *)
Lemma sumEffect_no_selection entropy s :
  selectedIds s = [] → sumEffect entropy s = Some (setCurrentSum 0 s, false).
Proof.
  intros Hsel. unfold sumEffect, selectedSum.
  rewrite Hsel, selectedBlocks_nil, sumValues_nil. done.
Qed.

Lemma runEffects_inv entropy s s' :
  runEffects entropy s = Some s' →
  ∃ s1 again, sumEffect entropy s = Some (s1, again) ∧
              s' = if again then setCurrentSum 0 s1 else s1.
Proof.
  unfold runEffects.
  destruct (sumEffect entropy s) as [[s1 again]|] eqn:Heff; [|done].
  cbn [mbind option_bind fst snd]. intros Hrun. exists s1, again.
  split; [reflexivity|]. destruct again; [|by injection Hrun].
  apply sumEffect_frame in Heff as [_ Hsel].
  rewrite (sumEffect_no_selection entropy s1 (Hsel eq_refl)) in Hrun.
  by injection Hrun.
Qed.

Lemma runEffects_frame entropy s s' :
  runEffects entropy s = Some s' → effectFrame s s'.
Proof.
  intros (s1 & again & Heff & ->)%runEffects_inv.
  apply sumEffect_frame in Heff as [Hf _].
  destruct again; [|exact Hf].
  eapply effectFrame_trans; [exact Hf|]. by apply effectFrame_same.
Qed.

(** ** No faults on well-formed states *)

Lemma sumEffect_total entropy s :
  wellFormed s →
  ∃ s' again, sumEffect entropy s = Some (s', again) ∧ wellFormed s'.
Proof.
  intros [[Hnil|Hs] Hmode].
  - exists (setCurrentSum 0 s), false. split.
    + unfold sumEffect, selectedSum. rewrite Hnil. done.
    + split; [by left|exact Hmode].
  - unfold sumEffect.
    destruct (selectedSum s =? 0); [|destruct (selectedSum s =? target s)].
    + eexists _, _. split; [reflexivity|]. split; [by right|done].
    + destruct (matchBranch_total entropy (setCurrentSum (selectedSum s) s) Hs)
        as (s' & -> & Hs').
      cbn [mbind option_bind]. eexists _, _. split; [reflexivity|].
      split; [by right|done].
    + destruct (target s <? selectedSum s);
        (eexists _, _; split; [reflexivity|]; split; [by right|done]).
Qed.

Lemma runEffects_total entropy s :
  wellFormed s → ∃ s', runEffects entropy s = Some s' ∧ wellFormed s'.
Proof.
  intros Hwf. destruct (sumEffect_total entropy s Hwf)
    as (s1 & again & Heff & Hwf1).
  unfold runEffects. rewrite Heff. cbn [mbind option_bind fst snd].
  destruct again; [|by eauto].
  destruct (sumEffect_total entropy s1 Hwf1) as (s2 & again2 & -> & Hwf2).
  cbn [mbind option_bind fst snd]. eauto.
Qed.

(** ** Events *)

Lemma initGame_inv entropy m s s' :
  initGame entropy m s = Some s' →
  ∃ g d', initGrid entropy (drawn s) = Some (g, d') ∧ shape g ∧
          mode s' = Some m ∧ grid s' = g ∧ score s' = 0 ∧
          target s' = getRandomTarget (random entropy d') ∧
          selectedIds s' = [] ∧ isGameOver s' = false ∧
          timeLeft s' = TIME_LIMIT ∧ isPaused s' = false.
Proof.
  unfold initGame.
  destruct (initGrid_spec entropy (drawn s)) as (g & Hinit & Hs & _).
  rewrite Hinit. cbn [mbind option_bind fst snd]. intros [= <-].
  exists g. eexists. split; [reflexivity|]. clear Hinit.
  split; [exact Hs|]. repeat split.
Qed.

Lemma initGame_total entropy m s : is_Some (initGame entropy m s).
Proof.
  unfold initGame.
  destruct (initGrid_spec entropy (drawn s)) as (g & -> & _).
  cbn [mbind option_bind]. eauto.
Qed.

Lemma tick_inv entropy s s' :
  tick entropy s = Some s' →
  (1 < timeLeft s ∧ s' = setTimeLeft (timeLeft s - 1) s) ∨
  (timeLeft s ≤ 1 ∧
   ∃ s1, addRow entropy s = Some s1 ∧
         ((isGameOver s1 = true ∧ s' = setTimeLeft TIME_LIMIT s1) ∨
          (isGameOver s1 = false ∧
           runEffects entropy (setTimeLeft TIME_LIMIT s1) = Some s'))).
Proof.
  unfold tick. destruct (Z.leb_spec (timeLeft s) 1) as [Hle|Hgt].
  - destruct (addRow entropy s) as [s1|]; [|done].
    cbn [mbind option_bind]. intros Hrun. right. split; [done|].
    exists s1. split; [done|]. destruct (isGameOver s1).
    + left. split; [done|]. by injection Hrun.
    + right. done.
  - intros [= <-]. left. done.
Qed.

Lemma timerArmed_true s :
  timerArmed s = true ↔
  mode s = Some TIME ∧ isGameOver s = false ∧ isPaused s = false.
Proof.
  unfold timerArmed. rewrite !andb_true_iff, !negb_true_iff.
  rewrite bool_decide_eq_true. tauto.
Qed.

Lemma step_total entropy s e :
  wellFormed s → ∃ s', step entropy s e = Some s' ∧ wellFormed s'.
Proof.
  intros Hwf. pose proof Hwf as [Hgrid Hmode]. destruct e; simpl.
  - destruct (initGame_total entropy selectedMode s) as [s1 Hinit].
    rewrite Hinit. cbn [mbind option_bind]. apply runEffects_total.
    apply initGame_inv in Hinit as (g & d' & _ & Hs & _ & Hg & _).
    rewrite <- Hg in Hs. split; [by right|done].
  - destruct (mode s) eqn:Hm; [|by eauto].
    apply runEffects_total. split; [exact Hgrid|done].
  - destruct (isGameOver s || isPaused s); [by eauto|].
    apply runEffects_total. unfold handleBlockClick.
    destruct (isGameOver s || isPaused s); exact Hwf.
  - eauto.
  - eauto.
  - destruct (timerArmed s) eqn:Harm; [|by eauto].
    apply timerArmed_true in Harm as (Hm & _ & _).
    assert (shape (grid s)) as Hs by (apply Hmode; congruence).
    unfold tick. destruct (timeLeft s <=? 1).
    + destruct (addRow_total entropy s Hs) as (s1 & Hadd & Hs1).
      rewrite Hadd. cbn [mbind option_bind].
      assert (wellFormed (setTimeLeft TIME_LIMIT s1)) as Hwf1
        by (split; [by right|done]).
      destruct (isGameOver s1); [by eauto|]. by apply runEffects_total.
    + eexists. split; [reflexivity|exact Hwf].
  - destruct (timeouts s) as [|t rest]; [by eauto|].
    apply runEffects_total. exact Hwf.
Qed.

Lemma run_app entropy s ev1 ev2 :
  run entropy s (ev1 ++ ev2) =
    run entropy s ev1 ≫= λ s', run entropy s' ev2.
Proof.
  revert s. induction ev1 as [|e ev1 IH]; intros s; [done|].
  simpl. destruct (step entropy s e) as [s1|]; [|done]. simpl. apply IH.
Qed.

(** Whatever every event keeps holds along every run. *)
Lemma run_invariant (P : State → Prop) entropy :
  (∀ s e s', P s → step entropy s e = Some s' → P s') →
  ∀ events s s', P s → run entropy s events = Some s' → P s'.
Proof.
  intros Hstep. induction events as [|e events IH]; intros s s' HP.
  - by intros [= <-].
  - simpl. destruct (step entropy s e) as [s1|] eqn:He; [|done].
    simpl. apply IH. by eapply Hstep.
Qed.

Lemma run_total entropy s events :
  wellFormed s → ∃ s', run entropy s events = Some s' ∧ wellFormed s'.
Proof.
  revert s. induction events as [|e events IH]; intros s Hwf; [by eauto|].
  destruct (step_total entropy s e Hwf) as (s1 & He & Hwf1).
  simpl. rewrite He. simpl. by apply IH.
Qed.

Lemma initialState_wellFormed : wellFormed initialState.
Proof. split; [by left|done]. Qed.

Lemma reachable_wellFormed entropy s : reachable entropy s → wellFormed s.
Proof.
  intros [events Hrun].
  destruct (run_total entropy initialState events initialState_wellFormed)
    as (s' & Hrun' & Hwf).
  congruence.
Qed.

(** Every event keeps [timeLeft] between 1 and [TIME_LIMIT]. *)
Lemma step_timeLeft entropy s e s' :
  1 ≤ timeLeft s ≤ TIME_LIMIT → step entropy s e = Some s' →
  1 ≤ timeLeft s' ≤ TIME_LIMIT.
Proof.
  intros Hrange. destruct e; simpl.
  - destruct (initGame entropy selectedMode s) as [s1|] eqn:Hinit; [|done].
    cbn [mbind option_bind].
    intros (Htl & _)%runEffects_frame.
    apply initGame_inv in Hinit as (g & d' & _ & _ & _ & _ & _ & _ & _ & _ & Hi & _).
    rewrite Htl, Hi. unfold TIME_LIMIT. lia.
  - destruct (mode s); [|by intros [= <-]].
    intros (Htl & _)%runEffects_frame. by rewrite Htl.
  - destruct (isGameOver s || isPaused s) eqn:Hg; [by intros [= <-]|].
    intros (Htl & _)%runEffects_frame. rewrite Htl.
    unfold handleBlockClick. rewrite Hg. exact Hrange.
  - by intros [= <-].
  - by intros [= <-].
  - destruct (timerArmed s); [|by intros [= <-]].
    intros [[Hgt ->]|(Hle & s1 & Hadd & [[_ ->]|[_ Hrun]])]%tick_inv.
    + simpl. lia.
    + simpl. unfold TIME_LIMIT. lia.
    + apply runEffects_frame in Hrun as (Htl & _). rewrite Htl. simpl.
      unfold TIME_LIMIT. lia.
  - destruct (timeouts s) as [|t rest]; [by intros [= <-]|].
    intros (Htl & _)%runEffects_frame. by rewrite Htl.
Qed.

(** Every event keeps the target at 0 (no game yet) or in its range. *)
Lemma step_target entropy s e s' :
  target s = 0 ∨ TARGET_MIN ≤ target s ≤ TARGET_MAX →
  step entropy s e = Some s' →
  target s' = 0 ∨ TARGET_MIN ≤ target s' ≤ TARGET_MAX.
Proof.
  intros Hrange.
  assert (∀ s0 s1, target s0 = target s → runEffects entropy s0 = Some s1 →
            target s1 = 0 ∨ TARGET_MIN ≤ target s1 ≤ TARGET_MAX) as Heff.
  { intros s0 s1 Heq (_ & _ & _ & _ & [Htg|Htg] & _)%runEffects_frame.
    - by rewrite Htg, Heq.
    - by right. }
  destruct e; simpl.
  - destruct (initGame entropy selectedMode s) as [s1|] eqn:Hinit; [|done].
    cbn [mbind option_bind].
    intros (_ & _ & _ & _ & [Htg|Htg] & _)%runEffects_frame; [|by right].
    apply initGame_inv in Hinit
      as (g & d' & _ & _ & _ & _ & _ & Hi & _).
    right. rewrite Htg, Hi. apply getRandomTarget_range.
  - destruct (mode s); [|by intros [= <-]]. by apply Heff.
  - destruct (isGameOver s || isPaused s) eqn:Hg; [by intros [= <-]|].
    apply Heff. unfold handleBlockClick. by rewrite Hg.
  - by intros [= <-].
  - by intros [= <-].
  - destruct (timerArmed s); [|by intros [= <-]].
    intros [[Hgt ->]|(Hle & s1 & Hadd & Hrest)]%tick_inv; [done|].
    apply addRow_inv in Hadd
      as (_ & _ & _ & _ & _ & _ & _ & _ & _ & _ & _ & Htg & _).
    destruct Hrest as [[_ ->]|[_ Hrun]].
    + simpl. by rewrite Htg.
    + revert Hrun. apply Heff. simpl. exact Htg.
  - destruct (timeouts s) as [|t rest]; [by intros [= <-]|]. by apply Heff.
Qed.

Lemma reachable_target entropy s :
  reachable entropy s → target s = 0 ∨ TARGET_MIN ≤ target s ≤ TARGET_MAX.
Proof.
  intros [events Hrun].
  refine (run_invariant _ entropy (step_target entropy) events _ _ _ Hrun).
  by left.
Qed.

(** In a started game ([mode] is chosen) the target is one that
    [getRandomTarget] drew. *)
Lemma step_started_target entropy s e s' :
  (mode s ≠ None → TARGET_MIN ≤ target s ≤ TARGET_MAX) →
  step entropy s e = Some s' →
  mode s' ≠ None → TARGET_MIN ≤ target s' ≤ TARGET_MAX.
Proof.
  intros Hrange.
  assert (∀ s0 s1, target s0 = target s → mode s0 = mode s →
            runEffects entropy s0 = Some s1 →
            mode s1 ≠ None → TARGET_MIN ≤ target s1 ≤ TARGET_MAX) as Heff.
  { intros s0 s1 Heq Hmeq (_ & Hm & _ & _ & [Htg|Htg] & _)%runEffects_frame
      Hstarted; [|exact Htg].
    rewrite Htg, Heq. apply Hrange. by rewrite <- Hmeq, <- Hm. }
  destruct e; simpl.
  - destruct (initGame entropy selectedMode s) as [s1|] eqn:Hinit; [|done].
    cbn [mbind option_bind].
    intros (_ & _ & _ & _ & [Htg|Htg] & _)%runEffects_frame _; [|exact Htg].
    apply initGame_inv in Hinit
      as (g & d' & _ & _ & _ & _ & _ & Hi & _).
    rewrite Htg, Hi. apply getRandomTarget_range.
  - destruct (mode s) eqn:Hm; [|intros [= <-]; congruence].
    intros (_ & Hm' & _)%runEffects_frame Hstarted. simpl in Hm'. congruence.
  - destruct (isGameOver s || isPaused s) eqn:Hg; [by intros [= <-]|].
    apply Heff; unfold handleBlockClick; by rewrite Hg.
  - by intros [= <-].
  - by intros [= <-].
  - destruct (timerArmed s); [|by intros [= <-]].
    intros [[Hgt ->]|(Hle & s1 & Hadd & Hrest)]%tick_inv; [done|].
    apply addRow_inv in Hadd
      as (_ & _ & _ & _ & _ & _ & _ & _ & _ & Hm & _ & Htg & _).
    destruct Hrest as [[_ ->]|[_ Hrun]].
    + simpl. rewrite Htg, Hm. exact Hrange.
    + revert Hrun. apply Heff; simpl; done.
  - destruct (timeouts s) as [|t rest]; [by intros [= <-]|]. by apply Heff.
Qed.

Lemma reachable_started_target entropy s :
  reachable entropy s → mode s ≠ None →
  TARGET_MIN ≤ target s ≤ TARGET_MAX.
Proof.
  intros [events Hrun].
  refine (run_invariant (λ s, mode s ≠ None → TARGET_MIN ≤ target s ≤ TARGET_MAX)
            entropy (step_started_target entropy) events _ _ _ Hrun).
  done.
Qed.

(** ** Game over is terminal *)

Lemma step_gameOver entropy s e s' :
  isGameOver s = true → step entropy s e = Some s' →
  isGameOver s' = false → ∃ m, e = StartGame m.
Proof.
  intros Hover Hstep Hopen.
  assert (∀ s0 s1, isGameOver s0 = true → runEffects entropy s0 = Some s1 →
            isGameOver s1 = true) as Heff.
  { intros s0 s1 H0 (_ & _ & _ & Hg & _)%runEffects_frame. by apply Hg. }
  destruct e; simpl in Hstep.
  - by eexists.
  - exfalso. destruct (mode s).
    + apply Heff in Hstep; [congruence|done].
    + injection Hstep as <-. congruence.
  - exfalso. rewrite Hover in Hstep. injection Hstep as <-. congruence.
  - exfalso. injection Hstep as <-. simpl in Hopen. congruence.
  - exfalso. injection Hstep as <-. simpl in Hopen. congruence.
  - exfalso. unfold timerArmed in Hstep. rewrite Hover in Hstep.
    rewrite andb_false_r in Hstep. injection Hstep as <-. congruence.
  - exfalso. destruct (timeouts s) as [|t rest].
    + injection Hstep as <-. congruence.
    + apply Heff in Hstep; [congruence|done].
Qed.

Lemma run_gameOver entropy events s s' :
  isGameOver s = true → run entropy s events = Some s' →
  isGameOver s' = false → ∃ m, StartGame m ∈ events.
Proof.
  revert s. induction events as [|e events IH]; intros s Hover.
  - intros [= <-]. congruence.
  - simpl. destruct (step entropy s e) as [s1|] eqn:He; [|done]. simpl.
    intros Hrun Hopen. destruct (isGameOver s1) eqn:H1.
    + destruct (IH s1 H1 Hrun Hopen) as [m Hm]. exists m. by right.
    + destruct (step_gameOver entropy s e s1 Hover He H1) as [m ->].
      exists m. by left.
Qed.

(** ** The match branch in detail *)

Lemma sameBlock_id b b' : sameBlock b b' → id b = id b'.
Proof. intros H. apply (f_equal id) in H. exact H. Qed.

Lemma removeSelected_holds sel g c k :
  holds (removeSelected sel g) c k ↔ holds g c k ∧ id k ∉ sel.
Proof.
  unfold holds. split.
  - intros (r & b & [Hb Hsel]%removeSelected_block & Hsame).
    split; [by eauto|]. by rewrite (sameBlock_id _ _ Hsame).
  - intros [(r & b & Hb & Hsame) Hsel]. exists r, b. split; [|done].
    apply removeSelected_block. split; [done|].
    by rewrite <- (sameBlock_id _ _ Hsame).
Qed.

Lemma sumEffect_match entropy s :
  selectedSum s = target s → selectedSum s ≠ 0 →
  sumEffect entropy s =
    matchBranch entropy (setCurrentSum (selectedSum s) s) ≫= λ s', Some (s', true).
Proof.
  intros Heq Hne. unfold sumEffect.
  rewrite (proj2 (Z.eqb_neq _ _) Hne). by rewrite (proj2 (Z.eqb_eq _ _) Heq).
Qed.

(** ** Overshoot and its timeout *)

Lemma sumEffect_overshoot entropy s :
  target s < selectedSum s → selectedSum s ≠ 0 →
  sumEffect entropy s =
    Some (overshootBranch (setCurrentSum (selectedSum s) s), false).
Proof.
  intros Hlt Hne. unfold sumEffect.
  rewrite (proj2 (Z.eqb_neq _ _) Hne).
  rewrite (proj2 (Z.eqb_neq (selectedSum s) (target s))) by lia.
  by rewrite (proj2 (Z.ltb_lt _ _) Hlt).
Qed.

Lemma runEffects_no_selection entropy s :
  selectedIds s = [] → runEffects entropy s = Some (setCurrentSum 0 s).
Proof.
  intros Hsel. unfold runEffects.
  by rewrite (sumEffect_no_selection entropy s Hsel).
Qed.

Lemma step_shakeTimeout entropy s t rest :
  timeouts s = t :: rest →
  step entropy s ShakeTimeout =
    Some (setCurrentSum 0 (shakeTimeout (setTimeouts rest s))).
Proof.
  intros Ht. simpl. rewrite Ht. by apply runEffects_no_selection.
Qed.

(** Once the pending timeouts have fired, up to and including the [k]-th,
    the selection is empty; the grid and the score are as before. *)
Lemma run_shakeTimeouts entropy k s :
  (k < length (timeouts s))%nat →
  ∃ s', run entropy s (replicate (S k) ShakeTimeout) = Some s' ∧
        selectedIds s' = [] ∧ grid s' = grid s ∧ score s' = score s ∧
        timeouts s' = drop (S k) (timeouts s).
Proof.
  revert s. induction k as [|k IH]; intros s Hk.
  - destruct (timeouts s) as [|t rest] eqn:Ht; [simpl in Hk; lia|].
    eexists. simpl replicate. cbn [run].
    rewrite (step_shakeTimeout entropy s t rest Ht). simpl.
    split; [reflexivity|]. by rewrite drop_0.
  - destruct (timeouts s) as [|t rest] eqn:Ht; [simpl in Hk; lia|].
    change (replicate (S (S k)) ShakeTimeout)
      with (ShakeTimeout :: replicate (S k) ShakeTimeout).
    cbn [run]. rewrite (step_shakeTimeout entropy s t rest Ht).
    cbn [mbind option_bind].
    destruct (IH (setCurrentSum 0 (shakeTimeout (setTimeouts rest s))))
      as (s' & Hrun & Hsel & Hg & Hsc & Hto).
    { simpl in *. lia. }
    exists s'. split; [exact Hrun|]. split; [exact Hsel|].
    split; [exact Hg|]. split; [exact Hsc|]. exact Hto.
Qed.

(** ** Selections that agree on the ids of the grid *)

Lemma rewarded_selection entropy s sel sel' g1 :
  (∀ j, j ∈ gridIds (grid s) → (j ∈ sel ↔ j ∈ sel')) →
  setSelectedIds [] (setGrid g1 (rewarded entropy (setSelectedIds sel s))) =
  setSelectedIds [] (setGrid g1 (rewarded entropy (setSelectedIds sel' s))).
Proof.
  intros Hagree. unfold rewarded, setSelectedIds, setGrid, setDrawn, setTarget,
    setScore.
  cbn [mode grid score target selectedIds isGameOver timeLeft isPaused
       isShaking currentSum timeouts drawn addRowCalls].
  by rewrite (selectedBlocks_ext (grid s) sel sel' Hagree).
Qed.

Lemma matchBranch_selection entropy s sel sel' :
  (∀ j, j ∈ gridIds (grid s) → (j ∈ sel ↔ j ∈ sel')) →
  matchBranch entropy (setSelectedIds sel s) =
  matchBranch entropy (setSelectedIds sel' s).
Proof.
  intros Hagree. unfold matchBranch.
  cbn [mode grid selectedIds setSelectedIds].
  rewrite (removeSelected_ext (grid s) sel sel' Hagree).
  destruct (applyGravity (removeSelected sel' (grid s))) as [[g1 ch]|]; [|done].
  cbn [mbind option_bind fst].
  by rewrite (rewarded_selection entropy s sel sel' g1 Hagree).
Qed.

Lemma sumEffect_selection entropy s sel sel' :
  (∀ j, j ∈ gridIds (grid s) → (j ∈ sel ↔ j ∈ sel')) →
  eraseSelection <$> sumEffect entropy (setSelectedIds sel s) =
  eraseSelection <$> sumEffect entropy (setSelectedIds sel' s).
Proof.
  intros Hagree. unfold sumEffect, selectedSum. cbn [grid selectedIds target setSelectedIds].
  rewrite (selectedBlocks_ext (grid s) sel sel' Hagree).
  set (sum := sumValues (selectedBlocks (grid s) sel')).
  destruct (sum =? 0); [done|]. destruct (sum =? target s).
  - change (setCurrentSum sum (setSelectedIds ?l s))
      with (setSelectedIds l (setCurrentSum sum s)).
    by rewrite (matchBranch_selection entropy (setCurrentSum sum s) sel sel'
                  Hagree).
  - destruct (target s <? sum); done.
Qed.

(** ** Ticks *)

Lemma run_ticks entropy k s :
  timerArmed s = true → Z.of_nat k < timeLeft s →
  run entropy s (replicate k Tick)
    = Some (setTimeLeft (timeLeft s - Z.of_nat k) s).
Proof.
  revert s. induction k as [|k IH]; intros s Harm Hk.
  - simpl. rewrite Z.sub_0_r. by destruct s.
  - change (replicate (S k) Tick) with (Tick :: replicate k Tick).
    cbn [run step]. rewrite Harm. unfold tick.
    rewrite (proj2 (Z.leb_gt _ _)) by lia. cbn [mbind option_bind].
    rewrite IH; [|exact Harm|simpl; lia].
    apply (f_equal Some). unfold setTimeLeft.
    cbn [mode grid score target selectedIds isGameOver timeLeft isPaused
         isShaking currentSum timeouts drawn addRowCalls].
    f_equal. lia.
Qed.

(** ** The grids of the component's states *)

Lemma reachableGrid_positionsOK ok g : reachableGrid ok g → positionsOK g.
Proof.
  induction 1 as [entropy d g d' Hinit _|entropy d g g' over d' Hreach IH Hrun _
                 |sel g _ IH|g g' changed _ IH Hrun].
  - exact (initGrid_positionsOK _ _ _ _ Hinit).
  - exact (addRowUpdater_positionsOK _ _ _ _ _ _
             (reachableGrid_shape _ _ Hreach) Hrun IH).
  - by apply removeSelected_positionsOK.
  - exact (applyGravity_positionsOK _ _ _ Hrun IH).
Qed.

Lemma addRow_grid entropy s s' :
  addRow entropy s = Some s' →
  grid s = [] ∨ reachableGrid anyIds (grid s) →
  reachableGrid anyIds (grid s').
Proof.
  intros (g' & over & d' & Hup & <- & _)%addRow_inv [Hnil|Hreach].
  - rewrite Hnil, addRowUpdater_nil in Hup. discriminate.
  - exact (reach_addRow anyIds entropy _ _ _ _ _ Hreach Hup I).
Qed.

Lemma matchBranch_grid entropy s s' :
  matchBranch entropy s = Some s' →
  grid s = [] ∨ reachableGrid anyIds (grid s) →
  reachableGrid anyIds (grid s').
Proof.
  intros (g1 & ch & Hgrav & Hrest)%matchBranch_inv [Hnil|Hreach].
  { rewrite Hnil in Hgrav. change (removeSelected (selectedIds s) []) with
      (@nil (list (option BlockData))) in Hgrav.
    rewrite applyGravity_nil in Hgrav. discriminate. }
  assert (reachableGrid anyIds g1) as H1.
  { eapply reach_gravity; [|exact Hgrav]. by apply reach_remove. }
  destruct Hrest as [[_ Hadd]|[_ ->]].
  - apply (addRow_grid _ _ _ Hadd). right. exact H1.
  - exact H1.
Qed.

Lemma runEffects_grid entropy s s' :
  runEffects entropy s = Some s' →
  grid s = [] ∨ reachableGrid anyIds (grid s) →
  grid s' = [] ∨ reachableGrid anyIds (grid s').
Proof.
  intros (s1 & again & Heff & ->)%runEffects_inv Hgrid.
  assert (grid s1 = [] ∨ reachableGrid anyIds (grid s1)) as H1.
  { apply sumEffect_cases in Heff
      as [(_ & [= -> _])|[(_ & _ & s2 & Hm & [= -> _])
                         |[(_ & _ & [= -> _])|(_ & _ & [= -> _])]]].
    - exact Hgrid.
    - right. exact (matchBranch_grid _ _ _ Hm Hgrid).
    - exact Hgrid.
    - exact Hgrid. }
  by destruct again.
Qed.

Lemma step_grid entropy s e s' :
  grid s = [] ∨ reachableGrid anyIds (grid s) →
  step entropy s e = Some s' →
  grid s' = [] ∨ reachableGrid anyIds (grid s').
Proof.
  intros Hgrid. destruct e; simpl.
  - destruct (initGame entropy selectedMode s) as [s1|] eqn:Hinit; [|done].
    cbn [mbind option_bind]. intros Hrun.
    apply (runEffects_grid _ _ _ Hrun). right.
    apply initGame_inv in Hinit as (g & d' & Hinit & _ & _ & -> & _).
    exact (reach_init anyIds entropy _ _ _ Hinit I).
  - destruct (mode s); [|by intros [= <-]].
    intros Hrun. exact (runEffects_grid _ _ _ Hrun Hgrid).
  - destruct (isGameOver s || isPaused s) eqn:Hg; [by intros [= <-]|].
    intros Hrun. apply (runEffects_grid _ _ _ Hrun).
    unfold handleBlockClick. by rewrite Hg.
  - by intros [= <-].
  - by intros [= <-].
  - destruct (timerArmed s); [|by intros [= <-]].
    intros [[_ ->]|(_ & s1 & Hadd & Hrest)]%tick_inv; [exact Hgrid|].
    pose proof (addRow_grid _ _ _ Hadd Hgrid) as H1.
    destruct Hrest as [[_ ->]|[_ Hrun]]; [by right|].
    apply (runEffects_grid _ _ _ Hrun). by right.
  - destruct (timeouts s) as [|t rest]; [by intros [= <-]|].
    intros Hrun. exact (runEffects_grid _ _ _ Hrun Hgrid).
Qed.

(** The grid of every state of the component is the empty array of the
    first render or one that the grid operations produce; so the [row] and
    [col] fields of its blocks are their positions. *)
Lemma reachable_grid entropy s :
  reachable entropy s → grid s = [] ∨ reachableGrid anyIds (grid s).
Proof.
  intros [events Hrun].
  refine (run_invariant _ entropy (step_grid entropy) events _ _ _ Hrun).
  by left.
Qed.

Lemma reachable_positionsOK entropy s :
  reachable entropy s → positionsOK (grid s).
Proof.
  intros [Hnil|Hreach]%reachable_grid.
  - rewrite Hnil. intros r c b Hb. unfold readCell in Hb.
    by rewrite lookup_nil in Hb.
  - exact (reachableGrid_positionsOK _ _ Hreach).
Qed.

(** * The claims *)

(** ** C1: positions and ids of the blocks *)

Lemma sampleGrid_init : initGrid sampleEntropy 0 = Some (sampleGrid, 48%nat).
Proof. vm_compute. reflexivity. Qed.

Lemma collidingGrid_init :
  initGrid collidingEntropy 0 = Some (collidingGrid, 48%nat).
Proof. vm_compute. reflexivity. Qed.

(** C1, as amended: in every grid produced by [initGame]'s fill, [addRow]'s
    updater, the removal of matched blocks and [applyGravity], each
    occupied cell [(r, c)] holds a block with [row = r] and [col = c]; and
    no two occupied cells hold blocks with the same id provided every id
    that [generateId] returned was new (different from the ids in the grid
    and from the other ids generated with it). *)
Theorem C1_grid_invariant ok g :
  reachableGrid ok g →
  positionsOK g ∧
  ((∀ entropy d n known, ok entropy d n known → freshIds entropy d n known) →
   uniqueIds g).
Proof.
  induction 1 as [entropy d g d' Hinit Hok
                 |entropy d g g' over d' Hreach [IHp IHu] Hrun Hok
                 |sel g Hreach [IHp IHu]
                 |g g' changed Hreach [IHp IHu] Hrun].
  - split.
    + exact (initGrid_positionsOK _ _ _ _ Hinit).
    + intros Hfresh. exact (initGrid_uniqueIds _ _ _ _ Hinit (Hfresh _ _ _ _ Hok)).
  - pose proof (reachableGrid_shape _ _ Hreach) as Hs. split.
    + exact (addRowUpdater_positionsOK _ _ _ _ _ _ Hs Hrun IHp).
    + intros Hfresh.
      exact (addRowUpdater_uniqueIds _ _ _ _ _ _ Hs Hrun
               (Hfresh _ _ _ _ Hok) (IHu Hfresh)).
  - split.
    + by apply removeSelected_positionsOK.
    + intros Hfresh. apply removeSelected_uniqueIds. by apply IHu.
  - split.
    + exact (applyGravity_positionsOK _ _ _ Hrun IHp).
    + intros Hfresh. exact (applyGravity_uniqueIds _ _ _ Hrun (IHu Hfresh)).
Qed.

Lemma sampleGrid_fresh :
  freshIds sampleEntropy 0 (GRID_COLS * INITIAL_ROWS) [].
Proof.
  split.
  - apply (bool_decide_eq_true_1 (NoDup _)). vm_compute. reflexivity.
  - intros i _. apply not_elem_of_nil.
Qed.

Lemma C1_grid_invariant_witness :
  reachableGrid freshIds sampleGrid ∧
  positionsOK sampleGrid ∧ uniqueIds sampleGrid.
Proof.
  assert (reachableGrid freshIds sampleGrid) as Hreach.
  { exact (reach_init freshIds sampleEntropy 0 sampleGrid 48
             sampleGrid_init sampleGrid_fresh). }
  split; [exact Hreach|].
  destruct (C1_grid_invariant freshIds sampleGrid Hreach) as [Hp Hu].
  split; [exact Hp|]. apply Hu. intros entropy d n known Hok. exact Hok.
Defined.

(** C1 as stated fails: when [Math.random()] returns 0.5 at every call,
    [initGame] builds a grid in which the cells (9,0) and (9,1) both hold
    a block with id ["i"]. *)
Lemma C1_ids_collide :
  reachableGrid anyIds collidingGrid ∧
  (∃ b b', readCell collidingGrid 9 0 = Some (Some b) ∧
           readCell collidingGrid 9 1 = Some (Some b') ∧
           id b = "i"%string ∧ id b' = "i"%string) ∧
  ¬ uniqueIds collidingGrid.
Proof.
  assert (readCell collidingGrid 9 0 = Some (Some (mkBlock "i" 5 9 0 false)))
    as H0 by (vm_compute; reflexivity).
  assert (readCell collidingGrid 9 1 = Some (Some (mkBlock "i" 5 9 1 false)))
    as H1 by (vm_compute; reflexivity).
  split; [|split].
  - exact (reach_init anyIds collidingEntropy 0 collidingGrid 48
             collidingGrid_init I).
  - eexists _, _. split; [exact H0|]. split; [exact H1|]. split; reflexivity.
  - intros Hu. destruct (Hu _ _ _ _ _ _ H0 H1 eq_refl) as [_ Hc]. discriminate.
Qed.

(** ** C2: row injection *)

(** C2: on a 10 x 6 grid, if the top row holds a block, [addRow] leaves the
    grid as it is and sets [isGameOver]; if the top row is empty, every row
    [r < 9] receives the cells of row [r + 1]: a block arrives with its
    [row] field equal to [r] and its other fields as they were, an empty
    cell arrives empty; the bottom row holds in each column [c] a new block
    with [row] 9, [col] [c], [isSelected] false, and the id and the value of
    the next two draws; and every column holds one block more than
    before. *)
Theorem C2_addRow entropy s :
  shape (grid s) →
  ((∃ c b, readCell (grid s) 0 c = Some (Some b)) →
   ∃ s', addRow entropy s = Some s' ∧ grid s' = grid s ∧
         isGameOver s' = true) ∧
  ((∀ c, (c < GRID_COLS)%nat → readCell (grid s) 0 c = Some None) →
   ∃ s', addRow entropy s = Some s' ∧ shape (grid s') ∧
         isGameOver s' = isGameOver s ∧
         (∀ r c b, (r < GRID_ROWS - 1)%nat → (c < GRID_COLS)%nat →
            readCell (grid s) (S r) c = Some (Some b) →
            readCell (grid s') r c =
              Some (Some {| id := id b; value := value b; row := r;
                            col := col b; isSelected := isSelected b |})) ∧
         (∀ r c, (r < GRID_ROWS - 1)%nat → (c < GRID_COLS)%nat →
            readCell (grid s) (S r) c = Some None →
            readCell (grid s') r c = Some None) ∧
         (∀ c, (c < GRID_COLS)%nat →
            readCell (grid s') (GRID_ROWS - 1) c =
              Some (Some {| id := generateId (random entropy (drawn s + 2 * c));
                            value :=
                              getRandomValue
                                (random entropy (S (drawn s + 2 * c)));
                            row := GRID_ROWS - 1; col := c;
                            isSelected := false |})) ∧
         (∀ c, (c < GRID_COLS)%nat →
            blockCount (grid s') c = S (blockCount (grid s) c))).
Proof.
  intros Hs. split.
  - intros Htop%topRowOccupied_true.
    destruct (addRow_total entropy s Hs) as (s' & Hadd & _).
    exists s'. split; [exact Hadd|].
    apply addRow_inv in Hadd as (g' & over & d' & Hup & Hg & _ & _ & Hover & _).
    rewrite (addRowUpdater_overflow _ _ _ Htop) in Hup.
    injection Hup as <- <- <-. split; [exact Hg|]. by rewrite Hover.
  - intros Hempty. pose proof Hempty as Htop%topRowOccupied_false; [|exact Hs].
    destruct (addRow_total entropy s Hs) as (s' & Hadd & Hs').
    exists s'. split; [exact Hadd|]. split; [exact Hs'|].
    apply addRow_inv in Hadd as (g' & over & d' & Hup & Hg & _ & _ & Hover & _).
    destruct (addRowUpdater_shift entropy (drawn s) (grid s) Hs Htop)
      as (g2 & Hup2 & _ & Hread).
    rewrite Hup2 in Hup. injection Hup as <- <- <-. rewrite Hg.
    split; [by rewrite Hover|]. split; [|split; [|split]].
    + intros r c b Hr Hc Hb.
      rewrite Hread by (unfold GRID_ROWS in *; lia || done).
      rewrite decide_True by done. rewrite Hb. reflexivity.
    + intros r c Hr Hc Hb.
      rewrite Hread by (unfold GRID_ROWS in *; lia || done).
      rewrite decide_True by done. rewrite Hb. reflexivity.
    + intros c Hc. rewrite Hread by (unfold GRID_ROWS in *; lia || done).
      by rewrite decide_False by lia.
    + intros c Hc. exact (addRow_blockCount _ _ _ _ _ Hread Hc (Hempty c Hc)).
Qed.

Lemma C2_addRow_witness :
  shape (grid (startedState sampleEntropy TIME)) ∧
  ∃ s', addRow sampleEntropy (startedState sampleEntropy TIME) = Some s' ∧
        shape (grid s') ∧
        (∀ c, (c < GRID_COLS)%nat →
           blockCount (grid s') c =
             S (blockCount (grid (startedState sampleEntropy TIME)) c)).
Proof.
  assert (shape (grid (startedState sampleEntropy TIME))) as Hs.
  { split; [vm_compute; reflexivity|]. vm_compute. repeat constructor. }
  split; [exact Hs|].
  destruct (C2_addRow sampleEntropy (startedState sampleEntropy TIME) Hs)
    as [_ Hshift].
  destruct Hshift as (s' & Hadd & Hs' & _ & _ & _ & _ & Hcount).
  - intros c Hc. unfold GRID_COLS in Hc.
    destruct c as [|[|[|[|[|[|c]]]]]]; try lia; vm_compute; reflexivity.
  - exists s'. split; [exact Hadd|]. split; [exact Hs'|exact Hcount].
Defined.

(** ** C3: gravity *)

(** C3: on a 10 x 6 grid [applyGravity] returns a grid on which a second
    [applyGravity] returns the same grid (and [changed = false]), and in
    which no block has an empty cell directly beneath it. *)
Theorem C3_gravity_idempotent g :
  shape g →
  ∃ g1 changed,
    applyGravity g = Some (g1, changed) ∧
    applyGravity g1 = Some (g1, false) ∧
    settled g1.
Proof.
  intros Hs. destruct (applyGravity_total g Hs) as (g1 & changed & Hrun & Hs1).
  exists g1, changed. split; [exact Hrun|].
  pose proof (applyGravity_settles g g1 changed Hs Hrun) as Hset.
  split; [|exact Hset]. exact (applyGravity_settled g1 Hs1 Hset).
Qed.

Lemma C3_gravity_idempotent_witness :
  shape (removeSelected ["0a4i"; "0udi"]%string sampleGrid) ∧
  ∃ g1 changed,
    applyGravity (removeSelected ["0a4i"; "0udi"]%string sampleGrid)
      = Some (g1, changed) ∧
    applyGravity g1 = Some (g1, false) ∧
    settled g1.
Proof.
  assert (shape (removeSelected ["0a4i"; "0udi"]%string sampleGrid)) as Hs.
  { split; [vm_compute; reflexivity|]. vm_compute. repeat constructor. }
  split; [exact Hs|]. exact (C3_gravity_idempotent _ Hs).
Defined.

(** ** C4: a match *)

(** C4: in a game (the target is one that [getRandomTarget] drew), when the
    values of the [n] selected blocks of the grid sum to the target, the
    effect removes exactly the blocks with a selected id and applies
    gravity (every column holds the blocks it held, less the selected ones,
    and none floats), adds [10 * n] to the score, draws a target in
    [10, 25] and empties the selection; in the classic mode [addRow] then
    acts on that grid. *)
Theorem C4_match entropy s :
  shape (grid s) →
  selectedSum s = target s →
  TARGET_MIN ≤ target s →
  ∃ s' g1 changed,
    sumEffect entropy s = Some (s', true) ∧
    applyGravity (removeSelected (selectedIds s) (grid s))
      = Some (g1, changed) ∧
    (∀ c k, holds g1 c k ↔ holds (grid s) c k ∧ id k ∉ selectedIds s) ∧
    settled g1 ∧
    (mode s ≠ Some CLASSIC → grid s' = g1) ∧
    (mode s = Some CLASSIC →
     ∃ over d', addRowUpdater entropy (S (drawn s)) g1
                  = Some (grid s', over, d')) ∧
    score s' =
      score s +
      10 * Z.of_nat (length (selectedBlocks (grid s) (selectedIds s))) ∧
    target s' = getRandomTarget (random entropy (drawn s)) ∧
    TARGET_MIN ≤ target s' ≤ TARGET_MAX ∧
    selectedIds s' = [].
Proof.
  intros Hs Hsum Htarget.
  assert (selectedSum s ≠ 0) as Hne by (unfold TARGET_MIN in *; lia).
  rewrite (sumEffect_match entropy s Hsum Hne).
  destruct (matchBranch_total entropy (setCurrentSum (selectedSum s) s) Hs)
    as (s' & Hm & _).
  rewrite Hm. cbn [mbind option_bind].
  apply matchBranch_inv in Hm as (g1 & changed & Hgrav & Hrest).
  cbn [grid selectedIds setCurrentSum] in Hgrav.
  exists s', g1, changed. split; [reflexivity|]. split; [exact Hgrav|].
  split.
  { intros c k. rewrite (applyGravity_holds _ _ _ c k Hgrav).
    apply removeSelected_holds. }
  split.
  { eapply applyGravity_settles; [|exact Hgrav]. by apply removeSelected_shape. }
  destruct Hrest as [[Hmode Hadd]|[Hmode ->]].
  - apply addRow_inv in Hadd
      as (g' & over & d' & Hup & Hg & _ & _ & _ & _ & _ & Hsc & Htg & Hsel & _).
    state_simpl.
    split; [done|]. split.
    { intros _. exists over, d'. by rewrite Hg. }
    split; [rewrite Hsc; lia|]. split; [exact Htg|].
    split; [rewrite Htg; apply getRandomTarget_range|exact Hsel].
  - state_simpl. split; [done|]. split; [done|].
    split; [lia|]. split; [reflexivity|].
    split; [apply getRandomTarget_range|reflexivity].
Qed.

Lemma C4_match_witness :
  selectedSum (matchingState TIME) = 16 ∧
  ∃ s', sumEffect sampleEntropy (matchingState TIME) = Some (s', true) ∧
        score s' = 50 ∧ selectedIds s' = [] ∧
        TARGET_MIN ≤ target s' ≤ TARGET_MAX.
Proof.
  assert (shape (grid (matchingState TIME))) as Hs.
  { split; [vm_compute; reflexivity|]. vm_compute. repeat constructor. }
  assert (selectedSum (matchingState TIME) = target (matchingState TIME))
    as Hsum by (vm_compute; reflexivity).
  assert (TARGET_MIN ≤ target (matchingState TIME)) as Htarget
    by (vm_compute; discriminate).
  split; [vm_compute; reflexivity|].
  destruct (C4_match sampleEntropy (matchingState TIME) Hs Hsum Htarget)
    as (s' & g1 & changed & Heff & _ & _ & _ & _ & _ & Hsc & _ & Htg & Hsel).
  exists s'. split; [exact Heff|]. split; [|split; [exact Hsel|exact Htg]].
  rewrite Hsc. vm_compute. reflexivity.
Defined.

(** ** C5: a match in the classic mode *)

(** C5, as amended: in the classic mode the effect's success branch calls
    [addRow] once, on the grid left by the removal and gravity; if the top
    row of that grid holds a block, the resulting state has [isGameOver]
    set and keeps that grid, and no sequence of events without [initGame]
    leads back to a running game.  The match's updates are made all the
    same: [setScore] and [setTarget] ran before [addRow], so the state of
    the finished game has the score raised by [10 * n] and the target of a
    new draw. *)
Theorem C5_classic_escalation entropy s :
  shape (grid s) →
  mode s = Some CLASSIC →
  selectedSum s = target s →
  TARGET_MIN ≤ target s →
  ∃ s' g1 changed,
    sumEffect entropy s = Some (s', true) ∧
    applyGravity (removeSelected (selectedIds s) (grid s))
      = Some (g1, changed) ∧
    addRowCalls s' = S (addRowCalls s) ∧
    ((∃ c b, readCell g1 0 c = Some (Some b)) →
     isGameOver s' = true ∧ grid s' = g1 ∧
     score s' =
       score s +
       10 * Z.of_nat (length (selectedBlocks (grid s) (selectedIds s))) ∧
     target s' = getRandomTarget (random entropy (drawn s)) ∧
     ∀ events s'',
       run entropy s' events = Some s'' → isGameOver s'' = false →
       ∃ m, StartGame m ∈ events).
Proof.
  intros Hs Hmode Hsum Htarget.
  assert (selectedSum s ≠ 0) as Hne by (unfold TARGET_MIN in *; lia).
  rewrite (sumEffect_match entropy s Hsum Hne).
  destruct (matchBranch_total entropy (setCurrentSum (selectedSum s) s) Hs)
    as (s' & Hm & _).
  rewrite Hm. cbn [mbind option_bind].
  apply matchBranch_inv in Hm as (g1 & changed & Hgrav & Hrest).
  cbn [grid selectedIds setCurrentSum] in Hgrav.
  exists s', g1, changed. split; [reflexivity|]. split; [exact Hgrav|].
  destruct Hrest as [[_ Hadd]|[Hno _]]; [|cbn in Hno; congruence].
  apply addRow_inv in Hadd
    as (g' & over & d' & Hup & Hg & _ & Hcalls & Hover & _ & _ & Hsc & Htg & _).
  state_simpl. split; [exact Hcalls|].
  intros Htop%topRowOccupied_true.
  rewrite (addRowUpdater_overflow _ _ _ Htop) in Hup.
  injection Hup as <- <- <-.
  assert (isGameOver s' = true) as Hfin by (by rewrite Hover).
  split; [exact Hfin|]. split; [exact Hg|]. split; [rewrite Hsc; lia|].
  split; [exact Htg|].
  intros events s'' Hrun Hopen.
  exact (run_gameOver entropy events s' s'' Hfin Hrun Hopen).
Qed.

Lemma C5_classic_escalation_witness :
  mode crowdedState = Some CLASSIC ∧
  selectedSum crowdedState = target crowdedState ∧
  ∃ s', sumEffect sampleEntropy crowdedState = Some (s', true) ∧
        addRowCalls s' = 1%nat ∧ isGameOver s' = true ∧
        score s' = 50.
Proof.
  assert (shape (grid crowdedState)) as Hs.
  { split; [vm_compute; reflexivity|]. vm_compute. repeat constructor. }
  assert (selectedSum crowdedState = target crowdedState) as Hsum
    by (vm_compute; reflexivity).
  assert (TARGET_MIN ≤ target crowdedState) as Htarget
    by (vm_compute; discriminate).
  split; [reflexivity|]. split; [exact Hsum|].
  destruct (C5_classic_escalation sampleEntropy crowdedState
              Hs eq_refl Hsum Htarget)
    as (s' & g1 & changed & Heff & Hgrav & Hcalls & Hover).
  assert ((λ r : Grid * bool, readCell r.1 0 1) <$>
            applyGravity
              (removeSelected (selectedIds crowdedState) (grid crowdedState))
          = Some (Some (Some (mkBlock "t0" 1 0 1 false)))) as Htop
    by (vm_compute; reflexivity).
  rewrite Hgrav in Htop. injection Htop as Htop.
  destruct Hover as (Hfin & _ & Hsc & _).
  { exists 1%nat. eexists. exact Htop. }
  exists s'. split; [exact Heff|]. split; [exact Hcalls|].
  split; [exact Hfin|]. rewrite Hsc. vm_compute. reflexivity.
Defined.

(** C5 as stated fails: the match's updates are made although [addRow]
    overflows.  In the classic sample game with column 1 stacked to the top
    row and five blocks of sum 16 selected, the score being 0 and the
    target 16, the effect ends the game, and when the next [Math.random()]
    returns 0.5 the state of the finished game has the score 50 and the
    target 18. *)
Lemma C5_reward_completed :
  mode crowdedState = Some CLASSIC ∧ isGameOver crowdedState = false ∧
  selectedSum crowdedState = target crowdedState ∧
  score crowdedState = 0 ∧ target crowdedState = 16 ∧
  ∃ s', sumEffect collidingEntropy crowdedState = Some (s', true) ∧
        isGameOver s' = true ∧
        score s' = 50 ∧ target s' = 18 ∧
        score s' ≠ score crowdedState ∧ target s' ≠ target crowdedState.
Proof.
  split; [reflexivity|]. split; [reflexivity|].
  split; [vm_compute; reflexivity|].
  split; [reflexivity|]. split; [vm_compute; reflexivity|].
  destruct (sumEffect collidingEntropy crowdedState) as [[s' b]|] eqn:Heff;
    [|vm_compute in Heff; discriminate].
  assert ((λ r : State * bool, (isGameOver r.1, score r.1, target r.1, r.2))
            <$> Some (s', b) = Some (true, 50, 18, true)) as Hs
    by (rewrite <- Heff; vm_compute; reflexivity).
  cbn in Hs. injection Hs as Hover Hscore Htarget ->.
  exists s'. split; [reflexivity|]. split; [exact Hover|].
  split; [exact Hscore|]. split; [exact Htarget|].
  rewrite Hscore, Htarget. split; [vm_compute; discriminate|].
  vm_compute. discriminate.
Qed.

(** The overflow at work: in the classic sample game with column 1 stacked
    to the top row and five blocks of sum 16 selected, the target being 16
    and the score 0, the effect ends the game ([addRow] overflows); the
    final state has the score 50 and the target of the next draw. *)
Example classic_overflow_sample :
  mode crowdedState = Some CLASSIC ∧
  isGameOver crowdedState = false ∧
  score crowdedState = 0 ∧ target crowdedState = 16 ∧
  selectedSum crowdedState = 16 ∧ drawn crowdedState = 49%nat ∧
  (λ r : State * bool,
     (isGameOver r.1, score r.1, target r.1, drawn r.1, selectedIds r.1, r.2))
    <$> sumEffect sampleEntropy crowdedState
  = Some (true, 50, getRandomTarget (random sampleEntropy 49), 50%nat, [],
          true).
Proof. repeat split; vm_compute; reflexivity. Qed.

(** ** C6: overshoot *)

(** C6: when the selected sum exceeds the target (a target is never
    negative), the effect changes neither the grid nor the score, sets
    [isShaking] and schedules a timeout of 400 ms; once the pending
    timeouts up to that one have fired the selection is empty, and the grid
    and the score are still the same. *)
Theorem C6_overshoot entropy s :
  target s < selectedSum s →
  0 ≤ target s →
  ∃ s1,
    sumEffect entropy s = Some (s1, false) ∧
    grid s1 = grid s ∧ score s1 = score s ∧
    selectedIds s1 = selectedIds s ∧ isShaking s1 = true ∧
    timeouts s1 = timeouts s ++ [400] ∧
    ∃ s2,
      run entropy s1 (replicate (length (timeouts s1)) ShakeTimeout)
        = Some s2 ∧
      selectedIds s2 = [] ∧ grid s2 = grid s ∧ score s2 = score s ∧
      timeouts s2 = [].
Proof.
  intros Hlt Hpos.
  assert (selectedSum s ≠ 0) as Hne by lia.
  rewrite (sumEffect_overshoot entropy s Hlt Hne).
  eexists. split; [reflexivity|]. cbn.
  split; [reflexivity|]. split; [reflexivity|]. split; [reflexivity|].
  split; [reflexivity|]. split; [reflexivity|].
  destruct (run_shakeTimeouts entropy (length (timeouts s))
              (overshootBranch (setCurrentSum (selectedSum s) s)))
    as (s2 & Hrun & Hsel & Hg & Hsc & Hto).
  { cbn. rewrite length_app. simpl. lia. }
  exists s2. rewrite length_app. simpl length.
  replace (length (timeouts s) + 1)%nat with (S (length (timeouts s))) by lia.
  split; [exact Hrun|]. split; [exact Hsel|]. split; [exact Hg|].
  split; [exact Hsc|]. rewrite Hto. cbn.
  apply drop_ge. rewrite length_app. simpl. lia.
Qed.

Lemma C6_overshoot_witness :
  selectedSum overshootState = 17 ∧ target overshootState = 16 ∧
  ∃ s1, sumEffect sampleEntropy overshootState = Some (s1, false) ∧
        timeouts s1 = [400] ∧
        ∃ s2, run sampleEntropy s1 [ShakeTimeout] = Some s2 ∧
              selectedIds s2 = [] ∧ grid s2 = grid overshootState ∧
              score s2 = score overshootState.
Proof.
  assert (target overshootState < selectedSum overshootState) as Hlt
    by (vm_compute; reflexivity).
  assert (0 ≤ target overshootState) as Hpos by (vm_compute; discriminate).
  split; [vm_compute; reflexivity|]. split; [vm_compute; reflexivity|].
  destruct (C6_overshoot sampleEntropy overshootState Hlt Hpos)
    as (s1 & Heff & _ & _ & _ & _ & Hto & s2 & Hrun & Hsel & Hg & Hsc & _).
  exists s1. split; [exact Heff|]. split; [exact Hto|].
  exists s2. rewrite Hto in Hrun. split; [exact Hrun|].
  split; [exact Hsel|]. split; [exact Hg|exact Hsc].
Defined.

(** ** C7: game over is terminal *)

(** C7: once [isGameOver] is true, a block click, a tick, a pause toggle or
    a resume leaves the score, the grid and [timeLeft] as they are and the
    game over; and the only event after which [isGameOver] is false again
    is [initGame] (start, retry, reset). *)
Theorem C7_terminal_lock entropy s :
  isGameOver s = true →
  (∀ e, e = Tick ∨ e = PauseToggle ∨ e = Resume ∨ (∃ i, e = BlockClick i) →
     ∃ s', step entropy s e = Some s' ∧
           score s' = score s ∧ grid s' = grid s ∧
           timeLeft s' = timeLeft s ∧ isGameOver s' = true) ∧
  (∀ e s', step entropy s e = Some s' → isGameOver s' = false →
           ∃ m, e = StartGame m).
Proof.
  intros Hover. split.
  - intros e [->|[->|[->|[i ->]]]]; simpl.
    + unfold timerArmed. rewrite Hover, andb_false_r. by exists s.
    + eexists. split; [reflexivity|]. by repeat split.
    + eexists. split; [reflexivity|]. by repeat split.
    + rewrite Hover. by exists s.
  - intros e s' Hstep Hopen. exact (step_gameOver entropy s e s' Hover Hstep Hopen).
Qed.

Lemma C7_terminal_lock_witness :
  isGameOver finishedState = true ∧
  ∃ s', step sampleEntropy finishedState Tick = Some s' ∧
        score s' = score finishedState ∧ grid s' = grid finishedState ∧
        timeLeft s' = timeLeft finishedState ∧ isGameOver s' = true.
Proof.
  split; [reflexivity|].
  destruct (C7_terminal_lock sampleEntropy finishedState eq_refl) as [Hlock _].
  exact (Hlock Tick (or_introl eq_refl)).
Defined.

(** ** C8: the timer of the time mode *)

(** C8: in a running, unpaused time-mode game with [timeLeft = 10], each of
    the first nine ticks only lowers [timeLeft] by one, and the tenth tick
    calls [addRow] once and leaves [timeLeft] at 10. *)
Theorem C8_timed_expiry entropy s :
  mode s = Some TIME → isGameOver s = false → isPaused s = false →
  timeLeft s = TIME_LIMIT → shape (grid s) →
  (∀ k, (k < 10)%nat →
     run entropy s (replicate k Tick)
       = Some (setTimeLeft (TIME_LIMIT - Z.of_nat k) s)) ∧
  ∃ s', run entropy s (replicate 10 Tick) = Some s' ∧
        addRowCalls s' = S (addRowCalls s) ∧
        timeLeft s' = TIME_LIMIT.
Proof.
  intros Hmode Hover Hpaused Htime Hs.
  assert (timerArmed s = true) as Harm by (by apply timerArmed_true).
  assert (∀ k, (k < 10)%nat →
            run entropy s (replicate k Tick)
              = Some (setTimeLeft (TIME_LIMIT - Z.of_nat k) s)) as Hdown.
  { intros k Hk. rewrite <- Htime. apply run_ticks; [exact Harm|].
    rewrite Htime. unfold TIME_LIMIT. lia. }
  split; [exact Hdown|].
  change (replicate 10 Tick) with (replicate 9 Tick ++ [Tick]).
  rewrite run_app, (Hdown 9%nat) by lia. cbn [mbind option_bind].
  set (s9 := setTimeLeft (TIME_LIMIT - Z.of_nat 9) s).
  assert (timerArmed s9 = true) as Harm9 by exact Harm.
  destruct (step_total entropy s9 Tick) as (s' & Hstep & _).
  { split; [by right|done]. }
  exists s'. cbn [run]. rewrite Hstep. split; [reflexivity|].
  simpl in Hstep. rewrite Harm9 in Hstep.
  apply tick_inv in Hstep
    as [[Hgt _]|(_ & s1 & Hadd & Hrest)];
    [unfold s9, TIME_LIMIT in Hgt; state_simpl; lia|].
  apply addRow_inv in Hadd
    as (_ & _ & _ & _ & _ & _ & Hcalls & _ & _ & Hm1 & _).
  unfold s9 in Hcalls, Hm1. state_simpl.
  destruct Hrest as [[_ ->]|[_ Hrun]]; [by split|].
  apply runEffects_frame in Hrun as (Htl & _ & _ & _ & _ & _ & Hkeep).
  state_simpl. split; [|exact Htl].
  rewrite Hkeep; [exact Hcalls|]. rewrite Hm1, Hmode. discriminate.
Qed.

Lemma C8_timed_expiry_witness :
  timeLeft (startedState sampleEntropy TIME) = 10 ∧
  run sampleEntropy (startedState sampleEntropy TIME) (replicate 9 Tick)
    = Some (setTimeLeft 1 (startedState sampleEntropy TIME)) ∧
  ∃ s', run sampleEntropy (startedState sampleEntropy TIME)
          (replicate 10 Tick) = Some s' ∧
        addRowCalls s' = 1%nat ∧ timeLeft s' = 10.
Proof.
  assert (shape (grid (startedState sampleEntropy TIME))) as Hs.
  { split; [vm_compute; reflexivity|]. vm_compute. repeat constructor. }
  destruct (C8_timed_expiry sampleEntropy (startedState sampleEntropy TIME)
              eq_refl eq_refl eq_refl eq_refl Hs) as [Hdown Hten].
  split; [reflexivity|]. split; [exact (Hdown 9%nat ltac:(lia))|exact Hten].
Defined.

(** ** C9: ids without a block *)

(** C9: a selected id that no block of the grid carries contributes nothing
    to the sum: toggling such an id leaves the selected blocks and their
    sum as they are, the effect then does to the grid, the score and every
    other field exactly what it does without that toggle (the results
    differ in the selection at most), and neither the click nor the effect
    faults. *)
Theorem C9_absent_ids entropy s i :
  i ∉ gridIds (grid s) →
  selectedBlocks (grid s) (toggleId i (selectedIds s))
    = selectedBlocks (grid s) (selectedIds s) ∧
  selectedSum (setSelectedIds (toggleId i (selectedIds s)) s)
    = selectedSum s ∧
  grid (handleBlockClick i s) = grid s ∧
  score (handleBlockClick i s) = score s ∧
  eraseSelection <$>
    sumEffect entropy (setSelectedIds (toggleId i (selectedIds s)) s)
    = eraseSelection <$> sumEffect entropy s ∧
  (wellFormed s → is_Some (step entropy s (BlockClick i))).
Proof.
  intros Habsent.
  assert (∀ j, j ∈ gridIds (grid s) →
            (j ∈ toggleId i (selectedIds s) ↔ j ∈ selectedIds s)) as Hagree.
  { intros j Hj. apply elem_of_toggleId. intros ->. by apply Habsent. }
  pose proof (selectedBlocks_ext (grid s) _ _ Hagree) as Hblocks.
  split; [exact Hblocks|]. split.
  { unfold selectedSum. cbn [grid selectedIds setSelectedIds].
    by rewrite Hblocks. }
  split; [unfold handleBlockClick; by destruct (isGameOver s || isPaused s)|].
  split; [unfold handleBlockClick; by destruct (isGameOver s || isPaused s)|].
  split.
  - rewrite (sumEffect_selection entropy s _ _ Hagree).
    by destruct s.
  - intros Hwf. destruct (step_total entropy s (BlockClick i) Hwf)
      as (s' & Hstep & _). by exists s'.
Qed.

Lemma C9_absent_ids_witness :
  selectedSum
    (setSelectedIds
       (toggleId "zzzzzzz" (selectedIds (startedState sampleEntropy TIME)))
       (startedState sampleEntropy TIME))
    = selectedSum (startedState sampleEntropy TIME) ∧
  is_Some (step sampleEntropy (startedState sampleEntropy TIME)
             (BlockClick "zzzzzzz")).
Proof.
  assert ("zzzzzzz"%string ∉ gridIds (grid (startedState sampleEntropy TIME)))
    as Habsent.
  { apply (bool_decide_eq_false_1 (_ ∈ _)). vm_compute. reflexivity. }
  assert (wellFormed (startedState sampleEntropy TIME)) as Hwf.
  { assert (shape (grid (startedState sampleEntropy TIME))) as Hs.
    { split; [vm_compute; reflexivity|]. vm_compute. repeat constructor. }
    split; [by right|done]. }
  destruct (C9_absent_ids sampleEntropy (startedState sampleEntropy TIME)
              "zzzzzzz" Habsent) as (_ & Hsum & _ & _ & _ & Hok).
  split; [exact Hsum|exact (Hok Hwf)].
Defined.

(** ** C10: the range of timeLeft *)

(** C10: in every state that events lead to from the initial one,
    [timeLeft] is between 1 and 10; in particular it is never 0. *)
Theorem C10_timeLeft_range entropy s :
  reachable entropy s → 1 ≤ timeLeft s ≤ TIME_LIMIT ∧ timeLeft s ≠ 0.
Proof.
  intros [events Hrun].
  assert (1 ≤ timeLeft s ≤ TIME_LIMIT) as Hrange.
  { refine (run_invariant _ entropy (step_timeLeft entropy) events _ _ _ Hrun).
    simpl. unfold TIME_LIMIT. lia. }
  split; [exact Hrange|lia].
Qed.

Lemma C10_timeLeft_range_witness :
  ∃ s, run sampleEntropy initialState (StartGame TIME :: replicate 12 Tick)
         = Some s ∧
       timeLeft s = 8 ∧ 1 ≤ timeLeft s ≤ TIME_LIMIT.
Proof.
  destruct (run sampleEntropy initialState
              (StartGame TIME :: replicate 12 Tick)) as [s|] eqn:Hrun;
    [|vm_compute in Hrun; discriminate].
  exists s. split; [reflexivity|]. split.
  - assert (timeLeft <$> Some s = Some 8) as Ht
      by (rewrite <- Hrun; vm_compute; reflexivity).
    by injection Ht.
  - exact (proj1 (C10_timeLeft_range sampleEntropy s
                    (ex_intro _ (StartGame TIME :: replicate 12 Tick) Hrun))).
Defined.

(** * Further properties *)

(** ** Sample runs *)

Lemma startedState_reachable :
  reachable sampleEntropy (startedState sampleEntropy TIME).
Proof. exists [StartGame TIME]. vm_compute. reflexivity. Qed.

Lemma startedState_grid : grid (startedState sampleEntropy TIME) = sampleGrid.
Proof. vm_compute. reflexivity. Qed.

Lemma sampleGrid_shape : shape sampleGrid.
Proof.
  exact (reachableGrid_shape anyIds sampleGrid
           (reach_init anyIds sampleEntropy 0 sampleGrid 48 sampleGrid_init I)).
Qed.

Lemma sampleGrid_uniqueIds : uniqueIds sampleGrid.
Proof.
  exact (initGrid_uniqueIds sampleEntropy 0 sampleGrid 48 sampleGrid_init
           sampleGrid_fresh).
Qed.

Lemma gappedGrid_shape : shape gappedGrid.
Proof. apply removeSelected_shape, sampleGrid_shape. Qed.

Lemma gappedGrid_positionsOK : positionsOK gappedGrid.
Proof.
  apply removeSelected_positionsOK.
  exact (initGrid_positionsOK sampleEntropy 0 sampleGrid 48 sampleGrid_init).
Qed.

(** ** Utilities *)

Lemma floor_scaled_range u k :
  0 ≤ u < RANDOM_SCALE → 0 < k → 0 ≤ (u * k) `div` RANDOM_SCALE < k.
Proof.
  intros Hu Hk. assert (0 < RANDOM_SCALE) by (unfold RANDOM_SCALE; lia).
  split; [apply Z.div_pos; nia|].
  apply Z.div_lt_upper_bound; nia.
Qed.

Lemma floor_scaled_onto k v :
  0 < k ≤ RANDOM_SCALE → 0 ≤ v < k →
  ∃ u, 0 ≤ u < RANDOM_SCALE ∧ (u * k) `div` RANDOM_SCALE = v.
Proof.
  intros Hk Hv. assert (0 < RANDOM_SCALE) as HR by (unfold RANDOM_SCALE; lia).
  exists ((v * RANDOM_SCALE + k - 1) `div` k).
  pose proof (Z.div_mod (v * RANDOM_SCALE + k - 1) k ltac:(lia)) as Hdm.
  pose proof (Z.mod_pos_bound (v * RANDOM_SCALE + k - 1) k ltac:(lia)) as Hm.
  set (u := (v * RANDOM_SCALE + k - 1) `div` k) in *.
  set (m := (v * RANDOM_SCALE + k - 1) `mod` k) in *.
  assert (u * k = v * RANDOM_SCALE + (k - 1 - m)) as Hu by lia.
  split; [split; [nia|nia]|].
  rewrite Hu. symmetry. apply (Z.div_unique _ _ v (k - 1 - m)); lia.
Qed.

(** Each value is drawn: for 9 by 15/16, for [v] below by [(v - 1) / 8]. *)
Lemma getRandomValue_onto v :
  1 ≤ v ≤ 9 → ∃ u, 0 ≤ u < RANDOM_SCALE ∧ getRandomValue u = v.
Proof.
  intros Hv. exists (if v =? 9 then 15 * 2 ^ 49 else (v - 1) * 2 ^ 50).
  assert (v = 1 ∨ v = 2 ∨ v = 3 ∨ v = 4 ∨ v = 5 ∨ v = 6 ∨ v = 7 ∨ v = 8 ∨ v = 9)
    as Hc by lia.
  clear Hv. destruct Hc as [->|[->|[->|[->|[->|[->|[->|[->| ->]]]]]]]];
    (split; [split; [apply Z.leb_le | apply Z.ltb_lt]; reflexivity
            | reflexivity]).
Qed.

(** X1: [getRandomValue] returns an integer from 1 to 9 whatever
    [Math.random()] returns, and each of the nine values is returned for
    some result of [Math.random()]. *)
Theorem X1_getRandomValue_range u :
  0 ≤ u < RANDOM_SCALE →
  1 ≤ getRandomValue u ≤ 9 ∧
  ∀ v, 1 ≤ v ≤ 9 → ∃ u', 0 ≤ u' < RANDOM_SCALE ∧ getRandomValue u' = v.
Proof.
  intros Hu. split.
  - exact (getRandomValue_bounds u Hu).
  - exact getRandomValue_onto.
Qed.

Lemma X1_getRandomValue_range_witness :
  0 ≤ 2 ^ 52 < RANDOM_SCALE ∧ 1 ≤ getRandomValue (2 ^ 52) ≤ 9.
Proof.
  assert (0 ≤ 2 ^ 52 < RANDOM_SCALE) as H by (unfold RANDOM_SCALE; lia).
  split; [exact H|]. exact (proj1 (X1_getRandomValue_range (2 ^ 52) H)).
Defined.

(** X2: [getRandomTarget] returns an integer from [TARGET_MIN] to
    [TARGET_MAX] (10 to 25) whatever [Math.random()] returns, and each of
    the sixteen values is returned for some result. *)
Theorem X2_getRandomTarget_range u :
  0 ≤ u < RANDOM_SCALE →
  TARGET_MIN ≤ getRandomTarget u ≤ TARGET_MAX ∧
  ∀ t, TARGET_MIN ≤ t ≤ TARGET_MAX →
       ∃ u', 0 ≤ u' < RANDOM_SCALE ∧ getRandomTarget u' = t.
Proof.
  intros Hu. unfold getRandomTarget, TARGET_MIN, TARGET_MAX. split.
  - pose proof (floor_scaled_range u (25 - 10 + 1) Hu ltac:(lia)). lia.
  - intros t Ht.
    destruct (floor_scaled_onto (25 - 10 + 1) (t - 10)) as (u' & Hu' & Hdiv);
      [unfold RANDOM_SCALE; lia | lia |].
    exists u'. split; [exact Hu'|]. lia.
Qed.

Lemma X2_getRandomTarget_range_witness :
  0 ≤ 2 ^ 52 < RANDOM_SCALE ∧
  TARGET_MIN ≤ getRandomTarget (2 ^ 52) ≤ TARGET_MAX.
Proof.
  assert (0 ≤ 2 ^ 52 < RANDOM_SCALE) as H by (unfold RANDOM_SCALE; lia).
  split; [exact H|]. exact (proj1 (X2_getRandomTarget_range (2 ^ 52) H)).
Defined.

(** ** Blocks of the reachable grids *)

Lemma generatedBlock_ok entropy d r c :
  1 ≤ value (generatedBlock entropy d r c) ≤ 9 ∧
  isSelected (generatedBlock entropy d r c) = false.
Proof.
  split; [|reflexivity].
  unfold generatedBlock, freshBlock. cbn [value].
  apply getRandomValue_range.
Qed.

Lemma initGrid_blocksOK entropy d g d' :
  initGrid entropy d = Some (g, d') → blocksOK g.
Proof.
  intros Hinit r c b Hb.
  destruct (initGrid_spec entropy d) as (g0 & Hg0 & Hshape & Hread).
  rewrite Hg0 in Hinit. injection Hinit as <- _. clear Hg0.
  destruct (readCell_range _ _ _ _ Hshape Hb) as [Hr Hc].
  rewrite (Hread r c Hr Hc) in Hb. case_decide; [|discriminate].
  injection Hb as <-. apply generatedBlock_ok.
Qed.

Lemma addRowUpdater_blocksOK entropy d g g' over d' :
  shape g → addRowUpdater entropy d g = Some (g', over, d') →
  blocksOK g → blocksOK g'.
Proof.
  intros Hshape Hadd Hok.
  destruct (addRowUpdater_inv _ _ _ _ _ _ Hshape Hadd)
    as [(_ & -> & _) | (_ & _ & _ & Hshape' & Hread)]; [exact Hok|].
  intros r c b Hb.
  destruct (shifted_block _ _ _ _ _ _ _ Hread Hshape' Hb)
    as (_ & [(_ & b0 & Hb0 & ->) | (_ & ->)]).
  - exact (Hok _ _ _ Hb0).
  - apply generatedBlock_ok.
Qed.

Lemma removeSelected_blocksOK sel g : blocksOK g → blocksOK (removeSelected sel g).
Proof.
  intros Hok r c b [Hb _]%removeSelected_block. exact (Hok _ _ _ Hb).
Qed.

Lemma dropOne_blocksOK g c r b g2 :
  dropOne g c r b g2 → blocksOK g → blocksOK g2.
Proof.
  intros Hdrop Hok x y k Hk.
  rewrite (dropOne_read _ _ _ _ _ x y Hdrop) in Hk.
  destruct Hdrop as (_ & Hb & _).
  repeat case_decide; simplify_eq.
  - exact (Hok _ _ _ Hb).
  - exact (Hok _ _ _ Hk).
Qed.

Lemma reachableGrid_blocksOK ok g : reachableGrid ok g → blocksOK g.
Proof.
  induction 1 as [entropy d g d' Hinit _
                 | entropy d g g' over d' Hreach IH Hadd _
                 | sel g _ IH
                 | g g' changed _ IH Hgrav].
  - exact (initGrid_blocksOK _ _ _ _ Hinit).
  - exact (addRowUpdater_blocksOK _ _ _ _ _ _
             (reachableGrid_shape _ _ Hreach) Hadd IH).
  - exact (removeSelected_blocksOK _ _ IH).
  - refine (applyGravity_moves blocksOK _ _ _ _ Hgrav IH).
    intros h c r b h2 Hh Hdrop. exact (dropOne_blocksOK _ _ _ _ _ Hdrop Hh).
Qed.

Lemma reachable_blocksOK entropy s : reachable entropy s → blocksOK (grid s).
Proof.
  intros Hreach r c b Hb.
  destruct (reachable_grid _ _ Hreach) as [Hnil | Hgrid].
  - rewrite Hnil in Hb. discriminate.
  - exact (reachableGrid_blocksOK _ _ Hgrid _ _ _ Hb).
Qed.

(** X4: in every state that events lead to, each block of the grid has a
    value from 1 to 9, and its [isSelected] field is [false]: the program
    never sets that field, the selection lives in [selectedIds] alone. *)
Theorem X4_blocks_values entropy s r c b :
  reachable entropy s →
  readCell (grid s) r c = Some (Some b) →
  1 ≤ value b ≤ 9 ∧ isSelected b = false.
Proof. intros Hreach. apply (reachable_blocksOK entropy s Hreach). Qed.

Lemma X4_blocks_values_witness :
  ∃ b, readCell (grid (startedState sampleEntropy TIME)) 9 0 = Some (Some b) ∧
       1 ≤ value b ≤ 9 ∧ isSelected b = false.
Proof.
  destruct (readCell (grid (startedState sampleEntropy TIME)) 9 0)
    as [[b|]|] eqn:Hb; [|vm_compute in Hb; discriminate..].
  exists b. split; [reflexivity|].
  exact (X4_blocks_values sampleEntropy _ 9 0 b startedState_reachable Hb).
Defined.

(** ** The effect and the events, case by case *)

Lemma runEffects_cases entropy s s' :
  runEffects entropy s = Some s' →
  (selectedSum s = 0 ∧ s' = setCurrentSum 0 s) ∨
  (selectedSum s ≠ 0 ∧ selectedSum s = target s ∧
   ∃ s1, matchBranch entropy (setCurrentSum (selectedSum s) s) = Some s1 ∧
         s' = setCurrentSum 0 s1) ∨
  (selectedSum s ≠ 0 ∧ target s < selectedSum s ∧
   s' = overshootBranch (setCurrentSum (selectedSum s) s)) ∨
  (selectedSum s ≠ 0 ∧ selectedSum s < target s ∧
   s' = setCurrentSum (selectedSum s) s).
Proof.
  intros (s1 & again & Heff & ->)%runEffects_inv.
  apply sumEffect_cases in Heff
    as [(H0 & Hr) | [(Hn & Ht & s2 & Hm & Hr) | [(Hn & Ht & Hr) | (Hn & Ht & Hr)]]];
    injection Hr as -> ->.
  - left. done.
  - right. left. eauto.
  - right. right. left. done.
  - right. right. right. done.
Qed.

Lemma matchBranch_fields entropy s s' :
  matchBranch entropy s = Some s' →
  selectedIds s' = [] ∧ isShaking s' = isShaking s ∧
  timeouts s' = timeouts s ∧ currentSum s' = currentSum s ∧
  score s' =
    score s + Z.of_nat (length (selectedBlocks (grid s) (selectedIds s))) * 10 ∧
  addRowCalls s' =
    (if bool_decide (mode s = Some CLASSIC) then S (addRowCalls s)
     else addRowCalls s).
Proof.
  intros (g1 & ch & _ & [[Hm Hadd] | [Hm ->]])%matchBranch_inv.
  - apply addRow_inv in Hadd
      as (g' & over & d' & _ & _ & _ & Hcalls & _ & _ & _ & Hscore & _ & Hsel &
          _ & Hshake & Hsum & Htime).
    rewrite bool_decide_eq_true_2 by exact Hm.
    state_simpl. done.
  - rewrite bool_decide_eq_false_2 by exact Hm. state_simpl. done.
Qed.

(** What holds of a state and is kept by every event holds along the run;
    [Q] is what holds when the sum effect starts. *)
Lemma step_invariant (P Q : State → Prop) entropy :
  (∀ s m s0, P s → initGame entropy m s = Some s0 → Q s0) →
  (∀ s, P s → Q (setMode None s)) →
  (∀ s i, P s → isGameOver s = false → isPaused s = false →
          Q (setSelectedIds (toggleId i (selectedIds s)) s)) →
  (∀ s b, P s → P (setIsPaused b s)) →
  (∀ s v, P s → P (setTimeLeft v s)) →
  (∀ s s1, P s → timerArmed s = true → addRow entropy s = Some s1 →
           isGameOver s1 = true → P (setTimeLeft TIME_LIMIT s1)) →
  (∀ s s1, P s → timerArmed s = true → addRow entropy s = Some s1 →
           isGameOver s1 = false → Q (setTimeLeft TIME_LIMIT s1)) →
  (∀ s t rest, P s → timeouts s = t :: rest →
               Q (shakeTimeout (setTimeouts rest s))) →
  (∀ s s', Q s → runEffects entropy s = Some s' → P s') →
  ∀ s e s', P s → step entropy s e = Some s' → P s'.
Proof.
  intros Hinit Hmenu Hclick Hpause Hcount Hover Hrow Hshake Heff s e s' HP.
  destruct e; cbn [step].
  - destruct (initGame entropy selectedMode s) as [s0|] eqn:H0; [|done].
    cbn [mbind option_bind]. apply Heff. by eapply Hinit.
  - destruct (mode s); [|by intros [= <-]]. apply Heff, Hmenu, HP.
  - unfold handleBlockClick.
    destruct (isGameOver s) eqn:Hg; [by intros [= <-]|].
    destruct (isPaused s) eqn:Hp; [by intros [= <-]|].
    cbn [orb]. apply Heff. by apply Hclick.
  - intros [= <-]. by apply Hpause.
  - intros [= <-]. by apply Hpause.
  - destruct (timerArmed s) eqn:Harm; [|by intros [= <-]].
    intros [[_ ->] | (_ & s1 & Hadd & [[Hg ->] | [Hg Hrun]])]%tick_inv.
    + by apply Hcount.
    + by eapply Hover.
    + eapply Heff; [|exact Hrun]. by eapply Hrow.
  - destruct (timeouts s) as [|t rest] eqn:Ht; [by intros [= <-]|].
    apply Heff. by eapply Hshake.
Qed.

Lemma reachable_invariant (P Q : State → Prop) entropy :
  P initialState →
  (∀ s m s0, P s → initGame entropy m s = Some s0 → Q s0) →
  (∀ s, P s → Q (setMode None s)) →
  (∀ s i, P s → isGameOver s = false → isPaused s = false →
          Q (setSelectedIds (toggleId i (selectedIds s)) s)) →
  (∀ s b, P s → P (setIsPaused b s)) →
  (∀ s v, P s → P (setTimeLeft v s)) →
  (∀ s s1, P s → timerArmed s = true → addRow entropy s = Some s1 →
           isGameOver s1 = true → P (setTimeLeft TIME_LIMIT s1)) →
  (∀ s s1, P s → timerArmed s = true → addRow entropy s = Some s1 →
           isGameOver s1 = false → Q (setTimeLeft TIME_LIMIT s1)) →
  (∀ s t rest, P s → timeouts s = t :: rest →
               Q (shakeTimeout (setTimeouts rest s))) →
  (∀ s s', Q s → runEffects entropy s = Some s' → P s') →
  ∀ s, reachable entropy s → P s.
Proof.
  intros H0 Hinit Hmenu Hclick Hpause Hcount Hover Hrow Hshake Heff s
    [events Hrun].
  refine (run_invariant P entropy _ events initialState s H0 Hrun).
  by apply (step_invariant P Q).
Qed.

(** ** No faults *)

(** X5: no sequence of events makes the component read or write outside
    its grid: from the initial state every sequence of events runs to a
    state, and once a mode is chosen the grid has 10 rows of 6 cells. *)
Theorem X5_no_fault entropy events :
  ∃ s, run entropy initialState events = Some s ∧
       (mode s ≠ None → shape (grid s)).
Proof.
  destruct (run_total entropy initialState events initialState_wellFormed)
    as (s & Hrun & _ & Hshape).
  exists s. split; [exact Hrun | exact Hshape].
Qed.

(** ** The score *)

Lemma step_score entropy s e s' :
  step entropy s e = Some s' → (∀ m, e ≠ StartGame m) →
  ∃ k : nat, score s' = score s + 10 * Z.of_nat k.
Proof.
  assert (∀ s0 s1, runEffects entropy s0 = Some s1 →
            ∃ k : nat, score s1 = score s0 + 10 * Z.of_nat k) as Heff.
  { intros s0 s1 (_ & _ & _ & _ & _ & [n Hn] & _)%runEffects_frame.
    exists n. lia. }
  intros Hstep Hne. destruct e; cbn [step] in Hstep.
  - by destruct (Hne selectedMode).
  - destruct (mode s); [|injection Hstep as <-; exists 0%nat; lia].
    apply Heff in Hstep. exact Hstep.
  - destruct (isGameOver s || isPaused s) eqn:Hlock;
      [injection Hstep as <-; exists 0%nat; lia|].
    apply Heff in Hstep as [k Hk]. exists k. rewrite Hk.
    unfold handleBlockClick. rewrite Hlock. done.
  - injection Hstep as <-. exists 0%nat. state_simpl. lia.
  - injection Hstep as <-. exists 0%nat. state_simpl. lia.
  - destruct (timerArmed s); [|injection Hstep as <-; exists 0%nat; lia].
    apply tick_inv in Hstep
      as [[_ ->] | (_ & s1 & Hadd & [[Hg ->] | [Hg Hrun]])].
    + exists 0%nat. state_simpl. lia.
    + apply addRow_inv in Hadd
        as (g' & over & d' & _ & _ & _ & _ & _ & _ & _ & Hscore & _).
      exists 0%nat. state_simpl. lia.
    + apply Heff in Hrun as [k Hk]. exists k. rewrite Hk.
      apply addRow_inv in Hadd
        as (g' & over & d' & _ & _ & _ & _ & _ & _ & _ & Hscore & _).
      state_simpl. lia.
  - destruct (timeouts s) as [|t rest];
      [injection Hstep as <-; exists 0%nat; lia|].
    apply Heff in Hstep as [k Hk]. exists k. rewrite Hk. state_simpl. done.
Qed.

Lemma reachable_score entropy s :
  reachable entropy s → ∃ n : nat, score s = 10 * Z.of_nat n.
Proof.
  set (P := λ x : State, ∃ n : nat, score x = 10 * Z.of_nat n).
  apply (reachable_invariant P P); subst P; cbn beta.
  - exists 0%nat. reflexivity.
  - intros x m x0 _ (g & d' & _ & _ & _ & _ & Hscore & _)%initGame_inv.
    exists 0%nat. lia.
  - intros x Hx. exact Hx.
  - intros x i Hx _ _. exact Hx.
  - intros x b Hx. exact Hx.
  - intros x v Hx. exact Hx.
  - intros x x1 [n Hn] _ Hadd _. exists n.
    apply addRow_inv in Hadd
      as (g' & over & d' & _ & _ & _ & _ & _ & _ & _ & Hscore & _).
    state_simpl. lia.
  - intros x x1 [n Hn] _ Hadd _. exists n.
    apply addRow_inv in Hadd
      as (g' & over & d' & _ & _ & _ & _ & _ & _ & _ & Hscore & _).
    state_simpl. lia.
  - intros x t rest Hx _. exact Hx.
  - intros x x' [n Hn] (_ & _ & _ & _ & _ & [k Hk] & _)%runEffects_frame.
    exists (n + k)%nat. lia.
Qed.

(** X6: the score is a non-negative multiple of 10 in every state that
    events lead to, and no event other than [initGame] (which resets it to
    0) lowers it: every other event adds a multiple of 10, possibly 0. *)
Theorem X6_score entropy s :
  reachable entropy s →
  (∃ n : nat, score s = 10 * Z.of_nat n) ∧
  ∀ e s', step entropy s e = Some s' → (∀ m, e ≠ StartGame m) →
          ∃ k : nat, score s' = score s + 10 * Z.of_nat k.
Proof.
  intros Hreach. split; [exact (reachable_score entropy s Hreach)|].
  intros e s'. apply step_score.
Qed.

Lemma X6_score_witness :
  ∃ s, run sampleEntropy initialState matchClicks = Some s ∧
       score s = 50 ∧ ∃ n : nat, score s = 10 * Z.of_nat n.
Proof.
  destruct (run sampleEntropy initialState matchClicks)
    as [s|] eqn:Hrun; [|vm_compute in Hrun; discriminate].
  exists s. split; [reflexivity|]. split.
  - assert (score <$> Some s = Some 50) as Hs
      by (rewrite <- Hrun; vm_compute; reflexivity).
    by injection Hs.
  - exact (proj1 (X6_score sampleEntropy s (ex_intro _ _ Hrun))).
Defined.

(** ** The target *)

(** X7: in every state that events lead to in which a mode is chosen, the
    target is between [TARGET_MIN] and [TARGET_MAX] (10 and 25); so no
    single block, whose value is at most 9, reaches it. *)
Theorem X7_target_range entropy s :
  reachable entropy s → mode s ≠ None →
  TARGET_MIN ≤ target s ≤ TARGET_MAX.
Proof. apply reachable_started_target. Qed.

Lemma X7_target_range_witness :
  mode (startedState sampleEntropy TIME) ≠ None ∧
  TARGET_MIN ≤ target (startedState sampleEntropy TIME) ≤ TARGET_MAX.
Proof.
  assert (mode (startedState sampleEntropy TIME) ≠ None) as Hm
    by (vm_compute; discriminate).
  split; [exact Hm|].
  exact (X7_target_range sampleEntropy _ startedState_reachable Hm).
Defined.

(** ** The sum shown and the selection *)

Transparent addRowUpdater.

Lemma addRowUpdater_over entropy d g g' d' :
  addRowUpdater entropy d g = Some (g', true, d') →
  g' = g ∧ d' = d ∧ topRowOccupied g = Some true.
Proof.
  unfold addRowUpdater.
  destruct (topRowOccupied g) as [[|]|]; cbn [mbind option_bind]; [| |done].
  - by intros [= -> ->].
  - destruct (shiftUp g) as [g1|]; cbn [mbind option_bind]; [|done].
    destruct (fillRow entropy (GRID_ROWS - 1) (g1, d)) as [st|];
      cbn [mbind option_bind]; [|done].
    intros [= _ _].
Qed.

Opaque addRowUpdater.

Lemma addRow_over entropy s s1 :
  addRow entropy s = Some s1 → isGameOver s = false → isGameOver s1 = true →
  grid s1 = grid s ∧ selectedIds s1 = selectedIds s ∧ target s1 = target s ∧
  currentSum s1 = currentSum s.
Proof.
  intros (g' & over & d' & Hupd & Hg & _ & _ & Hover & _ & _ & _ & Ht & Hsel &
          _ & _ & Hsum & _)%addRow_inv Hrun Hend.
  rewrite Hrun, orb_false_r in Hover. rewrite Hend in Hover. subst over.
  apply addRowUpdater_over in Hupd as (-> & _). done.
Qed.

Lemma selectedSum_no_selection s : selectedIds s = [] → selectedSum s = 0.
Proof.
  intros Hsel. unfold selectedSum. rewrite Hsel, selectedBlocks_nil.
  apply sumValues_nil.
Qed.

(** The state the sum effect leaves: the sum shown is the sum of the
    selection, which is not a match waiting to be scored. *)
Lemma runEffects_stable entropy s s' :
  runEffects entropy s = Some s' →
  currentSum s' = selectedSum s' ∧
  (selectedSum s' = 0 ∨ selectedSum s' ≠ target s').
Proof.
  intros [[H0 ->] | [(Hn & Ht & s1 & Hm & ->) | [(Hn & Ht & ->) | (Hn & Ht & ->)]]]%runEffects_cases.
  - unfold selectedSum in *. state_simpl. split; [by symmetry|by left].
  - apply matchBranch_fields in Hm as (Hsel & _).
    assert (selectedSum (setCurrentSum 0 s1) = 0) as Hz
      by (apply selectedSum_no_selection; exact Hsel).
    rewrite Hz. split; [reflexivity|by left].
  - unfold selectedSum in *. state_simpl. split; [reflexivity|right; lia].
  - unfold selectedSum in *. state_simpl. split; [reflexivity|right; lia].
Qed.

Lemma reachable_stable entropy s :
  reachable entropy s →
  currentSum s = selectedSum s ∧
  (selectedSum s = 0 ∨ selectedSum s ≠ target s).
Proof.
  set (P := λ x : State,
         currentSum x = selectedSum x ∧
         (selectedSum x = 0 ∨ selectedSum x ≠ target x)).
  apply (reachable_invariant P (λ _, True)); subst P; cbn beta.
  - split; [reflexivity|by left].
  - intros x m x0 _ _. exact I.
  - intros x _. exact I.
  - intros x i _ _ _. exact I.
  - intros x b Hx. exact Hx.
  - intros x v Hx. exact Hx.
  - intros x x1 Hx (_ & Hrun & _)%timerArmed_true Hadd Hend.
    destruct (addRow_over _ _ _ Hadd Hrun Hend) as (Hg & Hsel & Ht & Hsum).
    unfold selectedSum in *. state_simpl. rewrite Hg, Hsel, Ht, Hsum.
    exact Hx.
  - intros x x1 _ _ _ _. exact I.
  - intros x t rest _ _. exact I.
  - intros x x' _. apply runEffects_stable.
Qed.

(** X8: in every state that events lead to, [currentSum] (the sum shown
    beside the target) is the sum of the values of the blocks of the grid
    whose id is selected. *)
Theorem X8_currentSum entropy s :
  reachable entropy s → currentSum s = selectedSum s.
Proof. intros Hreach. exact (proj1 (reachable_stable entropy s Hreach)). Qed.

Lemma X8_currentSum_witness :
  ∃ s, run sampleEntropy initialState twoClicks = Some s ∧
       selectedSum s = 5 ∧ currentSum s = selectedSum s.
Proof.
  destruct (run sampleEntropy initialState twoClicks)
    as [s|] eqn:Hrun; [|vm_compute in Hrun; discriminate].
  exists s. split; [reflexivity|]. split.
  - assert (selectedSum <$> Some s = Some 5) as Hs
      by (rewrite <- Hrun; vm_compute; reflexivity).
    by injection Hs.
  - exact (X8_currentSum sampleEntropy s (ex_intro _ _ Hrun)).
Defined.

(** X9: no state that events lead to holds a match that was not scored: the
    selected sum is 0 or differs from the target, since the effect that
    follows every change of the selection, the target or the grid consumes
    a match at once. *)
Theorem X9_no_pending_match entropy s :
  reachable entropy s → selectedSum s = 0 ∨ selectedSum s ≠ target s.
Proof. intros Hreach. exact (proj2 (reachable_stable entropy s Hreach)). Qed.

Lemma X9_no_pending_match_witness :
  ∃ s, run sampleEntropy initialState twoClicks = Some s ∧
       (selectedSum s = 0 ∨ selectedSum s ≠ target s).
Proof.
  destruct (run sampleEntropy initialState twoClicks)
    as [s|] eqn:Hrun; [|vm_compute in Hrun; discriminate].
  exists s. split; [reflexivity|].
  exact (X9_no_pending_match sampleEntropy s (ex_intro _ _ Hrun)).
Defined.

Lemma toggleId_NoDup i sel : NoDup sel → NoDup (toggleId i sel).
Proof.
  intros Hsel. unfold toggleId. case_bool_decide as Hin.
  - by apply NoDup_filter.
  - apply NoDup_app. split; [exact Hsel|]. split.
    + intros j Hj ->%list_elem_of_singleton. done.
    + apply NoDup_singleton.
Qed.

Lemma runEffects_selectedIds entropy s s' :
  runEffects entropy s = Some s' →
  selectedIds s' = selectedIds s ∨ selectedIds s' = [].
Proof.
  intros [[H0 ->] | [(Hn & Ht & s1 & Hm & ->) | [(Hn & Ht & ->) | (Hn & Ht & ->)]]]%runEffects_cases;
    [by left| |by left|by left].
  apply matchBranch_fields in Hm as (Hsel & _). by right.
Qed.

(** X10: the selection never holds an id twice: [selectedIds] is free of
    duplicates in every state that events lead to. *)
Theorem X10_selection_NoDup entropy s :
  reachable entropy s → NoDup (selectedIds s).
Proof.
  set (P := λ x : State, NoDup (selectedIds x)).
  assert (∀ x x1, P x → addRow entropy x = Some x1 →
            P (setTimeLeft TIME_LIMIT x1)) as Hadd.
  { intros x x1 Hx Hadd.
    apply addRow_inv in Hadd
      as (g' & over & d' & _ & _ & _ & _ & _ & _ & _ & _ & _ & Hsel & _).
    unfold P. state_simpl. rewrite Hsel. exact Hx. }
  apply (reachable_invariant P P);
    try (intros x x1 Hx _ Ha _; exact (Hadd x x1 Hx Ha)); subst P; cbn beta.
  - apply NoDup_nil_2.
  - intros x m x0 _ (g & d' & _ & _ & _ & _ & _ & _ & Hsel & _)%initGame_inv.
    rewrite Hsel. apply NoDup_nil_2.
  - intros x Hx. exact Hx.
  - intros x i Hx _ _. state_simpl. by apply toggleId_NoDup.
  - intros x b Hx. exact Hx.
  - intros x v Hx. exact Hx.
  - intros x t rest _ _. state_simpl. apply NoDup_nil_2.
  - intros x x' Hx [-> | ->]%runEffects_selectedIds;
      [exact Hx | apply NoDup_nil_2].
Qed.

Lemma X10_selection_NoDup_witness :
  ∃ s, run sampleEntropy initialState twoClicks = Some s ∧
       selectedIds s = ["c3di"; "0a4i"]%string ∧ NoDup (selectedIds s).
Proof.
  destruct (run sampleEntropy initialState twoClicks)
    as [s|] eqn:Hrun; [|vm_compute in Hrun; discriminate].
  exists s. split; [reflexivity|]. split.
  - assert (selectedIds <$> Some s = Some ["c3di"; "0a4i"]%string) as Hs
      by (rewrite <- Hrun; vm_compute; reflexivity).
    by injection Hs.
  - exact (X10_selection_NoDup sampleEntropy s (ex_intro _ _ Hrun)).
Defined.

(** ** The shake *)

Lemma runEffects_timeouts entropy s s' :
  runEffects entropy s = Some s' →
  (isShaking s' = isShaking s ∧ timeouts s' = timeouts s) ∨
  (isShaking s' = true ∧ timeouts s' = timeouts s ++ [400]).
Proof.
  intros [[H0 ->] | [(Hn & Ht & s1 & Hm & ->) | [(Hn & Ht & ->) | (Hn & Ht & ->)]]]%runEffects_cases;
    [by left| |by right|by left].
  apply matchBranch_fields in Hm as (_ & Hshake & Htime & _). by left.
Qed.

(** X11: whenever [isShaking] is set, a timeout that will clear it is
    pending, and every pending timeout has a delay of 400 ms. *)
Theorem X11_shake_ends entropy s :
  reachable entropy s →
  (isShaking s = true → timeouts s ≠ []) ∧
  Forall (λ delay, delay = 400) (timeouts s).
Proof.
  set (P := λ x : State,
         (isShaking x = true → timeouts x ≠ []) ∧
         Forall (λ delay, delay = 400) (timeouts x)).
  assert (∀ x x1, P x → addRow entropy x = Some x1 →
            P (setTimeLeft TIME_LIMIT x1)) as Hadd.
  { intros x x1 Hx Hadd.
    apply addRow_inv in Hadd
      as (g' & over & d' & _ & _ & _ & _ & _ & _ & _ & _ & _ & _ & _ &
          Hshake & _ & Htime).
    unfold P. state_simpl. rewrite Hshake, Htime. exact Hx. }
  apply (reachable_invariant P P);
    try (intros x x1 Hx _ Ha _; exact (Hadd x x1 Hx Ha)); subst P; cbn beta.
  - split; [discriminate | apply Forall_nil_2].
  - intros x m x0 Hx Hinit. revert Hinit. unfold initGame.
    destruct (initGrid entropy (drawn x)) as [st|]; [|done].
    cbn [mbind option_bind]. intros [= <-]. state_simpl. exact Hx.
  - intros x Hx. exact Hx.
  - intros x i Hx _ _. exact Hx.
  - intros x b Hx. exact Hx.
  - intros x v Hx. exact Hx.
  - intros x t rest [_ Hall] Ht. state_simpl. split; [discriminate|].
    rewrite Ht in Hall. by apply Forall_cons in Hall as [_ Hall].
  - intros x x' [Hshake Hall] [[Hs Ht] | [Hs Ht]]%runEffects_timeouts.
    + rewrite Hs, Ht. done.
    + rewrite Ht. split.
      * intros _ Hnil. by apply app_eq_nil in Hnil as [_ ?].
      * apply Forall_app. split; [exact Hall|]. by apply Forall_singleton.
Qed.

Lemma X11_shake_ends_witness :
  ∃ s, run sampleEntropy initialState overshootClicks = Some s ∧
       isShaking s = true ∧ timeouts s ≠ [] ∧
       Forall (λ delay, delay = 400) (timeouts s).
Proof.
  destruct (run sampleEntropy initialState overshootClicks)
    as [s|] eqn:Hrun; [|vm_compute in Hrun; discriminate].
  assert (isShaking <$> Some s = Some true) as Hs
    by (rewrite <- Hrun; vm_compute; reflexivity).
  injection Hs as Hs.
  destruct (X11_shake_ends sampleEntropy s (ex_intro _ _ Hrun)) as [Hp Hall].
  exists s. split; [reflexivity|]. split; [exact Hs|].
  split; [exact (Hp Hs)|exact Hall].
Defined.

(** ** Starting a game *)

Lemma startGame_spec entropy s m :
  ∃ g, initGrid entropy (drawn s)
         = Some (g, (drawn s + 2 * GRID_COLS * INITIAL_ROWS)%nat) ∧
       shape g ∧
       (∀ x y, (x < GRID_ROWS)%nat → (y < GRID_COLS)%nat →
          readCell g x y =
            if decide (GRID_ROWS - INITIAL_ROWS ≤ x)%nat
            then Some (Some (generatedBlock entropy
                               (drawn s + 2 * GRID_COLS * (GRID_ROWS - 1 - x)) x y))
            else Some None) ∧
       step entropy s (StartGame m) =
         Some (setCurrentSum 0
              (setIsPaused false
              (setTimeLeft TIME_LIMIT
              (setMode (Some m)
              (setIsGameOver false
              (setSelectedIds []
              (setDrawn (S (drawn s + 2 * GRID_COLS * INITIAL_ROWS))
              (setTarget
                 (getRandomTarget
                    (random entropy (drawn s + 2 * GRID_COLS * INITIAL_ROWS)))
              (setScore 0
              (setGrid g s)))))))))).
Proof.
  destruct (initGrid_spec entropy (drawn s)) as (g & Hinit & Hshape & Hread).
  exists g. split; [exact Hinit|]. split; [exact Hshape|].
  split; [exact Hread|].
  cbn [step]. unfold initGame. rewrite Hinit. cbn [mbind option_bind fst snd].
  apply runEffects_no_selection. reflexivity.
Qed.

(** X12: [initGame] works from every state (the menu, a running game, a
    finished one) and gives a fresh game: the chosen mode, score 0, a
    target in [10, 25], no selection, not over, not paused, 10 seconds on
    the clock, and a 10 x 6 grid whose bottom four rows are full (each block
    with the [row] and [col] of its cell and a value from 1 to 9) and whose
    top six rows are empty; it calls [Math.random()] 49 times.  It leaves
    [isShaking] and the pending timeouts as they are. *)
Theorem X12_initGame_fresh entropy s m :
  ∃ s', step entropy s (StartGame m) = Some s' ∧
        mode s' = Some m ∧ score s' = 0 ∧ selectedIds s' = [] ∧
        currentSum s' = 0 ∧ isGameOver s' = false ∧ isPaused s' = false ∧
        timeLeft s' = TIME_LIMIT ∧
        TARGET_MIN ≤ target s' ≤ TARGET_MAX ∧
        shape (grid s') ∧
        (∀ r c, (r < GRID_ROWS)%nat → (c < GRID_COLS)%nat →
           if decide (GRID_ROWS - INITIAL_ROWS ≤ r)%nat
           then ∃ b, readCell (grid s') r c = Some (Some b) ∧
                     row b = r ∧ col b = c ∧ 1 ≤ value b ≤ 9
           else readCell (grid s') r c = Some None) ∧
        drawn s' = (drawn s + 49)%nat ∧
        isShaking s' = isShaking s ∧ timeouts s' = timeouts s.
Proof.
  destruct (startGame_spec entropy s m) as (g & _ & Hshape & Hread & Hstep).
  eexists. split; [exact Hstep|]. clear Hstep. state_simpl.
  do 7 (split; [reflexivity|]).
  split; [apply getRandomTarget_range|].
  split; [exact Hshape|].
  split; [|split; [|split; reflexivity]].
  - intros r c Hr Hc. rewrite (Hread r c Hr Hc). case_decide; [|reflexivity].
    eexists. split; [reflexivity|]. split; [reflexivity|].
    split; [reflexivity|]. apply generatedBlock_ok.
  - unfold GRID_COLS, INITIAL_ROWS. lia.
Qed.

(** ** Pausing *)

Lemma paused_frozen entropy s events :
  isPaused s = true →
  Forall (λ e, e = Tick ∨ ∃ i, e = BlockClick i) events →
  run entropy s events = Some s.
Proof.
  intros Hp. induction 1 as [|e events [-> | [i ->]] _ IH]; [reflexivity| |].
  - cbn [run step]. unfold timerArmed. rewrite Hp, andb_false_r.
    cbn [mbind option_bind]. exact IH.
  - cbn [run step]. rewrite Hp, orb_true_r. cbn [mbind option_bind]. exact IH.
Qed.

Lemma setIsPaused_undo s b :
  isPaused s = false → setIsPaused false (setIsPaused b s) = s.
Proof. destruct s. cbn. by intros ->. Qed.

(** X13: a pause freezes the game: after [setIsPaused(!isPaused)] in an
    unpaused state, block clicks and timer ticks change nothing at all, and
    the pause button or the resume button then gives back exactly the state
    in which the pause began. *)
Theorem X13_pause_roundtrip entropy s events :
  isPaused s = false →
  Forall (λ e, e = Tick ∨ ∃ i, e = BlockClick i) events →
  run entropy s (PauseToggle :: events) = Some (setIsPaused true s) ∧
  run entropy s (PauseToggle :: events ++ [PauseToggle]) = Some s ∧
  run entropy s (PauseToggle :: events ++ [Resume]) = Some s.
Proof.
  intros Hp Hev.
  assert (run entropy (setIsPaused true s) events = Some (setIsPaused true s))
    as Hfrozen by (by apply paused_frozen).
  cbn [run step]. rewrite Hp. cbn [negb mbind option_bind].
  split; [exact Hfrozen|].
  rewrite !run_app, Hfrozen. cbn [run step mbind option_bind].
  state_simpl. cbn [negb]. rewrite (setIsPaused_undo s true Hp). done.
Qed.

Lemma X13_pause_roundtrip_witness :
  isPaused (startedState sampleEntropy TIME) = false ∧
  run sampleEntropy (startedState sampleEntropy TIME)
    (PauseToggle :: [Tick; BlockClick "0a4i"; Tick]%string ++ [PauseToggle])
  = Some (startedState sampleEntropy TIME).
Proof.
  assert (isPaused (startedState sampleEntropy TIME) = false) as Hp
    by (vm_compute; reflexivity).
  split; [exact Hp|].
  refine (proj1 (proj2 (X13_pause_roundtrip sampleEntropy _
            [Tick; BlockClick "0a4i"; Tick]%string Hp _))).
  repeat (apply Forall_cons_2;
          [(left; reflexivity) || (right; eexists; reflexivity)|]).
  apply Forall_nil_2.
Defined.

(** ** Timeouts that outlive their game *)

Lemma step_timeouts entropy s e s' :
  step entropy s e = Some s' → e ≠ ShakeTimeout →
  ∃ new, timeouts s' = timeouts s ++ new.
Proof.
  assert (∀ x x', runEffects entropy x = Some x' →
            ∃ new, timeouts x' = timeouts x ++ new) as Heff.
  { intros x x' [[_ ->] | [_ ->]]%runEffects_timeouts.
    - exists []. by rewrite app_nil_r.
    - by eexists. }
  assert (∀ x x1, addRow entropy x = Some x1 → timeouts x1 = timeouts x)
    as Hadd.
  { intros x x1 Ha. apply addRow_inv in Ha as (g' & over & d' & Ha).
    apply Ha. }
  intros Hstep Hne. destruct e.
  - destruct (startGame_spec entropy s selectedMode) as (g & _ & _ & _ & Heq).
    rewrite Heq in Hstep. injection Hstep as <-. state_simpl.
    exists []. by rewrite app_nil_r.
  - cbn [step] in Hstep.
    destruct (mode s); [|injection Hstep as <-; exists []; by rewrite app_nil_r].
    by apply Heff in Hstep.
  - cbn [step] in Hstep. unfold handleBlockClick in Hstep.
    destruct (isGameOver s || isPaused s);
      [injection Hstep as <-; exists []; by rewrite app_nil_r|].
    by apply Heff in Hstep.
  - injection Hstep as <-. exists []. by rewrite app_nil_r.
  - injection Hstep as <-. exists []. by rewrite app_nil_r.
  - cbn [step] in Hstep.
    destruct (timerArmed s);
      [|injection Hstep as <-; exists []; by rewrite app_nil_r].
    apply tick_inv in Hstep
      as [[_ ->] | (_ & s1 & Ha & [[Hg ->] | [Hg Hrun]])].
    + exists []. by rewrite app_nil_r.
    + exists []. state_simpl. by rewrite (Hadd _ _ Ha), app_nil_r.
    + apply Heff in Hrun as [new Hnew]. exists new. rewrite Hnew.
      state_simpl. by rewrite (Hadd _ _ Ha).
  - done.
Qed.

(** X14: [initGame] does not cancel the timeout of an overshoot: a timeout
    pending when the game is restarted still fires in the new game, and
    empties a selection made there. *)
Theorem X14_stale_timeout entropy s m i s1 s2 :
  timeouts s ≠ [] →
  step entropy s (StartGame m) = Some s1 →
  step entropy s1 (BlockClick i) = Some s2 →
  selectedIds s2 = [i] →
  ∃ s3, step entropy s2 ShakeTimeout = Some s3 ∧
        selectedIds s3 = [] ∧ grid s3 = grid s2 ∧ score s3 = score s2.
Proof.
  intros Hpending Hstart Hclick _.
  apply step_timeouts in Hstart as [new1 H1]; [|discriminate].
  apply step_timeouts in Hclick as [new2 H2]; [|discriminate].
  destruct (timeouts s2) as [|t rest] eqn:Ht.
  - exfalso. symmetry in H2. apply app_eq_nil in H2 as [H2 _].
    rewrite H1 in H2. apply app_eq_nil in H2 as [H2 _]. by apply Hpending.
  - eexists. split; [exact (step_shakeTimeout entropy s2 t rest Ht)|].
    state_simpl. split; [reflexivity|]. split; reflexivity.
Qed.

Lemma X14_stale_timeout_witness :
  timeouts (stateAfter sampleEntropy overshootClicks) = [400] ∧
  selectedIds
    (stateAfter sampleEntropy
       (overshootClicks ++ [StartGame TIME; BlockClick "e29"]%string))
    = ["e29"]%string ∧
  ∃ s3, step sampleEntropy
          (stateAfter sampleEntropy
             (overshootClicks ++ [StartGame TIME; BlockClick "e29"]%string))
          ShakeTimeout = Some s3 ∧
        selectedIds s3 = [].
Proof.
  split; [vm_compute; reflexivity|]. split; [vm_compute; reflexivity|].
  destruct (X14_stale_timeout sampleEntropy
              (stateAfter sampleEntropy overshootClicks) TIME "e29"
              (stateAfter sampleEntropy (overshootClicks ++ [StartGame TIME]))
              (stateAfter sampleEntropy
                 (overshootClicks ++ [StartGame TIME; BlockClick "e29"]%string)))
    as (s3 & H3 & Hnone & _).
  - vm_compute. discriminate.
  - vm_compute. reflexivity.
  - vm_compute. reflexivity.
  - vm_compute. reflexivity.
  - exists s3. split; [exact H3|exact Hnone].
Defined.

(** ** Which mode injects rows when *)

Lemma sumValues_nonzero blocks : sumValues blocks ≠ 0 → (0 < length blocks)%nat.
Proof. destruct blocks; [by intros []|cbn; lia]. Qed.

Lemma runEffects_rows entropy s s' :
  runEffects entropy s = Some s' →
  (addRowCalls s' = addRowCalls s ∧ score s' = score s) ∨
  (score s < score s' ∧
   addRowCalls s' =
     if bool_decide (mode s = Some CLASSIC) then S (addRowCalls s)
     else addRowCalls s).
Proof.
  intros [[H0 ->] | [(Hn & Ht & s1 & Hm & ->) | [(Hn & Ht & ->) | (Hn & Ht & ->)]]]%runEffects_cases;
    [by left| |by left|by left].
  right. apply matchBranch_fields in Hm as (_ & _ & _ & _ & Hscore & Hcalls).
  apply sumValues_nonzero in Hn. state_simpl. split; [lia | exact Hcalls].
Qed.

(** X15: rows are injected by matches in the classic mode only and by the
    timer in the time mode only.  For every event but [initGame] and the
    menu button: in the classic mode [addRow] is called exactly when the
    score rises (once per match); in the time mode it is called only by a
    tick that finds [timeLeft <= 1]; with no mode it is not called. *)
Theorem X15_row_injection entropy s e s' :
  step entropy s e = Some s' → (∀ m, e ≠ StartGame m) → e ≠ Menu →
  (mode s = Some CLASSIC →
     (addRowCalls s' = addRowCalls s ∧ score s' = score s) ∨
     (addRowCalls s' = S (addRowCalls s) ∧ score s < score s')) ∧
  (mode s = Some TIME →
     addRowCalls s' = addRowCalls s ∨
     (addRowCalls s' = S (addRowCalls s) ∧ e = Tick ∧ timeLeft s ≤ 1)) ∧
  (mode s = None → addRowCalls s' = addRowCalls s).
Proof.
  assert (∀ x x', runEffects entropy x = Some x' →
            (mode x = Some CLASSIC →
               (addRowCalls x' = addRowCalls x ∧ score x' = score x) ∨
               (addRowCalls x' = S (addRowCalls x) ∧ score x < score x')) ∧
            (mode x ≠ Some CLASSIC → addRowCalls x' = addRowCalls x)) as Heff.
  { intros x x' [[-> ->] | [Hlt ->]]%runEffects_rows.
    - split; [by left|done].
    - split; intros Hm.
      + right. by rewrite bool_decide_eq_true_2.
      + by rewrite bool_decide_eq_false_2. }
  assert (∀ e0 x', addRowCalls x' = addRowCalls s → score x' = score s →
            (mode s = Some CLASSIC →
               (addRowCalls x' = addRowCalls s ∧ score x' = score s) ∨
               (addRowCalls x' = S (addRowCalls s) ∧ score s < score x')) ∧
            (mode s = Some TIME →
               addRowCalls x' = addRowCalls s ∨
               (addRowCalls x' = S (addRowCalls s) ∧ e0 = Tick ∧
                timeLeft s ≤ 1)) ∧
            (mode s = None → addRowCalls x' = addRowCalls s)) as Hsame.
  { intros e0 x' Hc Hs. split; [by left|]. split; [by left|done]. }
  assert (∀ e0 x x', mode x = mode s → addRowCalls x = addRowCalls s →
                  score x = score s → runEffects entropy x = Some x' →
            (mode s = Some CLASSIC →
               (addRowCalls x' = addRowCalls s ∧ score x' = score s) ∨
               (addRowCalls x' = S (addRowCalls s) ∧ score s < score x')) ∧
            (mode s = Some TIME →
               addRowCalls x' = addRowCalls s ∨
               (addRowCalls x' = S (addRowCalls s) ∧ e0 = Tick ∧
                timeLeft s ≤ 1)) ∧
            (mode s = None → addRowCalls x' = addRowCalls s)) as Hrun.
  { intros e0 x x' Hm Hc Hs Hrun. apply Heff in Hrun as [Hclassic Hother].
    rewrite Hm, Hc, Hs in *. split; [exact Hclassic|].
    split; intros Hmode; [left|]; apply Hother; congruence. }
  intros Hstep Hne Hmenu. destruct e; [by destruct (Hne selectedMode)|done|..].
  - cbn [step] in Hstep. unfold handleBlockClick in Hstep.
    destruct (isGameOver s || isPaused s);
      [injection Hstep as <-; by apply Hsame|].
    refine (Hrun _ _ _ _ _ _ Hstep); reflexivity.
  - injection Hstep as <-. by apply Hsame.
  - injection Hstep as <-. by apply Hsame.
  - cbn [step] in Hstep.
    destruct (timerArmed s) eqn:Harm; [|injection Hstep as <-; by apply Hsame].
    apply timerArmed_true in Harm as (Hmode & _ & _).
    apply tick_inv in Hstep
      as [[_ ->] | (Hle & s1 & Ha & Hrest)].
    { by apply Hsame. }
    apply addRow_inv in Ha
      as (g' & over & d' & _ & _ & _ & Hcalls & _ & _ & Hm1 & _).
    split; [congruence|]. split; [intros _; right|congruence].
    destruct Hrest as [[Hg ->] | [Hg Hrun1]].
    + state_simpl. done.
    + apply Heff in Hrun1 as [_ Hother]. state_simpl.
      rewrite Hother by congruence. done.
  - cbn [step] in Hstep.
    destruct (timeouts s) as [|t rest]; [injection Hstep as <-; by apply Hsame|].
    refine (Hrun _ _ _ _ _ _ Hstep); reflexivity.
Qed.

Lemma X15_row_injection_witness :
  ∃ s', step sampleEntropy
          (setSelectedIds ["c3di"; "cnmi"; "d7vi"; "aemi"]%string
             (startedState sampleEntropy CLASSIC))
          (BlockClick "0a4i") = Some s' ∧
        score s' = 50 ∧ addRowCalls s' = 1%nat ∧
        ((addRowCalls s' = 0%nat ∧ score s' = 0) ∨
         (addRowCalls s' = 1%nat ∧ 0 < score s')).
Proof.
  destruct (step sampleEntropy
              (setSelectedIds ["c3di"; "cnmi"; "d7vi"; "aemi"]%string
                 (startedState sampleEntropy CLASSIC))
              (BlockClick "0a4i")) as [s'|] eqn:Hstep;
    [|vm_compute in Hstep; discriminate].
  exists s'. split; [reflexivity|].
  assert ((λ x, (score x, addRowCalls x)) <$> Some s' = Some (50, 1%nat)) as Hs
    by (rewrite <- Hstep; vm_compute; reflexivity).
  injection Hs as Hscore Hcalls.
  split; [exact Hscore|]. split; [exact Hcalls|].
  refine (proj1 (X15_row_injection sampleEntropy _ _ s' Hstep _ _) _);
    [discriminate|discriminate|vm_compute; reflexivity].
Defined.

(** ** Gravity, in full *)

Lemma blockAt_Some g r c b :
  blockAt g r c = Some b ↔ readCell g r c = Some (Some b).
Proof.
  unfold blockAt. destruct (readCell g r c) as [[b'|]|]; cbn; naive_solver.
Qed.

Lemma blockAt_None g r c :
  shape g → (r < GRID_ROWS)%nat → (c < GRID_COLS)%nat →
  blockAt g r c = None ↔ readCell g r c = Some None.
Proof.
  intros Hs Hr Hc. destruct (readCell_in_range g r c Hs Hr Hc) as [v Hv].
  unfold blockAt. rewrite Hv. cbn. split; [by intros ->|by intros [= ->]].
Qed.

Lemma dropOne_bounds g c r b g2 :
  shape g → dropOne g c r b g2 → (S r < GRID_ROWS)%nat ∧ (c < GRID_COLS)%nat.
Proof. intros Hs (Hnone & _). exact (readCell_range _ _ _ _ Hs Hnone). Qed.

Lemma withRow_withRow b r r' : withRow (withRow b r) r' = withRow b r'.
Proof. reflexivity. Qed.

Lemma dropOne_columnBlocks g c r b g2 y :
  dropOne g c r b g2 → (S r < GRID_ROWS)%nat →
  (λ k, withRow k 0) <$> columnBlocks g2 y
  = (λ k, withRow k 0) <$> columnBlocks g y.
Proof.
  intros Hd Hr. unfold columnBlocks.
  destruct (decide (y = c)) as [->|Hy].
  - assert (seq 0 GRID_ROWS
            = seq 0 r ++ [r; S r] ++ seq (S (S r)) (GRID_ROWS - S (S r)))
      as ->.
    { replace GRID_ROWS with (r + (2 + (GRID_ROWS - S (S r))))%nat at 1 by lia.
      rewrite seq_app. simpl. done. }
    rewrite !omap_app, !fmap_app.
    rewrite (omap_ext_elem (λ x, blockAt g2 x c) (λ x, blockAt g x c) (seq 0 r)).
    2:{ intros i [_ Hi]%elem_of_seq. unfold blockAt.
        rewrite (dropOne_read _ _ _ _ _ i c Hd).
        rewrite !decide_False by lia. done. }
    rewrite (omap_ext_elem (λ x, blockAt g2 x c) (λ x, blockAt g x c)
               (seq (S (S r)) _)).
    2:{ intros i [Hi _]%elem_of_seq. unfold blockAt.
        rewrite (dropOne_read _ _ _ _ _ i c Hd).
        rewrite !decide_False by lia. done. }
    f_equal. f_equal. cbn [omap list_omap]. unfold blockAt.
    rewrite (dropOne_read _ _ _ _ _ r c Hd), (dropOne_read _ _ _ _ _ (S r) c Hd).
    rewrite decide_True by done.
    rewrite decide_False by lia. rewrite decide_True by done.
    destruct Hd as (-> & -> & _). reflexivity.
  - f_equal. apply omap_ext_elem. intros i _. unfold blockAt.
    rewrite (dropOne_read _ _ _ _ _ i y Hd).
    rewrite !decide_False by (intros [_ ?]; done). done.
Qed.

(** Gravity keeps the blocks of every column in their order. *)
Lemma applyGravity_columnBlocks g g' changed c :
  shape g → applyGravity g = Some (g', changed) →
  (λ k, withRow k 0) <$> columnBlocks g' c
  = (λ k, withRow k 0) <$> columnBlocks g c.
Proof.
  intros Hs Hrun.
  refine (proj2 (applyGravity_moves
            (λ h, shape h ∧
                  (λ k, withRow k 0) <$> columnBlocks h c
                  = (λ k, withRow k 0) <$> columnBlocks g c)
            g g' changed _ Hrun (conj Hs eq_refl))).
  intros h y r b h2 [Hh Heq] Hd. split; [exact (dropOne_shape _ _ _ _ _ Hd Hh)|].
  rewrite <- Heq. apply (dropOne_columnBlocks h y r b h2 c Hd).
  exact (proj1 (dropOne_bounds _ _ _ _ _ Hh Hd)).
Qed.

(** A column without gaps, read from the top: nothing, then its blocks. *)
Lemma stacked_lookup {A} (f : nat → option A) n :
  (∀ r, (S r < n)%nat → is_Some (f r) → is_Some (f (S r))) →
  (length (omap f (seq 0 n)) ≤ n)%nat ∧
  ∀ r, (r < n)%nat →
    if decide (n - length (omap f (seq 0 n)) ≤ r)%nat
    then is_Some (f r) ∧
         omap f (seq 0 n) !! (r - (n - length (omap f (seq 0 n))))%nat = f r
    else f r = None.
Proof.
  induction n as [|n IH]; intros Hup; [split; [cbn; lia|intros r Hr; lia]|].
  rewrite seq_S, omap_app. cbn [omap list_omap plus].
  destruct (f n) as [a|] eqn:Hn.
  - destruct IH as [Hlen Hrows]; [intros r Hr; apply Hup; lia|].
    rewrite length_app. cbn [length]. split; [lia|].
    intros r Hr.
    replace (S n - (length (omap f (seq 0 n)) + 1))%nat
      with (n - length (omap f (seq 0 n)))%nat by lia.
    destruct (decide (r = n)) as [->|Hne].
    + rewrite decide_True by lia. split; [by rewrite Hn|].
      replace (n - (n - length (omap f (seq 0 n))))%nat
        with (length (omap f (seq 0 n))) by lia.
      rewrite Hn. apply list_lookup_middle. reflexivity.
    + specialize (Hrows r ltac:(lia)). case_decide; [|exact Hrows].
      destruct Hrows as [Hsome Hlook]. split; [exact Hsome|].
      rewrite lookup_app_l by lia. exact Hlook.
  - assert (∀ d r, (r + d = n)%nat → f r = None) as Hnone.
    { induction d as [|d IHd]; intros r Hr.
      - replace r with n by lia. exact Hn.
      - destruct (f r) eqn:Hfr; [|done].
        assert (is_Some (f (S r))) as [x Hx]
          by (apply Hup; [lia|by rewrite Hfr]).
        rewrite (IHd (S r)) in Hx by lia. done. }
    assert (omap f (seq 0 n) = []) as Hnil.
    { rewrite (omap_ext_elem f (λ _, None) (seq 0 n)).
      - clear. induction (seq 0 n) as [|x l IHl]; [reflexivity|exact IHl].
      - intros x [_ Hx]%elem_of_seq. apply (Hnone (n - x)%nat). lia. }
    rewrite Hnil. cbn [app length]. split; [lia|]. intros r Hr.
    rewrite decide_False by lia. apply (Hnone (n - r)%nat). lia.
Qed.

Lemma sameBlock_row b b' : withRow b' 0 = withRow b 0 → b' = withRow b (row b').
Proof. destruct b, b'. cbn. intros [= -> -> -> ->]. reflexivity. Qed.

Lemma settled_stacked g c :
  shape g → settled g → (c < GRID_COLS)%nat →
  ∀ r, (S r < GRID_ROWS)%nat →
       is_Some (blockAt g r c) → is_Some (blockAt g (S r) c).
Proof.
  intros Hs Hset Hc r Hr [b Hb]. apply blockAt_Some in Hb.
  destruct (blockAt g (S r) c) eqn:Hn; [by eexists|].
  apply blockAt_None in Hn; [|done..]. by destruct (Hset _ _ _ Hb).
Qed.

(** X16: what [applyGravity] computes.  On a 10 x 6 grid whose blocks
    carry their positions, column by column: the blocks of the column, in
    their order from the top, end up stacked on the bottom row without a
    gap, each with its [row] field set to its new row, and the cells above
    them are empty; the [row] and [col] fields of every block of the new
    grid are the row and the column of its cell. *)
Theorem X16_gravity_stacks g g' changed :
  shape g → positionsOK g → applyGravity g = Some (g', changed) →
  ∀ r c, (r < GRID_ROWS)%nat → (c < GRID_COLS)%nat →
    readCell g' r c = Some (stackedCell (columnBlocks g c) r) ∧
    ∀ b, readCell g' r c = Some (Some b) → row b = r ∧ col b = c.
Proof.
  intros Hs Hpos Hrun r c Hr Hc.
  pose proof (applyGravity_shape _ _ _ Hrun Hs) as Hs'.
  pose proof (applyGravity_settles _ _ _ Hs Hrun) as Hset.
  pose proof (applyGravity_positionsOK _ _ _ Hrun Hpos) as Hpos'.
  split; [|intros b Hb; exact (Hpos' _ _ _ Hb)].
  pose proof (applyGravity_columnBlocks _ _ _ c Hs Hrun) as Hcol.
  clear Hrun.
  destruct (stacked_lookup (λ x, blockAt g' x c) GRID_ROWS
              (settled_stacked g' c Hs' Hset Hc)) as [Hlen Hrows].
  fold (columnBlocks g' c) in Hlen, Hrows.
  assert (length (columnBlocks g' c) = length (columnBlocks g c)) as Hk.
  { rewrite <- (length_fmap (λ k, withRow k 0) (columnBlocks g' c)), Hcol.
    apply length_fmap. }
  specialize (Hrows r Hr). unfold stackedCell. rewrite <- Hk.
  case_decide.
  - destruct Hrows as [[b' Hb'] Hlook]. rewrite Hb' in Hlook.
    assert (((λ k, withRow k 0) <$> columnBlocks g c)
              !! (r - (GRID_ROWS - length (columnBlocks g' c)))%nat
            = Some (withRow b' 0)) as Hb.
    { rewrite <- Hcol, list_lookup_fmap, Hlook. reflexivity. }
    rewrite list_lookup_fmap in Hb.
    destruct (columnBlocks g c !! _) as [b|] eqn:Hgb; [|discriminate].
    apply (inj Some) in Hb. apply blockAt_Some in Hb'.
    destruct (Hpos' _ _ _ Hb') as [Hrow _].
    rewrite Hb'. cbn. rewrite (sameBlock_row b b') by (symmetry; exact Hb).
    by rewrite Hrow.
  - apply blockAt_None in Hrows; [exact Hrows|exact Hs'|exact Hr|exact Hc].
Qed.

Lemma X16_gravity_stacks_witness :
  shape gappedGrid ∧ positionsOK gappedGrid ∧
  stackedCell (columnBlocks gappedGrid 0) 9
    = Some (mkBlock "3nmi" 1 9 0 false) ∧
  ∃ g' changed, applyGravity gappedGrid = Some (g', changed) ∧
                readCell g' 9 0 = Some (stackedCell (columnBlocks gappedGrid 0) 9) ∧
                ∀ b, readCell g' 9 0 = Some (Some b) → row b = 9%nat ∧ col b = 0%nat.
Proof.
  split; [exact gappedGrid_shape|]. split; [exact gappedGrid_positionsOK|].
  split; [vm_compute; reflexivity|].
  destruct (applyGravity gappedGrid) as [[g' changed]|] eqn:Hrun;
    [|vm_compute in Hrun; discriminate].
  exists g', changed. split; [reflexivity|].
  apply (X16_gravity_stacks gappedGrid g' changed gappedGrid_shape
           gappedGrid_positionsOK Hrun); unfold GRID_ROWS, GRID_COLS; lia.
Defined.

(** *** The flag [changed] *)

Lemma columnWeight_ext g g' c :
  (∀ x, readCell g' x c = readCell g x c) →
  columnWeight g' c = columnWeight g c.
Proof.
  intros Hread. unfold columnWeight. apply sum_list_with_ext.
  intros i _. unfold cellWeight. by rewrite Hread.
Qed.

Lemma settleColumn_changed fuel g c r ch g' ch' :
  shape g → settleColumn fuel g c r ch = Some (g', ch') →
  (g' = g ∧ ch' = ch) ∨
  (ch' = true ∧ (columnWeight g' c < columnWeight g c)%nat).
Proof.
  revert g r ch. induction fuel as [|fuel IH]; intros g r ch Hs; [done|].
  destruct r as [|r]; [intros [= <- <-]; by left|].
  intros (g1 & r1 & ch1 & Hstep & Hrun)%settleColumn_inv.
  apply gravityStep_inv in Hstep as [(-> & -> & -> & _)|(b & Hd & -> & ->)].
  - by apply IH in Hrun.
  - pose proof (columnWeight_drop _ _ _ _ _ Hd
                  (proj1 (dropOne_bounds _ _ _ _ _ Hs Hd))) as Hw.
    apply IH in Hrun as [[-> ->] | [-> Hlt]];
      [| |exact (dropOne_shape _ _ _ _ _ Hd Hs)]; right; split;
      (reflexivity || lia).
Qed.

Transparent applyGravity.

Lemma applyGravity_changed g g' changed :
  shape g → applyGravity g = Some (g', changed) →
  (g' = g ∧ changed = false) ∨
  (changed = true ∧ ∃ c, (columnWeight g' c < columnWeight g c)%nat).
Proof.
  intros Hs Hrun. unfold applyGravity in Hrun.
  pose proof (forEach_seq_inv
    (λ i (st : Grid * bool),
       shape st.1 ∧
       ((st.1 = g ∧ st.2 = false) ∨
        (st.2 = true ∧
         ∃ c, (c < i)%nat ∧ (columnWeight st.1 c < columnWeight g c)%nat)))
    gravityColumn _ _ _ _ Hrun) as Hinv.
  cbn beta in Hinv. destruct Hinv as [_ [Hsame | (Hch & c & _ & Hlt)]].
  - split; [exact Hs|]. left. split; reflexivity.
  - clear Hrun. intros i [h ch] [h' ch'] _ [Hh Hprev] Hstep.
    unfold gravityColumn in Hstep. cbn [fst snd] in *.
    split; [exact (settleColumn_shape _ _ _ _ _ _ _ Hstep Hh)|].
    pose proof (settleColumn_changed _ _ _ _ _ _ _ Hh Hstep)
      as [[-> ->] | [-> Hlt]].
    + destruct Hprev as [Hprev | (Hch & c & Hc & Hlt)]; [by left|].
      right. split; [exact Hch|]. exists c. split; [lia|exact Hlt].
    + right. split; [reflexivity|].
      destruct Hprev as [[-> _] | (_ & c & Hc & Hlt')].
      * exists i. split; [lia|exact Hlt].
      * exists c. split; [lia|].
        rewrite (columnWeight_ext h h' c); [exact Hlt'|].
        intros x. apply (settleColumn_other_columns _ _ _ _ _ _ _ x c Hstep).
        lia.
  - left. exact Hsame.
  - right. split; [exact Hch|]. by exists c.
Qed.

Opaque applyGravity.

(** X17: the flag that [applyGravity] returns tells whether it moved a
    block: on a 10 x 6 grid, [changed] is [false] exactly when the grid
    returned is the grid given, and exactly when no block of the grid given
    had an empty cell beneath it. *)
Theorem X17_gravity_changed g g' changed :
  shape g → applyGravity g = Some (g', changed) →
  (changed = false ↔ g' = g) ∧ (changed = false ↔ settled g).
Proof.
  intros Hs Hrun.
  pose proof (applyGravity_settles _ _ _ Hs Hrun) as Hset.
  assert (changed = false ↔ g' = g) as Hsame.
  { destruct (applyGravity_changed g g' changed Hs Hrun)
      as [[-> ->] | (-> & c & Hlt)]; [done|].
    split; [discriminate|]. intros ->. lia. }
  split; [exact Hsame|]. split.
  - intros Hch. apply Hsame in Hch. by rewrite <- Hch.
  - intros Hg. rewrite (applyGravity_settled g Hs Hg) in Hrun.
    by injection Hrun as _ <-.
Qed.

Lemma X17_gravity_changed_witness :
  shape gappedGrid ∧
  ∃ g' changed, applyGravity gappedGrid = Some (g', changed) ∧
                changed = true ∧
                (changed = false ↔ g' = gappedGrid) ∧
                (changed = false ↔ settled gappedGrid).
Proof.
  split; [exact gappedGrid_shape|].
  destruct (applyGravity gappedGrid) as [[g' changed]|] eqn:Hrun;
    [|vm_compute in Hrun; discriminate].
  exists g', changed. split; [reflexivity|]. split.
  - assert (snd <$> Some (g', changed) = Some true) as Hc
      by (rewrite <- Hrun; vm_compute; reflexivity).
    by injection Hc.
  - exact (X17_gravity_changed gappedGrid g' changed gappedGrid_shape Hrun).
Defined.

(** ** A click and the sum *)

Lemma sumValues_acc blocks a :
  foldl (λ acc b, acc + value b) a blocks = a + sumValues blocks.
Proof.
  unfold sumValues. revert a.
  induction blocks as [|b blocks IH]; intros a; cbn [foldl]; [lia|].
  rewrite (IH (a + value b)), (IH (0 + value b)). lia.
Qed.

Lemma sumValues_app l1 l2 :
  sumValues (l1 ++ l2) = sumValues l1 + sumValues l2.
Proof. unfold sumValues at 1. rewrite foldl_app. apply sumValues_acc. Qed.

Lemma sumValues_cons b l : sumValues (b :: l) = value b + sumValues l.
Proof. unfold sumValues at 1. cbn [foldl]. apply sumValues_acc. Qed.

(** The cells of a grid, row by row, around one of them. *)
Lemma concat_split (g : Grid) r c v :
  readCell g r c = Some v →
  ∃ l1 l2, concat g = l1 ++ v :: l2 ∧
    ∀ x, x ∈ l1 ++ l2 →
      ∃ r' c', ¬ (r' = r ∧ c' = c) ∧ readCell g r' c' = Some x.
Proof.
  intros (line & Hline & Hv)%readCell_Some.
  exists (concat (take r g) ++ take c line),
         (drop (S c) line ++ concat (drop (S r) g)).
  split.
  - rewrite <- (take_drop_middle g r line Hline) at 1.
    rewrite concat_app, concat_cons.
    rewrite <- (take_drop_middle line c v Hv) at 1.
    by rewrite <- !app_assoc.
  - intros x Hx. rewrite !elem_of_app in Hx.
    destruct Hx as [[Hx | Hx] | [Hx | Hx]].
    + apply elem_of_concat in Hx as (line' & Hl & Hx).
      apply list_elem_of_lookup in Hl as [i Hi].
      apply lookup_take_Some in Hi as [Hi Hlt].
      apply list_elem_of_lookup in Hx as [j Hj].
      exists i, j. split; [lia|]. apply readCell_Some. eauto.
    + apply list_elem_of_lookup in Hx as [j Hj].
      apply lookup_take_Some in Hj as [Hj Hlt].
      exists r, j. split; [lia|]. apply readCell_Some. eauto.
    + apply list_elem_of_lookup in Hx as [j Hj].
      rewrite lookup_drop in Hj.
      exists r, (S c + j)%nat. split; [lia|]. apply readCell_Some. eauto.
    + apply elem_of_concat in Hx as (line' & Hl & Hx).
      apply list_elem_of_lookup in Hl as [i Hi].
      rewrite lookup_drop in Hi.
      apply list_elem_of_lookup in Hx as [j Hj].
      exists (S r + i)%nat, j. split; [lia|]. apply readCell_Some. eauto.
Qed.

Lemma selectedSum_add (g : Grid) r c b sel sel' :
  readCell g r c = Some (Some b) →
  uniqueIds g →
  id b ∉ sel → id b ∈ sel' → (∀ j, j ≠ id b → (j ∈ sel' ↔ j ∈ sel)) →
  sumValues (selectedBlocks g sel')
  = sumValues (selectedBlocks g sel) + value b.
Proof.
  intros Hb Huniq Hout Hin Hsame. unfold selectedBlocks.
  destruct (concat_split g r c (Some b) Hb) as (l1 & l2 & -> & Hrest).
  assert (∀ l : list cell, (∀ x, x ∈ l → x ∈ l1 ++ l2) →
            omap (pickSelected sel') l = omap (pickSelected sel) l) as Heq.
  { intros l Hl. apply omap_ext_elem. intros [b'|] Hx; [|reflexivity].
    destruct (Hrest _ (Hl _ Hx)) as (r' & c' & Hne & Hb').
    unfold pickSelected. cbn [mbind option_bind].
    assert (id b' ≠ id b) as Hid.
    { intros Hid. apply Hne. exact (Huniq _ _ _ _ _ _ Hb' Hb Hid). }
    apply Hsame in Hid.
    destruct (decide (id b' ∈ sel)) as [Hy | Hn].
    - rewrite !bool_decide_eq_true_2 by tauto. reflexivity.
    - rewrite !bool_decide_eq_false_2 by tauto. reflexivity. }
  rewrite !omap_app. cbn [omap list_omap].
  rewrite (Heq l1) by (intros x Hx; apply elem_of_app; by left).
  rewrite (Heq l2) by (intros x Hx; apply elem_of_app; by right).
  assert (pickSelected sel' (Some b) = Some b) as ->.
  { unfold pickSelected. cbn [mbind option_bind].
    by rewrite bool_decide_eq_true_2. }
  assert (pickSelected sel (Some b) = None) as ->.
  { unfold pickSelected. cbn [mbind option_bind].
    by rewrite bool_decide_eq_false_2. }
  rewrite !sumValues_app, sumValues_cons. lia.
Qed.

(** X18: a click on a block changes the selected sum by that block's
    value.  In a running, unpaused game whose blocks have different ids, a
    click on an unselected block adds its value to the sum of the selected
    blocks, and a click on a selected block takes its value off. *)
Theorem X18_click_sum s r c b :
  uniqueIds (grid s) →
  readCell (grid s) r c = Some (Some b) →
  isGameOver s = false → isPaused s = false →
  selectedSum (handleBlockClick (id b) s) =
    if bool_decide (id b ∈ selectedIds s) then selectedSum s - value b
    else selectedSum s + value b.
Proof.
  intros Huniq Hb Hrun Hp. unfold handleBlockClick, selectedSum.
  rewrite Hrun, Hp. cbn [orb]. state_simpl. unfold toggleId.
  case_bool_decide as Hin.
  - rewrite (selectedSum_add (grid s) r c b
               (filter (λ j, j ≠ id b) (selectedIds s)) (selectedIds s)
               Hb Huniq); [lia| |exact Hin|].
    + intros [Hne _]%list_elem_of_filter. by apply Hne.
    + intros j Hj. rewrite list_elem_of_filter. tauto.
  - apply (selectedSum_add (grid s) r c b); [exact Hb|exact Huniq|exact Hin| |].
    + apply elem_of_app. right. by apply list_elem_of_singleton.
    + intros j Hj. rewrite elem_of_app, list_elem_of_singleton. tauto.
Qed.

Lemma X18_click_sum_witness :
  readCell (grid (startedState sampleEntropy TIME)) 9 0
    = Some (Some (mkBlock "0a4i" 1 9 0 false)) ∧
  selectedSum (handleBlockClick "0a4i" (startedState sampleEntropy TIME))
    = if bool_decide ("0a4i"%string ∈ selectedIds (startedState sampleEntropy TIME))
      then selectedSum (startedState sampleEntropy TIME) - 1
      else selectedSum (startedState sampleEntropy TIME) + 1.
Proof.
  assert (readCell (grid (startedState sampleEntropy TIME)) 9 0
          = Some (Some (mkBlock "0a4i" 1 9 0 false))) as Hb
    by (vm_compute; reflexivity).
  split; [exact Hb|].
  refine (X18_click_sum (startedState sampleEntropy TIME) 9 0
            (mkBlock "0a4i" 1 9 0 false) _ Hb _ _).
  - rewrite startedState_grid. exact sampleGrid_uniqueIds.
  - vm_compute. reflexivity.
  - vm_compute. reflexivity.
Defined.

(** ** An idle game of the time mode *)

Lemma idleTimed_armed s : idleTimed s → timerArmed s = true.
Proof. intros (Hm & Hg & Hp & _). apply timerArmed_true. done. Qed.

(** The tenth tick of a countdown. *)
Lemma idle_expiry entropy s :
  idleTimed s →
  ∃ s1, addRow entropy (setTimeLeft 1 s) = Some s1 ∧
        run entropy s (replicate 10 Tick) =
          Some (if isGameOver s1 then setTimeLeft TIME_LIMIT s1
                else setCurrentSum 0 (setTimeLeft TIME_LIMIT s1)).
Proof.
  intros Hidle. pose proof (idleTimed_armed s Hidle) as Harm.
  destruct Hidle as (Hm & Hg & Hp & Ht & Hsel & Hs).
  destruct (addRow_total entropy (setTimeLeft 1 s) Hs) as (s1 & Hadd & _).
  exists s1. split; [exact Hadd|].
  change 10%nat with (9 + 1)%nat. rewrite replicate_add, run_app.
  rewrite (run_ticks entropy 9 s Harm) by (rewrite Ht; unfold TIME_LIMIT; lia).
  rewrite Ht. change (TIME_LIMIT - Z.of_nat 9) with 1.
  cbn [mbind option_bind replicate run step].
  assert (timerArmed (setTimeLeft 1 s) = true) as -> by exact Harm.
  unfold tick. cbn [timeLeft setTimeLeft]. change (1 <=? 1) with true.
  cbn match. rewrite Hadd. cbn [mbind option_bind].
  destruct (isGameOver s1); [reflexivity|].
  rewrite runEffects_no_selection; [reflexivity|].
  apply addRow_inv in Hadd as (g' & over & d' & Hadd).
  state_simpl. destruct Hadd as (_ & _ & _ & _ & _ & _ & _ & _ & _ & -> & _).
  exact Hsel.
Qed.

(** Ten ticks over a grid whose top row is empty: one more row, and the
    countdown starts again. *)
Lemma idle_round entropy s :
  idleTimed s →
  (∀ c, (c < GRID_COLS)%nat → readCell (grid s) 0 c = Some None) →
  ∃ s', run entropy s (replicate 10 Tick) = Some s' ∧ idleTimed s' ∧
        addRowCalls s' = S (addRowCalls s) ∧ score s' = score s ∧
        ∀ r c, (r < GRID_ROWS - 1)%nat → (c < GRID_COLS)%nat →
          readCell (grid s') r c = moveUp r <$> readCell (grid s) (S r) c.
Proof.
  intros Hidle Htop.
  destruct (idle_expiry entropy s Hidle) as (s1 & Hadd & Hrun).
  destruct Hidle as (Hm & Hg & Hp & Ht & Hsel & Hs).
  apply addRow_inv in Hadd
    as (g' & over & d' & Hupd & Hg1 & _ & Hcalls & Hover & _ & Hm1 & Hscore &
        _ & Hsel1 & Hp1 & _).
  state_simpl.
  destruct (addRowUpdater_inv _ _ _ _ _ _ Hs Hupd)
    as [(_ & _ & _ & Hfull) | (-> & _ & _ & Hs' & Hread)].
  { apply topRowOccupied_true in Hfull as (c & b & Hb).
    destruct (readCell_range _ _ _ _ Hs Hb) as [_ Hc].
    rewrite (Htop c Hc) in Hb. discriminate. }
  rewrite Hg in Hover. cbn [orb] in Hover. rewrite Hover in Hrun.
  eexists. split; [exact Hrun|]. clear Hrun. unfold idleTimed. state_simpl.
  rewrite Hm1, Hover, Hp1, Hsel1, Hg1, Hcalls, Hscore.
  split; [done|]. split; [reflexivity|]. split; [reflexivity|].
  intros r c Hr Hc. rewrite (Hread r c) by (unfold GRID_ROWS in *; lia).
  by rewrite decide_True.
Qed.

(** Ten ticks over a grid whose top row holds a block: the game ends. *)
Lemma idle_overflow entropy s :
  idleTimed s →
  (∃ c b, readCell (grid s) 0 c = Some (Some b)) →
  ∃ s', run entropy s (replicate 10 Tick) = Some s' ∧
        isGameOver s' = true ∧ addRowCalls s' = S (addRowCalls s) ∧
        score s' = score s ∧ grid s' = grid s.
Proof.
  intros Hidle Htop.
  destruct (idle_expiry entropy s Hidle) as (s1 & Hadd & Hrun).
  destruct Hidle as (Hm & Hg & Hp & Ht & Hsel & Hs).
  apply addRow_inv in Hadd
    as (g' & over & d' & Hupd & Hg1 & _ & Hcalls & Hover & _ & Hm1 & Hscore &
        _).
  state_simpl.
  apply topRowOccupied_true in Htop.
  rewrite (addRowUpdater_overflow entropy _ _ Htop) in Hupd.
  injection Hupd as <- <- <-.
  cbn [orb] in Hover. rewrite Hover in Hrun.
  eexists. split; [exact Hrun|]. clear Hrun. state_simpl.
  rewrite Hover, Hcalls, Hscore, Hg1. done.
Qed.

Lemma idle_countdown entropy s k :
  idleTimed s → (k < 10)%nat →
  ∃ sk, run entropy s (replicate k Tick) = Some sk ∧ isGameOver sk = false.
Proof.
  intros Hidle Hk. pose proof (idleTimed_armed s Hidle) as Harm.
  destruct Hidle as (Hm & Hg & Hp & Ht & Hsel & Hs).
  eexists. split.
  - apply (run_ticks entropy k s Harm). rewrite Ht. unfold TIME_LIMIT. lia.
  - exact Hg.
Qed.

(** X19: how long an untouched game of the time mode lasts.  In a running,
    unpaused time-mode game with nothing selected and 10 seconds on the
    clock, whose grid has its topmost block in row [h], the timer injects
    a row every ten ticks and the game ends at tick [10 * (h + 1)], not
    before: [addRow] is called [h + 1] times, the last call finding the
    top row occupied; the score stays as it is. *)
Theorem X19_idle_time_game entropy h s :
  idleTimed s →
  (∀ r c, (r < h)%nat → (c < GRID_COLS)%nat →
          readCell (grid s) r c = Some None) →
  (∃ c b, readCell (grid s) h c = Some (Some b)) →
  (∀ k, (k < 10 * (h + 1))%nat →
     ∃ sk, run entropy s (replicate k Tick) = Some sk ∧
           isGameOver sk = false) ∧
  ∃ s', run entropy s (replicate (10 * (h + 1)) Tick) = Some s' ∧
        isGameOver s' = true ∧
        addRowCalls s' = (addRowCalls s + h + 1)%nat ∧
        score s' = score s.
Proof.
  revert s. induction h as [|h IH]; intros s Hidle Hclear Hblock.
  - split; [intros k Hk; apply idle_countdown; [exact Hidle|lia]|].
    destruct (idle_overflow entropy s Hidle Hblock)
      as (s' & Hrun & Hover & Hcalls & Hscore & _).
    exists s'. split; [exact Hrun|]. split; [exact Hover|].
    split; [lia|exact Hscore].
  - destruct (idle_round entropy s Hidle) as (s1 & Hrun & Hidle1 & Hcalls & Hscore & Hread).
    { intros c Hc. apply Hclear; [lia|exact Hc]. }
    destruct Hblock as (c & b & Hb).
    assert ((S h < GRID_ROWS)%nat ∧ (c < GRID_COLS)%nat) as [Hh Hc].
    { destruct Hidle as (_ & _ & _ & _ & _ & Hs).
      exact (readCell_range _ _ _ _ Hs Hb). }
    destruct (IH s1 Hidle1) as [Hbefore (s' & Hrun' & Hover & Hcalls' & Hscore')].
    { intros r y Hr Hy. rewrite Hread by (unfold GRID_ROWS in *; lia).
      rewrite Hclear by lia. reflexivity. }
    { exists c, (withRow b h). rewrite Hread by (unfold GRID_ROWS in *; lia).
      rewrite Hb. reflexivity. }
    split.
    + intros k Hk. destruct (decide (k < 10)%nat) as [Hlt | Hge].
      * apply idle_countdown; [exact Hidle|exact Hlt].
      * replace k with (10 + (k - 10))%nat by lia.
        rewrite replicate_add, run_app, Hrun. cbn [mbind option_bind].
        apply Hbefore. lia.
    + exists s'. replace (10 * (S h + 1))%nat with (10 + 10 * (h + 1))%nat by lia.
      rewrite replicate_add, run_app, Hrun. cbn [mbind option_bind].
      split; [exact Hrun'|]. split; [exact Hover|].
      split; [lia|congruence].
Qed.

Lemma startedState_idle : idleTimed (startedState sampleEntropy TIME).
Proof.
  do 5 (split; [vm_compute; reflexivity|]).
  rewrite startedState_grid. exact sampleGrid_shape.
Qed.

Lemma X19_idle_time_game_witness :
  idleTimed (startedState sampleEntropy TIME) ∧
  ∃ s', run sampleEntropy (startedState sampleEntropy TIME)
          (replicate 70 Tick) = Some s' ∧
        isGameOver s' = true ∧
        addRowCalls s' = (addRowCalls (startedState sampleEntropy TIME) + 6 + 1)%nat.
Proof.
  split; [exact startedState_idle|].
  destruct (X19_idle_time_game sampleEntropy 6 (startedState sampleEntropy TIME)
              startedState_idle)
    as [_ (s' & Hrun & Hover & Hcalls & _)].
  - intros r c Hr Hc. rewrite startedState_grid. unfold GRID_COLS in Hc.
    do 6 (destruct r as [|r];
          [do 6 (destruct c as [|c]; [vm_compute; reflexivity|]); lia|]).
    lia.
  - exists 0%nat, (mkBlock "aemi" 3 6 0 false). vm_compute. reflexivity.
  - exists s'. split; [exact Hrun|]. split; [exact Hover|exact Hcalls].
Defined.

(** ** Colours *)

Lemma VALUE_COLORS_lookup v :
  1 ≤ v ≤ 9 →
  ∃ colour, VALUE_COLORS !! v = Some colour ∧
            colour ≠ "#FFFFFF"%string ∧ colour ≠ "#FF3366"%string.
Proof.
  intros Hv.
  assert (v = 1 ∨ v = 2 ∨ v = 3 ∨ v = 4 ∨ v = 5 ∨ v = 6 ∨ v = 7 ∨ v = 8 ∨ v = 9)
    as Hc by lia.
  clear Hv. destruct Hc as [->|[->|[->|[->|[->|[->|[->|[->| ->]]]]]]]];
    (eexists; split; [vm_compute; reflexivity|split; discriminate]).
Qed.

Lemma VALUE_COLORS_inj v v' :
  1 ≤ v ≤ 9 → 1 ≤ v' ≤ 9 →
  VALUE_COLORS !! v = VALUE_COLORS !! v' → v = v'.
Proof.
  intros Hv Hv'.
  assert (v = 1 ∨ v = 2 ∨ v = 3 ∨ v = 4 ∨ v = 5 ∨ v = 6 ∨ v = 7 ∨ v = 8 ∨ v = 9)
    as Hc by lia.
  assert (v' = 1 ∨ v' = 2 ∨ v' = 3 ∨ v' = 4 ∨ v' = 5 ∨ v' = 6 ∨ v' = 7 ∨
          v' = 8 ∨ v' = 9) as Hc' by lia.
  clear Hv Hv'.
  destruct Hc as [->|[->|[->|[->|[->|[->|[->|[->| ->]]]]]]]];
    destruct Hc' as [->|[->|[->|[->|[->|[->|[->|[->| ->]]]]]]]];
    vm_compute; intros H; (reflexivity || discriminate H).
Qed.

(** X20: the colour of a block shows its value.  In every state that
    events lead to, a block is drawn in ['#FF3366'] exactly when its id is
    selected; an unselected block is drawn in the colour that
    [VALUE_COLORS] holds for its value, never in the fallback ['#FFFFFF'];
    and two unselected blocks have the same colour exactly when they have
    the same value. *)
Theorem X20_block_colours entropy s r c b r' c' b' :
  reachable entropy s →
  readCell (grid s) r c = Some (Some b) →
  readCell (grid s) r' c' = Some (Some b') →
  (backgroundColor (selectedIds s) b = "#FF3366"%string
   ↔ id b ∈ selectedIds s) ∧
  (id b ∉ selectedIds s →
   VALUE_COLORS !! value b = Some (backgroundColor (selectedIds s) b) ∧
   backgroundColor (selectedIds s) b ≠ "#FFFFFF"%string) ∧
  (id b ∉ selectedIds s → id b' ∉ selectedIds s →
   (backgroundColor (selectedIds s) b = backgroundColor (selectedIds s) b'
    ↔ value b = value b')).
Proof.
  intros Hreach Hb Hb'.
  pose proof (reachable_blocksOK entropy s Hreach) as Hok.
  destruct (Hok _ _ _ Hb) as [Hv _]. destruct (Hok _ _ _ Hb') as [Hv' _].
  destruct (VALUE_COLORS_lookup _ Hv) as (colour & Hc & Hfall & Hsel).
  destruct (VALUE_COLORS_lookup _ Hv') as (colour' & Hc' & _ & _).
  unfold backgroundColor. split; [|split].
  - case_bool_decide as Hin; [done|]. rewrite Hc. cbn. done.
  - intros Hout. rewrite bool_decide_eq_false_2 by exact Hout.
    rewrite Hc. cbn. done.
  - intros Hout Hout'. rewrite !bool_decide_eq_false_2 by done.
    split.
    + intros Heq. apply (VALUE_COLORS_inj _ _ Hv Hv').
      rewrite Hc, Hc' in *. cbn in Heq. by rewrite Heq.
    + by intros ->.
Qed.

Lemma X20_block_colours_witness :
  readCell (grid (startedState sampleEntropy TIME)) 9 0
    = Some (Some (mkBlock "0a4i" 1 9 0 false)) ∧
  readCell (grid (startedState sampleEntropy TIME)) 8 0
    = Some (Some (mkBlock "3nmi" 1 8 0 false)) ∧
  VALUE_COLORS !! 1 = Some "#FFADAD"%string ∧
  (backgroundColor (selectedIds (startedState sampleEntropy TIME))
     (mkBlock "0a4i" 1 9 0 false) = "#FF3366"%string
   ↔ "0a4i"%string ∈ selectedIds (startedState sampleEntropy TIME)).
Proof.
  assert (readCell (grid (startedState sampleEntropy TIME)) 9 0
          = Some (Some (mkBlock "0a4i" 1 9 0 false))) as Hb
    by (vm_compute; reflexivity).
  assert (readCell (grid (startedState sampleEntropy TIME)) 8 0
          = Some (Some (mkBlock "3nmi" 1 8 0 false))) as Hb'
    by (vm_compute; reflexivity).
  split; [exact Hb|]. split; [exact Hb'|]. split; [vm_compute; reflexivity|].
  exact (proj1 (X20_block_colours sampleEntropy _ 9 0 _ 8 0 _
                  startedState_reachable Hb Hb')).
Defined.

(** ** The high score *)

Lemma parseDigits_app s t acc :
  allChars isDigit s = true →
  parseDigits (s ++ t) acc = parseDigits t (parseDigits s acc).
Proof.
  revert acc. induction s as [|a s IH]; intros acc; [reflexivity|].
  cbn [allChars]. intros [Ha Hs]%andb_prop.
  apply bool_decide_eq_true_1 in Ha as [d Hd].
  change (String a s +:+ t) with (String a (s +:+ t)).
  cbn [parseDigits]. rewrite Hd. apply IH, Hs.
Qed.

Lemma allChars_app p s t :
  allChars p (s ++ t) = allChars p s && allChars p t.
Proof.
  induction s as [|a s IH]; [reflexivity|].
  change (String a s +:+ t) with (String a (s +:+ t)).
  cbn [allChars]. by rewrite IH, andb_assoc.
Qed.

Lemma digitChar_value d :
  0 ≤ d ≤ 9 →
  digitValue (digitChar d) = Some d ∧ isWhiteSpace (digitChar d) = false ∧
  isDigit (digitChar d) = true.
Proof.
  intros Hd.
  assert (d = 0 ∨ d = 1 ∨ d = 2 ∨ d = 3 ∨ d = 4 ∨ d = 5 ∨ d = 6 ∨ d = 7 ∨
          d = 8 ∨ d = 9) as Hc by lia.
  clear Hd. destruct Hc as [->|[->|[->|[->|[->|[->|[->|[->|[->| ->]]]]]]]]];
    (split; [reflexivity|split; reflexivity]).
Qed.

Lemma decimalDigits_S fuel n :
  decimalDigits (S fuel) n =
    if n <? 10 then String (digitChar n) EmptyString
    else (decimalDigits fuel (n `div` 10)
          +:+ String (digitChar (n `mod` 10)) EmptyString).
Proof. reflexivity. Qed.

Lemma decimalDigits_parse fuel n :
  0 ≤ n < 10 ^ Z.of_nat (S fuel) →
  allChars isDigit (decimalDigits (S fuel) n) = true ∧
  parseDigits (decimalDigits (S fuel) n) None = Some n.
Proof.
  revert n. induction fuel as [|fuel IH]; intros n Hn.
  - change (10 ^ Z.of_nat 1) with 10 in Hn. cbn [decimalDigits].
    destruct (Z.ltb_spec n 10) as [_|]; [|lia].
    destruct (digitChar_value n ltac:(lia)) as (Hv & _ & Hd).
    cbn [allChars parseDigits]. rewrite Hv, Hd. cbn [default andb].
    split; [reflexivity|f_equal; lia].
  - rewrite decimalDigits_S. destruct (Z.ltb_spec n 10) as [Hlt|Hge].
    + destruct (digitChar_value n ltac:(lia)) as (Hv & _ & Hd).
      cbn [allChars parseDigits]. rewrite Hv, Hd. cbn [default andb].
      split; [reflexivity|f_equal; lia].
    + assert (0 ≤ n `div` 10 < 10 ^ Z.of_nat (S fuel)) as Hdiv.
      { split; [apply Z.div_pos; lia|]. apply Z.div_lt_upper_bound; [lia|].
        replace (Z.of_nat (S (S fuel))) with (Z.of_nat (S fuel) + 1) in Hn
          by lia.
        rewrite Z.pow_add_r in Hn by lia. lia. }
      destruct (IH _ Hdiv) as [Hall Hparse].
      pose proof (Z.mod_pos_bound n 10 ltac:(lia)) as Hmod.
      destruct (digitChar_value (n `mod` 10) ltac:(lia)) as (Hv & _ & Hd).
      split.
      * rewrite allChars_app, Hall. cbn [allChars]. by rewrite Hd.
      * rewrite parseDigits_app by exact Hall. rewrite Hparse.
        cbn [parseDigits]. rewrite Hv.
        change (default 0 (Some (n `div` 10))) with (n `div` 10).
        pose proof (Z.div_mod n 10 ltac:(lia)). apply (f_equal Some). lia.
Qed.

Lemma decimalDigits_head fuel n :
  0 ≤ n →
  ∃ d rest, 0 ≤ d ≤ 9 ∧ decimalDigits (S fuel) n = String (digitChar d) rest.
Proof.
  revert n. induction fuel as [|fuel IH]; intros n Hn.
  - cbn [decimalDigits]. destruct (Z.ltb_spec n 10) as [Hlt|Hge].
    + exists n, EmptyString. split; [lia|reflexivity].
    + pose proof (Z.mod_pos_bound n 10 ltac:(lia)) as Hmod.
      exists (n `mod` 10), EmptyString. split; [lia|reflexivity].
  - rewrite decimalDigits_S. destruct (Z.ltb_spec n 10) as [Hlt|Hge].
    + exists n, EmptyString. split; [lia|reflexivity].
    + destruct (IH (n `div` 10)) as (d & rest & Hd & ->);
        [apply Z.div_pos; lia|].
      exists d. eexists. split; [exact Hd|reflexivity].
Qed.

Lemma parseInt_digits d rest :
  0 ≤ d ≤ 9 →
  parseInt (String (digitChar d) rest)
  = parseDigits (String (digitChar d) rest) None.
Proof.
  intros Hd.
  assert (d = 0 ∨ d = 1 ∨ d = 2 ∨ d = 3 ∨ d = 4 ∨ d = 5 ∨ d = 6 ∨ d = 7 ∨
          d = 8 ∨ d = 9) as Hc by lia.
  clear Hd. destruct Hc as [->|[->|[->|[->|[->|[->|[->|[->|[->| ->]]]]]]]]];
    reflexivity.
Qed.

(** [parseInt] reads back what [toString] wrote, for the integers that
    both treat exactly. *)
Lemma parseInt_numberToString n :
  - 2 ^ 53 < n < 2 ^ 53 →
  parseInt (numberToString n) = Some n ∧ numberToString n ≠ EmptyString.
Proof.
  intros Hn.
  assert (- 10 ^ 21 < n < 10 ^ 21) as Hn'.
  { split; [apply Z.lt_trans with (- 2 ^ 53) | apply Z.lt_trans with (2 ^ 53)];
      try apply Hn; apply Z.ltb_lt; reflexivity. }
  clear Hn. rename Hn' into Hn. unfold numberToString. destruct (Z.ltb_spec n 0) as [Hneg|Hpos].
  - split; [|discriminate].
    unfold parseInt. cbn [trimStart]. change (isWhiteSpace "-") with false.
    cbn match.
    destruct (decimalDigits_parse 20 (- n)) as [_ ->];
      [change (Z.of_nat 21) with 21; lia|].
    cbn. f_equal. lia.
  - destruct (decimalDigits_head 20 n Hpos) as (d & rest & Hd & Heq).
    rewrite Heq. split; [|discriminate].
    rewrite (parseInt_digits d rest Hd), <- Heq.
    apply decimalDigits_parse. change (Z.of_nat 21) with 21. lia.
Qed.

(** X21: a new high score survives a reload.  When a score (an integer
    from 0 to below 2^53, which [toString] writes with all its digits and
    [parseInt] reads exactly) beats the high score, the effect sets
    [highScore] to it and stores its decimal digits; and mounting the
    component again on that storage ([getItem], [parseInt], then the second
    effect with score 0) gives back exactly that high score and leaves the
    storage as it is. *)
Theorem X21_highScore_reload p score :
  0 ≤ score < 2 ^ 53 →
  exceeds score (highScore p) = true →
  saveHighScore score p
    = mkHighScore (Some score) (Some (numberToString score)) ∧
  parseInt (numberToString score) = Some score ∧
  mountHighScore (saved (saveHighScore score p)) = saveHighScore score p.
Proof.
  intros Hscore Hbeat.
  destruct (parseInt_numberToString score ltac:(lia)) as [Hparse Hne].
  unfold saveHighScore at 1 2 3. rewrite Hbeat.
  split; [reflexivity|]. split; [exact Hparse|].
  unfold mountHighScore, loadHighScore. cbn [saved highScore].
  rewrite bool_decide_eq_false_2 by exact Hne. rewrite Hparse.
  unfold saveHighScore. cbn [highScore exceeds].
  destruct (Z.ltb_spec score 0) as [|_]; [lia|]. reflexivity.
Qed.

Lemma X21_highScore_reload_witness :
  exceeds 120 (highScore (mountHighScore (Some "70"%string))) = true ∧
  saved (saveHighScore 120 (mountHighScore (Some "70"%string)))
    = Some "120"%string ∧
  mountHighScore (saved (saveHighScore 120 (mountHighScore (Some "70"%string))))
    = saveHighScore 120 (mountHighScore (Some "70"%string)).
Proof.
  assert (0 ≤ 120 < 2 ^ 53) as Hscore by lia.
  assert (exceeds 120 (highScore (mountHighScore (Some "70"%string))) = true)
    as Hbeat by (vm_compute; reflexivity).
  split; [exact Hbeat|]. split; [vm_compute; reflexivity|].
  exact (proj2 (proj2 (X21_highScore_reload _ 120 Hscore Hbeat))).
Defined.

Lemma saveHighScore_NaN score stored :
  saveHighScore score (mkHighScore None stored) = mkHighScore None stored.
Proof. reflexivity. Qed.

(** X22: a stored item that is not a number disables the high score.  If
    [localStorage] holds a non-empty string in which [parseInt] finds no
    number, [highScore] becomes [NaN] at the first render, and whatever
    scores follow, it stays [NaN] and the storage is never written: no
    score compares greater than [NaN]. *)
Theorem X22_highScore_NaN stored scores :
  stored ≠ EmptyString → parseInt stored = None →
  trackHighScore (mountHighScore (Some stored)) scores
    = mkHighScore None (Some stored).
Proof.
  intros Hne Hnan.
  assert (mountHighScore (Some stored) = mkHighScore None (Some stored)) as ->.
  { unfold mountHighScore, loadHighScore. cbn [saved].
    rewrite bool_decide_eq_false_2 by exact Hne. rewrite Hnan. reflexivity. }
  unfold trackHighScore.
  induction scores as [|score scores IH]; [reflexivity|].
  cbn [foldl]. rewrite saveHighScore_NaN. exact IH.
Qed.

Lemma X22_highScore_NaN_witness :
  parseInt "best: 120" = None ∧
  trackHighScore (mountHighScore (Some "best: 120"%string)) [0; 30; 500]
    = mkHighScore None (Some "best: 120"%string).
Proof.
  assert (parseInt "best: 120" = None) as Hnan by (vm_compute; reflexivity).
  split; [exact Hnan|].
  apply (X22_highScore_NaN "best: 120" [0; 30; 500]); [discriminate|exact Hnan].
Defined.

Lemma foldl_max_le a l : a ≤ foldl Z.max a l.
Proof.
  revert a. induction l as [|x l IH]; intros a; cbn [foldl]; [lia|].
  specialize (IH (Z.max a x)). lia.
Qed.

(** X23: the high score is the best score.  When [highScore] is a number
    [h] and the effect runs for a sequence of scores, all of them integers
    below 2^53 in absolute value, then afterwards [highScore] is the
    maximum of [h] and these scores; the storage holds the digits of that
    maximum if a score beat [h] and is untouched otherwise. *)
Theorem X23_highScore_max p h scores :
  highScore p = Some h →
  - 2 ^ 53 < h < 2 ^ 53 →
  Forall (λ score, - 2 ^ 53 < score < 2 ^ 53) scores →
  highScore (trackHighScore p scores) = Some (foldl Z.max h scores) ∧
  - 2 ^ 53 < foldl Z.max h scores < 2 ^ 53 ∧
  saved (trackHighScore p scores) =
    if bool_decide (foldl Z.max h scores = h) then saved p
    else Some (numberToString (foldl Z.max h scores)).
Proof.
  unfold trackHighScore. intros Hp Hh Hscores. revert p h Hp Hh.
  induction Hscores as [|score scores Hscore _ IH]; intros p h Hp Hh.
  - cbn [foldl]. rewrite bool_decide_eq_true_2 by reflexivity. done.
  - cbn [foldl]. unfold saveHighScore at 2 4. rewrite Hp. cbn [exceeds].
    destruct (Z.ltb_spec h score) as [Hlt|Hge].
    + replace (Z.max h score) with score by lia.
      destruct (IH (mkHighScore (Some score) (Some (numberToString score)))
                  score eq_refl Hscore) as (-> & Hmax & ->).
      split; [reflexivity|]. split; [exact Hmax|]. cbn [saved].
      pose proof (foldl_max_le score scores).
      rewrite (bool_decide_eq_false_2 (_ = h)) by lia.
      case_bool_decide as Heq; [by rewrite Heq|reflexivity].
    + replace (Z.max h score) with h by lia. exact (IH p h Hp Hh).
Qed.

Lemma X23_highScore_max_witness :
  highScore (trackHighScore (mountHighScore None) [0; 30; 80; 0; 50])
    = Some 80 ∧
  saved (trackHighScore (mountHighScore None) [0; 30; 80; 0; 50])
    = Some "80"%string.
Proof.
  assert (highScore (mountHighScore None) = Some 0) as H by reflexivity.
  assert (- 2 ^ 53 < 0 < 2 ^ 53) as H0 by lia.
  assert (Forall (λ score, - 2 ^ 53 < score < 2 ^ 53) [0; 30; 80; 0; 50])
    as Hall by (repeat (apply Forall_cons_2; [lia|]); apply Forall_nil_2).
  split.
  - exact (proj1 (X23_highScore_max _ 0 [0; 30; 80; 0; 50] H H0 Hall)).
  - rewrite (proj2 (proj2 (X23_highScore_max _ 0 [0; 30; 80; 0; 50] H H0 Hall))).
    vm_compute. reflexivity.
Defined.

(** *** The high score during a game *)

Lemma saveHighScore_best score p h :
  highScore p = Some h →
  highScore (saveHighScore score p) = Some (Z.max h score).
Proof.
  intros Hp. unfold saveHighScore. rewrite Hp. cbn [exceeds].
  destruct (Z.ltb_spec h score) as [Hlt|Hge]; cbn [highScore].
  - f_equal. lia.
  - rewrite Hp. f_equal. lia.
Qed.

(** X24: the best score shown is never below the score.  When [highScore]
    is a number that is at least the score, then after every sequence of
    events, with the effect run after each, it is still a number, it has
    not gone down, and it is at least the score reached. *)
Theorem X24_highScore_covers entropy events s p h s' p' :
  highScore p = Some h → score s ≤ h →
  runTracked entropy s p events = Some (s', p') →
  ∃ h', highScore p' = Some h' ∧ h ≤ h' ∧ score s' ≤ h'.
Proof.
  revert s p h. induction events as [|e events IH]; intros s p h Hp Hle.
  - intros [= <- <-]. exists h. split; [exact Hp|]. lia.
  - cbn [runTracked].
    destruct (step entropy s e) as [s1|]; [|discriminate].
    cbn [mbind option_bind]. intros Hrun.
    destruct (IH s1 (saveHighScore (score s1) p) (Z.max h (score s1)))
      as (h' & Hh' & Hge & Hscore);
      [exact (saveHighScore_best _ _ _ Hp)|lia|exact Hrun|].
    exists h'. split; [exact Hh'|]. lia.
Qed.

Lemma X24_highScore_covers_witness :
  ∃ s' p', runTracked sampleEntropy initialState (mountHighScore (Some "30"%string))
             matchClicks = Some (s', p') ∧
           score s' = 50 ∧
           ∃ h', highScore p' = Some h' ∧ 30 ≤ h' ∧ score s' ≤ h'.
Proof.
  destruct (runTracked sampleEntropy initialState
              (mountHighScore (Some "30"%string)) matchClicks)
    as [[s' p']|] eqn:Hrun; [|vm_compute in Hrun; discriminate].
  exists s', p'. split; [reflexivity|]. split.
  - assert ((λ r : State * HighScore, score r.1) <$> Some (s', p') = Some 50)
      as Hs by (rewrite <- Hrun; vm_compute; reflexivity).
    by injection Hs.
  - refine (X24_highScore_covers sampleEntropy matchClicks initialState
              (mountHighScore (Some "30"%string)) 30 s' p' _ _ Hrun).
    + vm_compute. reflexivity.
    + vm_compute. discriminate.
Defined.

(** ** Grids at rest *)

Lemma moveUp_None r v : moveUp r v = None ↔ v = None.
Proof. destruct v; cbn; naive_solver. Qed.

Lemma shifted_settled entropy d g g' :
  shape g → shape g' → settled g →
  (∀ x y, (x < GRID_ROWS)%nat → (y < GRID_COLS)%nat →
     readCell g' x y =
       if decide (x < GRID_ROWS - 1)%nat
       then moveUp x <$> readCell g (S x) y
       else Some (Some (generatedBlock entropy d (GRID_ROWS - 1) y))) →
  settled g'.
Proof.
  intros Hs Hs' Hset Hread r c b Hb Hnone.
  destruct (readCell_range _ _ _ _ Hs' Hnone) as [Hr Hc].
  rewrite (Hread r c) in Hb by (unfold GRID_ROWS in *; lia || exact Hc).
  rewrite (Hread (S r) c Hr Hc) in Hnone.
  rewrite decide_True in Hb by (unfold GRID_ROWS in *; lia).
  case_decide; [|discriminate].
  destruct (readCell g (S r) c) as [[b0|]|] eqn:Hb0; try discriminate.
  destruct (readCell g (S (S r)) c) as [[b1|]|] eqn:Hb1; try discriminate.
  exact (Hset _ _ _ Hb0 Hb1).
Qed.

Lemma addRow_settled entropy s s' :
  addRow entropy s = Some s' → shape (grid s) → settled (grid s) →
  shape (grid s') ∧ settled (grid s').
Proof.
  intros (g' & over & d' & Hupd & <- & _)%addRow_inv Hs Hset.
  destruct (addRowUpdater_inv _ _ _ _ _ _ Hs Hupd)
    as [(_ & -> & _) | (_ & _ & _ & Hs' & Hread)]; [done|].
  split; [exact Hs'|]. exact (shifted_settled _ _ _ _ Hs Hs' Hset Hread).
Qed.

Lemma initGame_settled entropy m s s0 :
  initGame entropy m s = Some s0 → shape (grid s0) ∧ settled (grid s0).
Proof.
  intros Hinit.
  apply initGame_inv in Hinit as (g & d' & Hinit & Hs & _ & -> & _).
  split; [exact Hs|].
  destruct (initGrid_spec entropy (drawn s)) as (g0 & Hg0 & _ & Hread).
  rewrite Hg0 in Hinit. injection Hinit as <- _. clear Hg0.
  intros r c b Hb Hnone.
  destruct (readCell_range _ _ _ _ Hs Hb) as [Hr Hc].
  destruct (readCell_range _ _ _ _ Hs Hnone) as [Hr' _].
  rewrite (Hread r c Hr Hc) in Hb. rewrite (Hread (S r) c Hr' Hc) in Hnone.
  repeat case_decide; try discriminate. lia.
Qed.

Lemma runEffects_settled entropy s s' :
  runEffects entropy s = Some s' →
  grid s = [] ∨ (shape (grid s) ∧ settled (grid s)) →
  grid s' = [] ∨ (shape (grid s') ∧ settled (grid s')).
Proof.
  intros [[H0 ->] | [(Hn & Ht & s1 & Hm & ->) | [(Hn & Ht & ->) | (Hn & Ht & ->)]]]%runEffects_cases
    Hgrid; [exact Hgrid| |exact Hgrid|exact Hgrid].
  right. state_simpl.
  apply matchBranch_inv in Hm as (g1 & ch & Hgrav & Hm). state_simpl.
  destruct Hgrid as [Hnil | [Hs Hset]].
  { rewrite Hnil in Hgrav.
    change (removeSelected (selectedIds s) []) with (@nil (list cell)) in Hgrav.
    rewrite applyGravity_nil in Hgrav. discriminate. }
  pose proof (removeSelected_shape (selectedIds s) _ Hs) as Hs0.
  pose proof (applyGravity_shape _ _ _ Hgrav Hs0) as Hs1.
  pose proof (applyGravity_settles _ _ _ Hs0 Hgrav) as Hset1.
  destruct Hm as [[_ Hadd] | [_ ->]]; [|done].
  exact (addRow_settled _ _ _ Hadd Hs1 Hset1).
Qed.

Lemma addRow_rest entropy s s' :
  addRow entropy s = Some s' →
  grid s = [] ∨ (shape (grid s) ∧ settled (grid s)) →
  shape (grid s') ∧ settled (grid s').
Proof.
  intros Hadd [Hnil | [Hs Hset]].
  - apply addRow_inv in Hadd as (g' & over & d' & Hupd & _).
    rewrite Hnil, addRowUpdater_nil in Hupd. discriminate.
  - exact (addRow_settled _ _ _ Hadd Hs Hset).
Qed.

Lemma reachable_rest entropy s :
  reachable entropy s → grid s = [] ∨ (shape (grid s) ∧ settled (grid s)).
Proof.
  set (P := λ x : State, grid x = [] ∨ (shape (grid x) ∧ settled (grid x))).
  apply (reachable_invariant P P); subst P; cbn beta.
  - by left.
  - intros x m x0 _ Hinit. right. exact (initGame_settled _ _ _ _ Hinit).
  - intros x Hx. exact Hx.
  - intros x i Hx _ _. exact Hx.
  - intros x b Hx. exact Hx.
  - intros x v Hx. exact Hx.
  - intros x x1 Hx _ Hadd _. right. exact (addRow_rest _ _ _ Hadd Hx).
  - intros x x1 Hx _ Hadd _. right. exact (addRow_rest _ _ _ Hadd Hx).
  - intros x t rest Hx _. exact Hx.
  - intros x x' Hx Hrun. exact (runEffects_settled _ _ _ Hrun Hx).
Qed.

(** X25: no block floats in a state at rest.  In every state that events
    lead to, each block of the grid lies on the bottom row or on another
    block: no block has an empty cell directly beneath it. *)
Theorem X25_no_floating_block entropy s :
  reachable entropy s → settled (grid s).
Proof.
  intros [Hnil | [_ Hset]]%reachable_rest; [|exact Hset].
  intros r c b Hb. rewrite Hnil in Hb. discriminate.
Qed.

Lemma X25_no_floating_block_witness :
  ∃ s, run sampleEntropy initialState matchClicks = Some s ∧
       readCell (grid s) 6 0 = Some None ∧ settled (grid s).
Proof.
  destruct (run sampleEntropy initialState matchClicks)
    as [s|] eqn:Hrun; [|vm_compute in Hrun; discriminate].
  exists s. split; [reflexivity|]. split.
  - assert ((λ x, readCell (grid x) 6 0) <$> Some s = Some (Some None)) as Hs
      by (rewrite <- Hrun; vm_compute; reflexivity).
    by injection Hs.
  - exact (X25_no_floating_block sampleEntropy s (ex_intro _ _ Hrun)).
Defined.

(** ** Why a game is over *)

Lemma addRow_overflowed entropy s s1 :
  addRow entropy s = Some s1 → isGameOver s = false → isGameOver s1 = true →
  grid s1 = grid s ∧ ∃ c b, readCell (grid s) 0 c = Some (Some b).
Proof.
  intros (g' & over & d' & Hupd & Hg & _ & _ & Hover & _)%addRow_inv Hrun Hend.
  rewrite Hrun, orb_false_r in Hover. rewrite Hend in Hover. subst over.
  apply addRowUpdater_over in Hupd as (-> & _ & Htop).
  split; [exact Hg|]. by apply topRowOccupied_true.
Qed.

Lemma reachable_overflowed entropy s :
  reachable entropy s →
  (currentSum s = selectedSum s ∧
   (selectedSum s = 0 ∨ selectedSum s ≠ target s)) ∧
  (isGameOver s = true → ∃ c b, readCell (grid s) 0 c = Some (Some b)).
Proof.
  set (P := λ x : State,
         (currentSum x = selectedSum x ∧
          (selectedSum x = 0 ∨ selectedSum x ≠ target x)) ∧
         (isGameOver x = true → ∃ c b, readCell (grid x) 0 c = Some (Some b))).
  set (Q := λ x : State,
         isGameOver x = true →
         (∃ c b, readCell (grid x) 0 c = Some (Some b)) ∧
         (selectedSum x = 0 ∨ selectedSum x ≠ target x)).
  apply (reachable_invariant P Q); subst P Q; cbn beta.
  - split; [split; [reflexivity|by left]|discriminate].
  - intros x m x0 _ (g & d' & _ & _ & _ & _ & _ & _ & _ & Hg & _)%initGame_inv.
    rewrite Hg. discriminate.
  - intros x [[_ Hst] Hov] Hg. split; [exact (Hov Hg)|exact Hst].
  - intros x i _ Hg _. state_simpl. rewrite Hg. discriminate.
  - intros x b Hx. exact Hx.
  - intros x v Hx. exact Hx.
  - intros x x1 [Hst _] (_ & Hrun & _)%timerArmed_true Hadd Hend.
    destruct (addRow_over _ _ _ Hadd Hrun Hend) as (Hg & Hsel & Ht & Hsum).
    destruct (addRow_overflowed _ _ _ Hadd Hrun Hend) as [_ Htop].
    unfold selectedSum in *. state_simpl. rewrite Hg, Hsel, Ht, Hsum.
    split; [exact Hst|]. intros _. exact Htop.
  - intros x x1 _ _ _ Hg. state_simpl. rewrite Hg. discriminate.
  - intros x t rest [_ Hov] _ Hg. state_simpl. split; [exact (Hov Hg)|].
    left. apply selectedSum_no_selection. reflexivity.
  - intros x x' Hx Hrun. split; [exact (runEffects_stable _ _ _ Hrun)|].
    intros Hend.
    apply runEffects_cases in Hrun
      as [[H0 ->] | [(Hn & Ht & s1 & Hm & ->) | [(Hn & Ht & ->) | (Hn & Ht & ->)]]];
      state_simpl; try exact (proj1 (Hx Hend)).
    destruct (isGameOver x) eqn:Hgx.
    { destruct (Hx eq_refl) as [_ [Hz | Hne]]; [by destruct Hn|by destruct Hne]. }
    apply matchBranch_inv in Hm as (g1 & ch & _ & [[_ Hadd] | [_ ->]]).
    + destruct (addRow_overflowed _ _ _ Hadd) as [-> Htop];
        [state_simpl; exact Hgx|exact Hend|exact Htop].
    + state_simpl. congruence.
Qed.

(** X26: a finished game has reached the top.  In every state that events
    lead to in which [isGameOver] is set, the top row of the grid holds a
    block: only [addRow] sets the flag, on finding the top row occupied,
    and nothing changes the grid of a finished game. *)
Theorem X26_gameOver_reached_top entropy s :
  reachable entropy s → isGameOver s = true →
  ∃ c b, readCell (grid s) 0 c = Some (Some b).
Proof. intros Hreach. exact (proj2 (reachable_overflowed entropy s Hreach)). Qed.

Lemma X26_gameOver_reached_top_witness :
  ∃ s, run sampleEntropy initialState (StartGame TIME :: replicate 70 Tick)
       = Some s ∧
       isGameOver s = true ∧ ∃ c b, readCell (grid s) 0 c = Some (Some b).
Proof.
  destruct (run sampleEntropy initialState
              (StartGame TIME :: replicate 70 Tick))
    as [s|] eqn:Hrun; [|vm_compute in Hrun; discriminate].
  assert (isGameOver <$> Some s = Some true) as Hs
    by (rewrite <- Hrun; vm_compute; reflexivity).
  injection Hs as Hs.
  exists s. split; [reflexivity|]. split; [exact Hs|].
  exact (X26_gameOver_reached_top sampleEntropy s (ex_intro _ _ Hrun) Hs).
Defined.

(** ** The clock and the clicks *)

(** X27: a match does not reset the countdown.  Only a tick of the timer
    and [initGame] change [timeLeft]: a click (with whatever the sum effect
    does after it, a match included), the menu button, a pause or resume
    and the firing of a timeout leave it as it is. *)
Theorem X27_clock_untouched entropy s e s' :
  step entropy s e = Some s' → timeLeft s' ≠ timeLeft s →
  e = Tick ∨ ∃ m, e = StartGame m.
Proof.
  assert (∀ x x', runEffects entropy x = Some x' → timeLeft x' = timeLeft x)
    as Heff.
  { intros x x' Hrun. apply runEffects_frame in Hrun. apply Hrun. }
  intros Hstep Hne. destruct e; [right; by eexists| | | | |by left|];
    exfalso; apply Hne; clear Hne; cbn [step] in Hstep.
  - destruct (mode s); [|by injection Hstep as <-].
    by apply Heff in Hstep.
  - unfold handleBlockClick in Hstep.
    destruct (isGameOver s || isPaused s); [by injection Hstep as <-|].
    by apply Heff in Hstep.
  - by injection Hstep as <-.
  - by injection Hstep as <-.
  - destruct (timeouts s) as [|t rest]; [by injection Hstep as <-|].
    by apply Heff in Hstep.
Qed.

Lemma X27_clock_untouched_witness :
  ∃ s', step sampleEntropy (setTimeLeft 1 (startedState sampleEntropy TIME)) Tick
        = Some s' ∧
        timeLeft s' = 10 ∧ (Tick = Tick ∨ ∃ m, Tick = StartGame m).
Proof.
  destruct (step sampleEntropy (setTimeLeft 1 (startedState sampleEntropy TIME))
              Tick) as [s'|] eqn:Hstep; [|vm_compute in Hstep; discriminate].
  assert (timeLeft <$> Some s' = Some 10) as Ht
    by (rewrite <- Hstep; vm_compute; reflexivity).
  injection Ht as Ht.
  exists s'. split; [reflexivity|]. split; [exact Ht|].
  apply (X27_clock_untouched sampleEntropy _ Tick s' Hstep).
  rewrite Ht. vm_compute. discriminate.
Defined.

(** ** What a match is worth *)

Lemma sumValues_bounds blocks :
  Forall (λ b, 1 ≤ value b ≤ 9) blocks →
  Z.of_nat (length blocks) ≤ sumValues blocks ≤ 9 * Z.of_nat (length blocks).
Proof.
  induction 1 as [|b blocks Hb _ IH]; [by rewrite sumValues_nil|].
  rewrite sumValues_cons. cbn [length]. lia.
Qed.

Lemma runEffects_gain entropy x x' :
  blocksOK (grid x) →
  target x = 0 ∨ TARGET_MIN ≤ target x ≤ TARGET_MAX →
  runEffects entropy x = Some x' →
  score x' = score x ∨ score x + 20 ≤ score x' ≤ score x + 250.
Proof.
  intros Hok Ht [[H0 ->] | [(Hn & Heq & s1 & Hm & ->) | [(Hn & _ & ->) | (Hn & _ & ->)]]]%runEffects_cases;
    [by left| |by left|by left].
  right. apply matchBranch_fields in Hm as (_ & _ & _ & _ & Hscore & _).
  state_simpl. rewrite Hscore.
  assert (Forall (λ b, 1 ≤ value b ≤ 9)
            (selectedBlocks (grid x) (selectedIds x))) as Hall.
  { apply Forall_forall. intros b [(r & c & Hb) _]%elem_of_selectedBlocks.
    exact (proj1 (Hok _ _ _ Hb)). }
  apply sumValues_bounds in Hall. unfold selectedSum in *.
  unfold TARGET_MIN, TARGET_MAX in Ht. lia.
Qed.

(** X28: a match is worth between 20 and 250 points.  From a state that
    events lead to, an event other than [initGame] either leaves the score
    as it is or raises it by at least 20 and at most 250: the values of the
    blocks are between 1 and 9 and the target between 10 and 25, so a match
    takes at least two blocks and at most 25. *)
Theorem X28_match_gain entropy s e s' :
  reachable entropy s → step entropy s e = Some s' →
  (∀ m, e ≠ StartGame m) →
  score s' = score s ∨ score s + 20 ≤ score s' ≤ score s + 250.
Proof.
  intros Hreach Hstep Hne.
  pose proof (reachable_blocksOK entropy s Hreach) as Hok.
  pose proof (reachable_target entropy s Hreach) as Ht.
  pose proof (reachable_wellFormed entropy s Hreach) as [_ Hshape].
  clear Hreach. destruct e; cbn [step] in Hstep.
  - by destruct (Hne selectedMode).
  - destruct (mode s); [|left; by injection Hstep as <-].
    refine (runEffects_gain entropy _ s' _ _ Hstep); [exact Hok|exact Ht].
  - unfold handleBlockClick in Hstep.
    destruct (isGameOver s || isPaused s); [left; by injection Hstep as <-|].
    refine (runEffects_gain entropy _ s' _ _ Hstep); [exact Hok|exact Ht].
  - left. by injection Hstep as <-.
  - left. by injection Hstep as <-.
  - destruct (timerArmed s) eqn:Harm; [|left; by injection Hstep as <-].
    apply timerArmed_true in Harm as (Hm & _).
    apply tick_inv in Hstep
      as [[_ ->] | (_ & s1 & Hadd & Hrest)]; [by left|].
    apply addRow_inv in Hadd
      as (g' & over & d' & Hupd & Hg & _ & _ & _ & _ & _ & Hscore & Ht1 & _).
    destruct Hrest as [[_ ->] | [_ Hrun]]; [left; exact Hscore|].
    rewrite <- Hscore.
    apply (runEffects_gain entropy (setTimeLeft TIME_LIMIT s1) s');
      [|state_simpl; by rewrite Ht1|exact Hrun].
    state_simpl. rewrite Hg.
    refine (addRowUpdater_blocksOK _ _ _ _ _ _ _ Hupd Hok).
    apply Hshape. congruence.
  - destruct (timeouts s) as [|t rest]; [left; by injection Hstep as <-|].
    refine (runEffects_gain entropy _ s' _ _ Hstep); [exact Hok|exact Ht].
Qed.

Lemma X28_match_gain_witness :
  ∃ s', step sampleEntropy
          (stateAfter sampleEntropy fourClicks) (BlockClick "0a4i") = Some s' ∧
        score s' = 50 ∧
        (score s' = 0 ∨ 0 + 20 ≤ score s' ≤ 0 + 250).
Proof.
  destruct (step sampleEntropy (stateAfter sampleEntropy fourClicks)
              (BlockClick "0a4i")) as [s'|] eqn:Hstep;
    [|vm_compute in Hstep; discriminate].
  assert (score <$> Some s' = Some 50) as Hs
    by (rewrite <- Hstep; vm_compute; reflexivity).
  injection Hs as Hs.
  exists s'. split; [reflexivity|]. split; [exact Hs|].
  refine (X28_match_gain sampleEntropy _ _ s' _ Hstep _); [|discriminate].
  exists fourClicks. vm_compute. reflexivity.
Defined.

(** ** A selection over the limit *)

Lemma reachable_overshoot entropy s :
  reachable entropy s →
  0 ≤ target s ∧
  (target s < selectedSum s → isShaking s = true ∧ timeouts s ≠ []).
Proof.
  set (P := λ x : State,
         0 ≤ target x ∧
         (target x < selectedSum x → isShaking x = true ∧ timeouts x ≠ [])).
  set (Q := λ x : State, 0 ≤ target x).
  apply (reachable_invariant P Q); subst P Q; cbn beta.
  - split; [reflexivity|]. intros Hlt. exfalso. revert Hlt.
    rewrite selectedSum_no_selection by reflexivity. cbn. lia.
  - intros x m x0 _ (g & d' & _ & _ & _ & _ & _ & Ht & _)%initGame_inv.
    rewrite Ht. pose proof (getRandomTarget_range entropy d') as Hr.
    unfold TARGET_MIN in Hr. lia.
  - intros x [Ht _]. exact Ht.
  - intros x i [Ht _] _ _. exact Ht.
  - intros x b Hx. exact Hx.
  - intros x v Hx. exact Hx.
  - intros x x1 Hx (_ & Hrun & _)%timerArmed_true Hadd Hend.
    destruct (addRow_over _ _ _ Hadd Hrun Hend) as (Hg & Hsel & Ht & _).
    apply addRow_inv in Hadd
      as (g' & over & d' & _ & _ & _ & _ & _ & _ & _ & _ & _ & _ & _ &
          Hshake & _ & Htime).
    unfold selectedSum in *. state_simpl. rewrite Hg, Hsel, Ht, Hshake, Htime.
    exact Hx.
  - intros x x1 [Ht _] _ Hadd _.
    apply addRow_inv in Hadd
      as (g' & over & d' & _ & _ & _ & _ & _ & _ & _ & _ & Ht1 & _).
    state_simpl. by rewrite Ht1.
  - intros x t rest [Ht _] _. exact Ht.
  - intros x x' Ht Hrun.
    assert (0 ≤ target x') as Ht'.
    { apply runEffects_frame in Hrun as (_ & _ & _ & _ & [-> | Hr] & _);
        [exact Ht|]. unfold TARGET_MIN in Hr. lia. }
    split; [exact Ht'|]. intros Hlt.
    apply runEffects_cases in Hrun
      as [[H0 ->] | [(Hn & Heq & s1 & Hm & ->) | [(Hn & Hgt & ->) | (Hn & Hless & ->)]]].
    + exfalso. unfold selectedSum in *. state_simpl. lia.
    + exfalso. apply matchBranch_fields in Hm as (Hsel & _).
      rewrite (selectedSum_no_selection (setCurrentSum 0 s1)) in Hlt
        by exact Hsel.
      lia.
    + state_simpl. split; [reflexivity|].
      intros Hnil. by apply app_eq_nil in Hnil as [_ ?].
    + exfalso. unfold selectedSum in *. state_simpl. lia.
Qed.

(** X29: a selection over the limit is on its way out.  In every state
    that events lead to in which the selected sum exceeds the target, the
    board is shaking and a timeout is pending that will empty the
    selection. *)
Theorem X29_overshoot_expires entropy s :
  reachable entropy s → target s < selectedSum s →
  isShaking s = true ∧ timeouts s ≠ [] ∧
  ∃ s', step entropy s ShakeTimeout = Some s' ∧ selectedIds s' = [].
Proof.
  intros Hreach Hlt.
  destruct (reachable_overshoot entropy s Hreach) as [_ Hover].
  destruct (Hover Hlt) as [Hshake Hpending].
  split; [exact Hshake|]. split; [exact Hpending|].
  destruct (timeouts s) as [|t rest] eqn:Ht; [by destruct Hpending|].
  eexists. split; [exact (step_shakeTimeout entropy s t rest Ht)|].
  reflexivity.
Qed.

Lemma X29_overshoot_expires_witness :
  reachable sampleEntropy (stateAfter sampleEntropy overshootClicks) ∧
  selectedSum (stateAfter sampleEntropy overshootClicks) = 17 ∧
  target (stateAfter sampleEntropy overshootClicks) = 16 ∧
  isShaking (stateAfter sampleEntropy overshootClicks) = true ∧
  timeouts (stateAfter sampleEntropy overshootClicks) ≠ [].
Proof.
  assert (reachable sampleEntropy (stateAfter sampleEntropy overshootClicks))
    as Hreach by (exists overshootClicks; vm_compute; reflexivity).
  split; [exact Hreach|].
  split; [vm_compute; reflexivity|]. split; [vm_compute; reflexivity|].
  destruct (X29_overshoot_expires sampleEntropy _ Hreach)
    as (Hshake & Hpending & _); [vm_compute; reflexivity|].
  split; [exact Hshake|exact Hpending].
Defined.

(** ** A click undone *)

Lemma toggleId_undo i sel : i ∉ sel → toggleId i (sel ++ [i]) = sel.
Proof.
  intros Hout. unfold toggleId.
  rewrite bool_decide_eq_true_2
    by (apply elem_of_app; right; by apply list_elem_of_singleton).
  rewrite filter_app.
  assert (filter (λ j, j ≠ i) sel = sel) as ->.
  { clear -Hout. induction sel as [|j sel IH]; [reflexivity|].
    apply not_elem_of_cons in Hout as [Hne Hout].
    rewrite filter_cons_True by (intros ->; done). by rewrite IH. }
  rewrite filter_cons_False by (intros H; by apply H).
  apply app_nil_r.
Qed.

Lemma runEffects_below entropy x :
  selectedSum x < target x →
  runEffects entropy x = Some (setCurrentSum (selectedSum x) x).
Proof.
  intros Hlt. unfold runEffects, sumEffect.
  destruct (Z.eqb_spec (selectedSum x) 0) as [H0|Hn].
  - cbn [mbind option_bind fst snd]. by rewrite H0.
  - destruct (Z.eqb_spec (selectedSum x) (target x)) as [|_]; [lia|].
    destruct (Z.ltb_spec (target x) (selectedSum x)) as [|_]; [lia|].
    reflexivity.
Qed.

(** X30: a second click on a block undoes the first.  In a running,
    unpaused state that events lead to, if the selected sum is below the
    target and stays below it when an unselected id is added, then two
    clicks on that id in a row give back exactly the state before them. *)
Theorem X30_click_undone entropy s i :
  reachable entropy s →
  isGameOver s = false → isPaused s = false →
  i ∉ selectedIds s →
  selectedSum s < target s →
  selectedSum (setSelectedIds (selectedIds s ++ [i]) s) < target s →
  run entropy s [BlockClick i; BlockClick i] = Some s.
Proof.
  intros Hreach Hrun Hp Hout Hlt Hlt'.
  pose proof (proj1 (reachable_stable entropy s Hreach)) as Hsum.
  clear Hreach.
  set (x0 := setSelectedIds (selectedIds s ++ [i]) s) in *.
  assert (step entropy s (BlockClick i)
          = Some (setCurrentSum (selectedSum x0) x0)) as H1.
  { cbn [step]. unfold handleBlockClick, toggleId. rewrite Hrun, Hp.
    cbn [orb]. rewrite bool_decide_eq_false_2 by exact Hout.
    apply runEffects_below. exact Hlt'. }
  assert (step entropy (setCurrentSum (selectedSum x0) x0) (BlockClick i)
          = Some s) as H2.
  { cbn [step]. unfold handleBlockClick. subst x0. state_simpl.
    rewrite Hrun, Hp. cbn [orb].
    rewrite (toggleId_undo i (selectedIds s) Hout).
    rewrite runEffects_below
      by (unfold selectedSum in *; state_simpl; exact Hlt).
    unfold selectedSum in *. state_simpl. rewrite <- Hsum.
    destruct s. reflexivity. }
  cbn [run]. rewrite H1. cbn [mbind option_bind]. rewrite H2. reflexivity.
Qed.

Lemma X30_click_undone_witness :
  selectedSum (stateAfter sampleEntropy twoClicks) = 5 ∧
  selectedSum
    (setSelectedIds (selectedIds (stateAfter sampleEntropy twoClicks) ++ ["aemi"])
       (stateAfter sampleEntropy twoClicks)) = 8 ∧
  run sampleEntropy (stateAfter sampleEntropy twoClicks)
    [BlockClick "aemi"; BlockClick "aemi"]
  = Some (stateAfter sampleEntropy twoClicks).
Proof.
  split; [vm_compute; reflexivity|]. split; [vm_compute; reflexivity|].
  apply (X30_click_undone sampleEntropy (stateAfter sampleEntropy twoClicks)
           "aemi").
  - exists twoClicks. vm_compute. reflexivity.
  - vm_compute. reflexivity.
  - vm_compute. reflexivity.
  - apply (bool_decide_eq_false_1 (_ ∈ _)). vm_compute. reflexivity.
  - vm_compute. reflexivity.
  - vm_compute. reflexivity.
Defined.
